(** * ATAS xenon line-shape fit: a shallow embedding of [fit_script_003.py]

    The script fits a three-resonance dipole-control-model (DCM) line shape to
    optical-density spectra, one fit per time delay, warm-starting every fit
    from the previous one.  This file embeds the script and settles the
    properties claimed about it.

    Numbers.  NumPy [float64] values are modelled by the mathematical reals
    [R]; the few places where binary64 rounding changes what [wrap] returns
    are examined separately in [Module Binary64], which evaluates the same
    formula on IEEE-754 doubles bit for bit. *)

From Stdlib Require Import String DecimalString.
From Stdlib Require Import Reals Lra Lia ZArith Arith Bool List.
From Stdlib Require Import SpecFloat.
Import ListNotations.
Local Open Scope R_scope.

(* ================================================================== *)
(** * Part I.  The program                                             *)
(* ================================================================== *)

(** ** Exceptions and results *)

(** The Python exceptions that the script or the library calls it makes can
    raise. *)
Inductive exn : Set :=
| UnboundLocalError
| NameError
| IndexError
| ValueError
| RuntimeError
| FileNotFoundError.

Inductive result (A : Type) : Type :=
| Ok (a : A)
| Raise (e : exn).
Arguments Ok {A} a.
Arguments Raise {A} e.

Definition bindR {A B : Type} (c : result A) (k : A -> result B) : result B :=
  match c with
  | Ok a => k a
  | Raise e => Raise e
  end.

Notation "x <~ c ;; k" := (bindR c (fun x => k))
  (at level 61, c at next level, right associativity).

(** ** Sequences, slices and element-wise operations *)

(** [range(start, start + count*step, step)] *)
Fixpoint arange (start step count : nat) : list nat :=
  match count with
  | O => []
  | S c => start :: arange (start + step) step c
  end.

(** Number of indices in [range(start, stop, step)] for a positive step. *)
Definition slice_len (start stop step : nat) : nat :=
  (stop - start + (step - 1)) / step.

(** Indices selected by the slice [start:-1:3] in a sequence of length [n]:
    the stop [-1] is the last position, [n - 1] (and [0] when [n = 0]). *)
Definition slice_to_last (start n : nat) : list nat :=
  arange start 3 (slice_len start (n - 1) 3).

Definition getitem (a : list R) (i : nat) : R := nth i a 0.

Fixpoint list_set {A : Type} (l : list A) (i : nat) (v : A) : list A :=
  match l, i with
  | [], _ => []
  | _ :: t, O => v :: t
  | x :: t, S j => x :: list_set t j v
  end.

(** [a[start:-1:3]] *)
Definition get_slice (start : nat) (a : list R) : list R :=
  map (getitem a) (slice_to_last start (length a)).

(** [a[start:-1:3] = vals], in place; [vals] has the shape of the slice. *)
Definition set_slice (start : nat) (a vals : list R) : list R :=
  fold_left (fun acc iv => list_set acc (fst iv) (snd iv))
            (combine (slice_to_last start (length a)) vals) a.

(** [a[first:last]] for non-negative [first], [last]. *)
Definition np_slice (roi : nat * nat) (a : list R) : list R :=
  firstn (snd roi - fst roi) (skipn (fst roi) a).

Fixpoint map2 {A B C : Type} (f : A -> B -> C) (l : list A) (l' : list B)
  : list C :=
  match l, l' with
  | x :: t, y :: t' => f x y :: map2 f t t'
  | _, _ => []
  end.

(** Python's [l * n] on lists. *)
Definition list_mul {A : Type} (l : list A) (n : nat) : list A :=
  concat (repeat l n).

Definition Rsum (l : list R) : R := fold_right Rplus 0 l.

(** [np.mean(rows, axis=0)]: the column means.  (With no rows NumPy yields
    NaNs; the width is then unknown here and the result is empty.) *)
Definition np_mean_axis0 (rows : list (list R)) : list R :=
  match rows with
  | [] => []
  | r :: _ =>
      map (fun j => Rsum (map (fun row => getitem row j) rows)
                    / INR (length rows))
          (seq 0 (length r))
  end.

(** [np.diag] of a square matrix. *)
Definition np_diag (m : list (list R)) : list R :=
  map (fun i => getitem (nth i m []) i) (seq 0 (length m)).

(** ** Arithmetic of the script *)

(** NumPy's [x % y] on floats: the remainder carries the sign of the
    divisor, [x - y * floor (x / y)]. *)
Definition np_mod (x y : R) : R := x - y * IZR (Int_part (x / y)).

(** [def wrap(phase, offset=0)]  (line 77) *)
Definition wrap (phase offset : R) : R :=
  np_mod (phase + PI + offset) (2 * PI) - PI - offset.

(** [wrap(phase)]: the call with the default offset. *)
Definition wrap0 (phase : R) : R := wrap phase 0.

(** ** Energy axis and region of interest  (lines 27-52) *)

(** [np.linspace(start, stop, num)] *)
Definition linspace (start stop : R) (num : nat) : list R :=
  map (fun i => INR i * ((stop - start) / INR (num - 1)) + start) (seq 0 num).

Definition get_energy_axis : list R := linspace 51.012496 67.000271 1962.

Definition get_intensities : list R := [1.3; 1.6; 1.9; 2.2; 2.5].

(** One [for i, e in enumerate(energy_axis)] scan of [get_roi]: the index
    bound by the [break], or [None] when the loop ends without binding. *)
Fixpoint scan_gt (threshold : R) (i : nat) (energy_axis : list R)
  : option nat :=
  match energy_axis with
  | [] => None
  | e :: rest =>
      if Rgt_dec e threshold then Some i
      else scan_gt threshold (S i) rest
  end.

Definition default_erange : R * R := (55.15, 57.45).

Definition get_roi (energy_axis : list R) (erange : R * R)
  : result (nat * nat) :=
  match scan_gt (fst erange) 0 energy_axis,
        scan_gt (snd erange) 0 energy_axis with
  | Some first, Some last => Ok (first, last)
  | _, _ => Raise UnboundLocalError
  end.

(** ** Constants  (lines 56-64) *)

Definition pldp_au : R := 0.77.
Definition gamma_xe1 : R := 0.122.
Definition e_res : list R := [55.38; 55.98; 57.27].

(** [alpha] is scipy's tabulated fine-structure constant. *)
Definition lineshape_constant (alpha : R) : R :=
  pldp_au / ln 10 * 4 * PI * alpha.

(** ** Line-shape model  (lines 81-127) *)

Definition DCM_lineshape (energy_axis : list R)
           (z phi resonance_energy gamma : R) : list R :=
  map (fun e =>
         z * ((gamma / 2 * cos phi - (e - resonance_energy) * sin phi)
              / ((e - resonance_energy) ^ 2 + gamma ^ 2 / 4)))
      energy_axis.

(** The value the specification gives for one energy point. *)
Definition DCM_value_spec (e z phi resonance_energy gamma : R) : R :=
  z * (gamma / 2 * cos phi - (e - resonance_energy) * sin phi)
  / ((e - resonance_energy) ^ 2 + gamma ^ 2 / 4).

(** Indexing the tuple slices [z[e]], [phi[e]], [gamma[e]]. *)
Definition tuple_get (t : list R) (i : nat) : result R :=
  match nth_error t i with
  | Some x => Ok x
  | None => Raise IndexError
  end.

(** [params[-1]] *)
Definition tuple_last (t : list R) : result R :=
  match t with
  | [] => Raise IndexError
  | _ => Ok (last t 0)
  end.

(** The loop [for e, energy in enumerate(e_res): model += DCM_lineshape(...)]. *)
Fixpoint add_lines (energy_axis z phi gamma : list R)
         (e : nat) (energies : list R) (model : list R)
  : result (list R) :=
  match energies with
  | [] => Ok model
  | energy :: rest =>
      ze <~ tuple_get z e ;;
      ge <~ tuple_get gamma e ;;
      pe <~ tuple_get phi e ;;
      add_lines energy_axis z phi gamma (S e) rest
        (map2 Rplus model
              (DCM_lineshape energy_axis (ze * ge) pe energy ge))
  end.

Definition fit_lineshapes (alpha : R) (energy_axis params : list R)
  : result (list R) :=
  let model := map (fun _ => 0) energy_axis in
  let z := get_slice 0 params in
  let phi := get_slice 1 params in
  let gamma := get_slice 2 params in
  model <~ add_lines energy_axis z phi gamma 0 e_res model ;;
  let model :=
    map2 Rmult model (map (fun e => e * lineshape_constant alpha) energy_axis)
  in
  bg <~ tuple_last params ;;
  Ok (map (fun m => m + bg) model).

(** ** Fit setup  (lines 133-137) *)

(** A bound that may be [np.inf]. *)
Inductive xreal : Type :=
| Fin (x : R)
| PInf.

Definition xle (x : R) (b : xreal) : Prop :=
  match b with
  | Fin u => x <= u
  | PInf => True
  end.

Definition lower_bounds : list R :=
  list_mul [1e-6; - 2 * PI; 0.4 * gamma_xe1] 3 ++ [- 15].

Definition upper_bounds : list xreal :=
  list_mul [PInf; Fin (2 * PI); Fin (2.7 * gamma_xe1)] 3 ++ [Fin 20].

Definition bounds : list R * list xreal := (lower_bounds, upper_bounds).

Definition p_initial : list R := list_mul [1; 0; gamma_xe1] 3 ++ [0].

(** Feasibility as the bounded solver checks it for its starting point:
    every component lies between its two bounds. *)
Definition in_bounds (p : list R) (b : list R * list xreal) : Prop :=
  Forall2 Rle (fst b) p /\ Forall2 xle p (snd b).

(** The three slice assignments of lines 174-176 as one function of the
    array's contents. *)
Definition normalize (p : list R) : list R :=
  let p := set_slice 1 p (map wrap0 (get_slice 1 p)) in
  let p := set_slice 0 p (map Rabs (get_slice 0 p)) in
  set_slice 2 p (map Rabs (get_slice 2 p)).

(** The normalization as the specification words it, for a vector of three
    (strength, phase, width) triples and a background. *)
Definition normalize_spec (p : list R) : list R :=
  match p with
  | [z1; phi1; g1; z2; phi2; g2; z3; phi3; g3; bg] =>
      [Rabs z1; wrap0 phi1; Rabs g1;
       Rabs z2; wrap0 phi2; Rabs g2;
       Rabs z3; wrap0 phi3; Rabs g3; bg]
  | _ => p
  end.

(** ** Binary64 evaluation of [wrap]

    The same formula on IEEE-754 doubles, with round-to-nearest-even
    arithmetic taken from the standard library's [SpecFloat] and NumPy's
    remainder written out: C's exact [fmod], followed by the sign fix-up
    [mod += b], which rounds. *)
Module Binary64.

Definition prec : Z := 53.
Definition emax : Z := 1024.

Definition add : spec_float -> spec_float -> spec_float := SFadd prec emax.
Definition sub : spec_float -> spec_float -> spec_float := SFsub prec emax.
Definition mul : spec_float -> spec_float -> spec_float := SFmul prec emax.

Definition signed (s : bool) (m : Z) : Z := if s then (- m)%Z else m.

(** C's [fmod]: exact, with the sign of the dividend. *)
Definition fmod (x y : spec_float) : spec_float :=
  match x, y with
  | S754_finite sx mx ex, S754_finite _ my ey =>
      let e := Z.min ex ey in
      let a := (Zpos mx * 2 ^ (ex - e))%Z in
      let b := (Zpos my * 2 ^ (ey - e))%Z in
      binary_normalize prec emax (signed sx (Z.rem a b)) e sx
  | S754_zero _, S754_finite _ _ _ => x
  | S754_zero _, S754_infinity _ => x
  | S754_finite _ _ _, S754_infinity _ => x
  | _, _ => S754_nan
  end.

Definition negative (x : spec_float) : bool := SFltb x (S754_zero false).

Definition sign_of (x : spec_float) : bool :=
  match x with
  | S754_zero s | S754_infinity s | S754_finite s _ _ => s
  | S754_nan => false
  end.

(** NumPy's [%] on doubles. *)
Definition np_mod (a b : spec_float) : spec_float :=
  let m := fmod a b in
  match b, m with
  | S754_zero _, _ => m
  | _, S754_nan => m
  | _, S754_zero _ => S754_zero (sign_of b)
  | _, _ => if xorb (negative b) (negative m) then add m b else m
  end.

(** [np.pi] = 0x400921FB54442D18 *)
Definition pi : spec_float := S754_finite false 7074237752028440 (-51).
Definition two : spec_float := S754_finite false 4503599627370496 (-51).
Definition zero : spec_float := S754_zero false.

Definition wrap (phase offset : spec_float) : spec_float :=
  sub (sub (np_mod (add (add phase pi) offset) (mul two pi)) pi) offset.

Definition wrap0 (phase : spec_float) : spec_float := wrap phase zero.

(** The double just below [-np.pi], 0xC00921FB54442D19
    ([-3.1415926535897936]). *)
Definition below_minus_pi : spec_float :=
  S754_finite true 7074237752028441 (-51).

(** Whether [x] is a finite double: a zero, or a number whose mantissa and
    exponent are in the canonical form of the format. *)
Definition finite (x : spec_float) : bool :=
  match x with
  | S754_zero _ => true
  | S754_finite _ m e => bounded prec emax m e
  | _ => false
  end.

(** The value of a finite double, in units of [2^-1074] (the smallest
    positive double): every finite double is a whole number of units. *)
Definition units (x : spec_float) : Z :=
  match x with
  | S754_finite s m e => signed s (Zpos m * 2 ^ (e + 1074))
  | _ => 0%Z
  end.

(** The spacing, as a power of two units, of the doubles around a positive
    number [v] of units. *)
Definition grid (v : Z) : Z := Z.max (Z.log2 v + 1 - 53) 0%Z.

(** The double of sign [s] and magnitude [v] units, for [v] on its grid;
    from [2^2098] units ([2^1024]) on, the infinity. *)
Definition of_units (s : bool) (v : Z) : spec_float :=
  if (v <? 2 ^ 2098)%Z
  then S754_finite s (Z.to_pos (v / 2 ^ grid v)) (grid v - 1074)
  else S754_infinity s.

(** [r] is one of the two neighbours of [v] on the grid of [v], and the
    lower one when [v] is below the midpoint. *)
Definition near (v r : Z) : Prop :=
  let g := grid v in
  let q := (v / 2 ^ g)%Z in
  (r = q * 2 ^ g \/ r = (q + 1) * 2 ^ g)%Z
  /\ ((2 * (v mod 2 ^ g) < 2 ^ g)%Z -> r = (q * 2 ^ g)%Z).

(** [f] is a rounding of the non-zero number [v] of units. *)
Definition rounds_to (v : Z) (f : spec_float) : Prop :=
  v <> 0%Z
  /\ exists r, near (Z.abs v) r /\ f = of_units (v <? 0)%Z r.

(** IEEE equality of doubles. *)
Definition eqb (x y : spec_float) : bool := SFeqb x y.

End Binary64.

(** ** Interpreter state: the array store, the console, the solver calls
       and the output file *)

Definition ref : Set := nat.

Definition dataframe : Type := list (string * list R).

(** One invocation of [scipy.optimize.curve_fit] as the script sees it. *)
Record fit_call : Type := FitCall {
  fc_xdata : list R;
  fc_ydata : list R;
  fc_p0 : list R;
  fc_bounds : option (list R * list xreal);
  fc_out : result (list R * list (list R))
}.

(** [heap] holds the parameter arrays, which the script updates in place and
    reaches through several names; every other array is only read.  [fits]
    records the solver calls in order, [stdout] the progress lines, [op_csv]
    the contents of the output file. *)
Record world : Type := World {
  heap : list (list R);
  stdout : list (R * nat);
  fits : list fit_call;
  op_csv : option dataframe
}.

Definition M (A : Type) : Type := world -> world * result A.

Definition ret {A : Type} (a : A) : M A := fun w => (w, Ok a).

Definition lift {A : Type} (r : result A) : M A := fun w => (w, r).

Definition bind {A B : Type} (c : M A) (k : A -> M B) : M B :=
  fun w =>
    match c w with
    | (w', Ok a) => k a w'
    | (w', Raise e) => (w', Raise e)
    end.

Notation "x <- c ;; k" := (bind c (fun x => k))
  (at level 61, c at next level, right associativity).
Notation "c ;;; k" := (bind c (fun _ => k))
  (at level 61, right associativity).

Definition deref (h : list (list R)) (r : ref) : list R := nth r h [].

(** A new array object. *)
Definition new_array (a : list R) : M ref :=
  fun w =>
    (World (heap w ++ [a]) (stdout w) (fits w) (op_csv w),
     Ok (length (heap w))).

Definition read_array (r : ref) : M (list R) :=
  fun w => (w, Ok (deref (heap w) r)).

(** [a[start:-1:3] = f(a[start:-1:3])] on the array object [r]. *)
Definition slice_assign (r : ref) (start : nat) (f : R -> R) : M unit :=
  fun w =>
    let a := deref (heap w) r in
    (World (list_set (heap w) r (set_slice start a (map f (get_slice start a))))
           (stdout w) (fits w) (op_csv w),
     Ok tt).

Definition print (intensity : R) (s : nat) : M unit :=
  fun w =>
    (World (heap w) (stdout w ++ [(intensity, s)]) (fits w) (op_csv w), Ok tt).

(** [df.to_csv("op.csv", index=False)] *)
Definition to_csv (df : dataframe) : M unit :=
  fun w => (World (heap w) (stdout w) (fits w) (Some df), Ok tt).

(** [for i, x in enumerate(l)] with the loop-carried variables in [acc]. *)
Fixpoint for_enumerate {A St : Type} (body : St -> nat -> A -> M St)
         (i : nat) (l : list A) (acc : St) : M St :=
  match l with
  | [] => ret acc
  | x :: rest => acc' <- body acc i x ;; for_enumerate body (S i) rest acc'
  end.

Fixpoint mapR {A B : Type} (f : A -> result B) (l : list A)
  : result (list B) :=
  match l with
  | [] => Ok []
  | x :: rest => y <~ f x ;; ys <~ mapR f rest ;; Ok (y :: ys)
  end.

(** ** Result table  (lines 195-208) *)

Definition same_length {A : Type} (l : list (list A)) : bool :=
  match l with
  | [] => true
  | x :: rest => forallb (fun y => length y =? length x)%nat rest
  end.

(** [np.array] of a nested list: a regular array when the nesting is
    rectangular, [ValueError] otherwise. *)
Definition np_array3 (a : list (list (list R)))
  : result (list (list (list R))) :=
  if same_length a && same_length (concat a) then Ok a else Raise ValueError.

(** [opt_params[ii, ::-1, k]].  Without rows the array has fewer than three
    axes and the index is refused. *)
Definition index_rev (a : list (list (list R))) (ii k : nat)
  : result (list R) :=
  match nth_error a ii with
  | None => Raise IndexError
  | Some [] => Raise IndexError
  | Some ((v :: _) as rows) =>
      if (k <? length v)%nat
      then Ok (rev (map (fun row => getitem row k) rows))
      else Raise IndexError
  end.

Fixpoint assoc_set (df : dataframe) (label : string) (col : list R)
  : dataframe :=
  match df with
  | [] => [(label, col)]
  | (l, c) :: rest =>
      if String.eqb l label then (l, col) :: rest
      else (l, c) :: assoc_set rest label col
  end.

Fixpoint assoc_get (df : dataframe) (label : string) : option (list R) :=
  match df with
  | [] => None
  | (l, c) :: rest => if String.eqb l label then Some c else assoc_get rest label
  end.

(** [df[label] = col]: the first column fixes the number of rows. *)
Definition df_setitem (df : dataframe) (label : string) (col : list R)
  : result dataframe :=
  match df with
  | [] => Ok [(label, col)]
  | (_, c0) :: _ =>
      if (length col =? length c0)%nat then Ok (assoc_set df label col)
      else Raise ValueError
  end.

(** [str] of a small integer. *)
Definition str_int (n : nat) : string := NilEmpty.string_of_uint (Nat.to_uint n).

Inductive kind : Set := Strength | Phase | Width.

Definition kind_tag (k : kind) : string :=
  match k with
  | Strength => "_z0"
  | Phase => "_phi"
  | Width => "_gam"
  end.

(** ["T"+str(num+1)+tag+str(intens)], with [str(intens)] already taken. *)
Definition column_label (num : nat) (k : kind) (intens : string) : string :=
  ("T" ++ str_int (num + 1) ++ kind_tag k ++ intens)%string.

(** A fresh interpreter: no arrays, nothing printed, no output file. *)
Definition initial_world : world := World [] [] [] None.

(** ** A demo run of the deployed script

    Five scans of two time delays each (the last with a different delay
    axis), and a solver that answers every bounded fit with the same
    in-bounds vector, whose phases lie outside the principal range. *)
Module Demo.

(** One column of optical densities on the 1962-point energy axis. *)
Definition column : list R := repeat 0 1962.

Definition seed_popt : list R := [1; 0; 0.1; 1; 0; 0.1; 1; 0; 0.1; 0].

Definition popt : list R := [1; 4; 0.1; 2; 4; 0.2; 3; 4; 0.3; 0].

(** A 10 x 10 covariance matrix (the identity). *)
Definition pcov : list (list R) :=
  map (fun i => map (fun j => if (i =? j)%nat then 1 else 0) (seq 0 10))
      (seq 0 10).

Definition curve_fit (f : list R -> list R -> result (list R))
           (xdata ydata p0 : list R) (b : option (list R * list xreal))
  : result (list R * list (list R)) :=
  match b with
  | None => Ok (seed_popt, pcov)
  | Some _ => Ok (popt, pcov)
  end.

(** A solver that gives up on every bounded fit. *)
Definition failing_curve_fit (f : list R -> list R -> result (list R))
           (xdata ydata p0 : list R) (b : option (list R * list xreal))
  : result (list R * list (list R)) :=
  match b with
  | None => Ok (seed_popt, pcov)
  | Some _ => Raise RuntimeError
  end.

Definition read_csv (fname : string) : result (list (string * list R)) :=
  if String.eqb fname "int2.5.csv"
  then Ok [("9"%string, column); ("7"%string, column)]
  else Ok [("8"%string, column); ("6"%string, column)].

(** A data directory without the files. *)
Definition missing_csv (fname : string) : result (list (string * list R)) :=
  Raise FileNotFoundError.

Definition float (header : string) : result R :=
  if String.eqb header "8" then Ok 8
  else if String.eqb header "6" then Ok 6
  else if String.eqb header "9" then Ok 9
  else Ok 7.

(** [str] on the five intensities. *)
Definition str (x : R) : string :=
  if Rle_dec x 1.3 then "1.3"%string
  else if Rle_dec x 1.6 then "1.6"%string
  else if Rle_dec x 1.9 then "1.9"%string
  else if Rle_dec x 2.2 then "2.2"%string
  else "2.5"%string.

(** The fine-structure constant (CODATA 2018). *)
Definition alpha : R := 7.2973525693e-3.

End Demo.

(** ** The fit driver  (lines 67-68, 147-208) *)

Section Script.

(** scipy's fine-structure constant. *)
Variable alpha : R.

(** [scipy.optimize.curve_fit(f, xdata, ydata, p0, bounds)]: the fitted
    parameters and their covariance, or the exception it raises.  It does
    not modify [p0] and returns a new array. *)
Variable curve_fit :
  (list R -> list R -> result (list R)) ->
  list R -> list R -> list R -> option (list R * list xreal) ->
  result (list R * list (list R)).

(** [pd.read_csv(fname)]: the columns, each with its header. *)
Variable read_csv : string -> result (list (string * list R)).

(** Python's [float(x)] on a header and [str(x)] on a float. *)
Variable float : string -> result R.
Variable str : R -> string.

Definition call_curve_fit (xdata ydata p0 : list R)
           (b : option (list R * list xreal))
  : M (list R * list (list R)) :=
  fun w =>
    let out := curve_fit (fit_lineshapes alpha) xdata ydata p0 b in
    (World (heap w) (stdout w)
           (fits w ++ [FitCall xdata ydata p0 b out]) (op_csv w),
     out).

(** [getOD]  (lines 31-37) *)
Definition getOD (intensity : R) : result (list (list R) * list R) :=
  let fname := ("int" ++ str intensity ++ ".csv")%string in
  df <~ read_csv fname ;;
  time_delay_axis <~ mapR float (map fst df) ;;
  Ok (map snd df, time_delay_axis).

(** Loop-carried variables of the inner loop: [p_init], [params],
    [errors]. *)
Definition inner_vars : Type := (ref * list ref * list (list R))%type.

(** Body of the inner loop  (lines 171-187). *)
Definition inner_body (intensity : R) (roi : nat * nat)
           (photonenergy : list R)
           (vars : inner_vars) (s : nat) (spectrum : list R)
  : M inner_vars :=
  let '(p_init, params, errors) := vars in
  print intensity s ;;;
  slice_assign p_init 1 wrap0 ;;;
  slice_assign p_init 0 Rabs ;;;
  slice_assign p_init 2 Rabs ;;;
  p0 <- read_array p_init ;;
  fit <- call_curve_fit photonenergy (np_slice roi spectrum) p0
                        (Some bounds) ;;
  popt <- new_array (fst fit) ;;
  ret (popt, params ++ [popt],
       errors ++ [map (fun v => sqrt (Rabs v)) (np_diag (snd fit))]).

Definition inner_loop (intensity : R) (roi : nat * nat)
           (photonenergy : list R) (OD : list (list R)) (p_init : ref)
  : M inner_vars :=
  for_enumerate (inner_body intensity roi photonenergy) 0 OD
                (p_init, [], []).

(** Loop-carried variables of the outer loop: [optimum], [fit_errs] and
    [time_delay_axis], unbound before the first pass. *)
Definition outer_vars : Type :=
  (list (list ref) * list (list (list R)) * option (list R))%type.

(** Body of the outer loop  (lines 152-190). *)
Definition outer_body (roi : nat * nat) (photonenergy : list R)
           (vars : outer_vars) (i : nat) (intensity : R)
  : M outer_vars :=
  let '(optimum, fit_errs, _) := vars in
  scan <- lift (getOD intensity) ;;
  let OD := fst scan in
  let time_delay_axis := snd scan in
  let freq_marginal := np_mean_axis0 (firstn 7 OD) in
  seed <- call_curve_fit photonenergy (np_slice roi freq_marginal)
                         p_initial None ;;
  p_init <- new_array (fst seed) ;;
  fitted <- inner_loop intensity roi photonenergy OD p_init ;;
  let '(_, params, errors) := fitted in
  ret (optimum ++ [params], fit_errs ++ [errors], Some time_delay_axis).

(** The three columns of one resonance  (lines 201-206). *)
Definition fill_resonance (opt_params : list (list (list R)))
           (ii : nat) (intens : R) (df : dataframe) (num : nat)
  : result dataframe :=
  c <~ index_rev opt_params ii (3 * num) ;;
  df <~ df_setitem df (column_label num Strength (str intens)) c ;;
  c <~ index_rev opt_params ii (3 * num + 1) ;;
  df <~ df_setitem df (column_label num Phase (str intens)) c ;;
  c <~ index_rev opt_params ii (3 * num + 2) ;;
  df_setitem df (column_label num Width (str intens)) c.

Fixpoint fill_resonances (opt_params : list (list (list R)))
         (ii : nat) (intens : R) (nums : list nat) (df : dataframe)
  : result dataframe :=
  match nums with
  | [] => Ok df
  | num :: rest =>
      df <~ fill_resonance opt_params ii intens df num ;;
      fill_resonances opt_params ii intens rest df
  end.

(** [for ii, intens in enumerate(intensities): for num in range(3): ...] *)
Fixpoint fill_table (opt_params : list (list (list R)))
         (ii : nat) (intensities : list R) (df : dataframe)
  : result dataframe :=
  match intensities with
  | [] => Ok df
  | intens :: rest =>
      df <~ fill_resonances opt_params ii intens (seq 0 3) df ;;
      fill_table opt_params (S ii) rest df
  end.

(** Lines 195-206: the table built from the loop's variables and the
    array store as they stand after the loops. *)
Definition build_table (h : list (list R)) (vars : outer_vars)
           (intensities : list R) : result dataframe :=
  let '(optimum, fit_errs, time_delay_axis) := vars in
  opt_params <~ np_array3 (map (map (deref h)) optimum) ;;
  err_params <~ np_array3 fit_errs ;;
  time_delay_axis <~ match time_delay_axis with
                     | Some t => Ok t
                     | None => Raise NameError
                     end ;;
  df <~ df_setitem [] "time" (rev time_delay_axis) ;;
  fill_table opt_params 0 intensities df.

(** The script from line 67 on, for the energy axis and intensities that
    the providers of lines 27-40 deliver. *)
Definition script (energy_axis intensities : list R) : M unit :=
  roi <- lift (get_roi energy_axis default_erange) ;;
  let photonenergy := np_slice roi energy_axis in
  vars <- for_enumerate (outer_body roi photonenergy) 0 intensities
                        ([], [], None) ;;
  df <- (fun w => (w, build_table (heap w) vars intensities)) ;;
  to_csv df.

Definition main : M unit := script get_energy_axis get_intensities.

(** The solver calls of an inner loop that starts from the normalized
    guess [p0], written as a function of the spectra: each call, and after
    a successful one the calls that follow from its output. *)
Fixpoint chain (roi : nat * nat) (photonenergy : list R) (p0 : list R)
         (OD : list (list R)) : list fit_call :=
  match OD with
  | [] => []
  | spectrum :: rest =>
      let ydata := np_slice roi spectrum in
      let out :=
        curve_fit (fit_lineshapes alpha) photonenergy ydata p0 (Some bounds)
      in
      FitCall photonenergy ydata p0 (Some bounds) out
      :: match out with
         | Ok fit => chain roi photonenergy (normalize (fst fit)) rest
         | Raise _ => []
         end
  end.

(** The world after the first half of an inner-loop pass, up to and
    including the solver call. *)
Definition after_call (intensity : R) (s : nat) (p_init : ref)
           (call : fit_call) (w : world) : world :=
  World (list_set (heap w) p_init (normalize (deref (heap w) p_init)))
        (stdout w ++ [(intensity, s)])
        (fits w ++ [call])
        (op_csv w).

(** The script up to the table, before anything is written. *)
Definition prepare (energy_axis intensities : list R) : M dataframe :=
  roi <- lift (get_roi energy_axis default_erange) ;;
  let photonenergy := np_slice roi energy_axis in
  vars <- for_enumerate (outer_body roi photonenergy) 0 intensities
                        ([], [], None) ;;
  (fun w => (w, build_table (heap w) vars intensities)).

(** A computation is orderly when it leaves the output file alone, only
    appends to the record of solver calls, and ends with the exception of
    any call that failed. *)
Definition orderly {A : Type} (c : M A) : Prop :=
  forall w,
    op_csv (fst (c w)) = op_csv w
    /\ exists calls,
        fits (fst (c w)) = fits w ++ calls
        /\ forall call e,
            In call calls -> fc_out call = Raise e -> snd (c w) = Raise e.

(** The solver calls recorded since the world [w]. *)
Definition new_fits (w w' : world) : list fit_call :=
  skipn (length (fits w)) (fits w').

(** ** Auxiliary notions for the properties of Part II *)

(** What the normalization of lines 174-176 does to the component at index
    [i] of an array of length [n]: the last component is kept; before it,
    the components at indices 1, 4, 7, ... are wrapped and the others
    replaced by their absolute value. *)
Definition normalize_at (n i : nat) (x : R) : R :=
  if (i <? n - 1)%nat
  then match (i mod 3)%nat with
       | 1%nat => wrap0 x
       | _ => Rabs x
       end
  else x.

(** Whether index [i] belongs to the slice [s:-1:3] of a sequence of length
    [n]. *)
Definition in_slice (s n i : nat) : bool :=
  ((i <? n - 1) && (s <=? i) && ((i - s) mod 3 =? 0))%nat.

(** Whether a solver call returned. *)
Definition call_okb (c : fit_call) : bool :=
  match fc_out c with
  | Ok _ => true
  | Raise _ => false
  end.

(** What the arrays appended by an inner loop over [OD], started from the
    normalized guess [p0], hold when the loop has completed: row [k] is the
    output of the [k]-th bounded fit, normalized unless it is the last. *)
Definition stored_rows (roi : nat * nat) (photonenergy p0 : list R)
           (OD : list (list R)) : list (list R) :=
  map (fun kc =>
         match fc_out (snd kc) with
         | Ok fit =>
             if (S (fst kc) <? length OD)%nat then normalize (fst fit)
             else fst fit
         | Raise _ => []
         end)
      (combine (seq 0 (length OD)) (chain roi photonenergy p0 OD)).

(** The seed fit of one scan  (lines 158-161). *)
Definition seed_call (roi : nat * nat) (photonenergy : list R)
           (OD : list (list R)) : fit_call :=
  let ydata := np_slice roi (np_mean_axis0 (firstn 7 OD)) in
  FitCall photonenergy ydata p_initial None
          (curve_fit (fit_lineshapes alpha) photonenergy ydata p_initial None).

(** The solver calls that one pass of the outer loop makes for the
    intensity [x], as a function of that intensity's scan alone. *)
Definition scan_calls (roi : nat * nat) (photonenergy : list R) (x : R)
  : list fit_call :=
  match getOD x with
  | Raise _ => []
  | Ok scan =>
      let c := seed_call roi photonenergy (fst scan) in
      c :: match fc_out c with
           | Ok fit => chain roi photonenergy (normalize (fst fit)) (fst scan)
           | Raise _ => []
           end
  end.

(** Whether the pass for [x] completes: the scan loads and every fit
    returns. *)
Definition scan_completes (roi : nat * nat) (photonenergy : list R) (x : R)
  : bool :=
  match getOD x with
  | Raise _ => false
  | Ok _ => forallb call_okb (scan_calls roi photonenergy x)
  end.

(** The solver calls of the outer loop: those of each intensity in turn, up
    to and including the first whose pass does not complete. *)
Fixpoint run_calls (roi : nat * nat) (photonenergy : list R)
         (intensities : list R) : list fit_call :=
  match intensities with
  | [] => []
  | x :: rest =>
      scan_calls roi photonenergy x
      ++ (if scan_completes roi photonenergy x
          then run_calls roi photonenergy rest
          else [])
  end.

(** The rows that a completed pass for [x] leaves in the array store. *)
Definition scan_rows (roi : nat * nat) (photonenergy : list R) (x : R)
  : list (list R) :=
  match getOD x with
  | Raise _ => []
  | Ok scan =>
      match fc_out (seed_call roi photonenergy (fst scan)) with
      | Ok fit =>
          stored_rows roi photonenergy (normalize (fst fit)) (fst scan)
      | Raise _ => []
      end
  end.

(** Position of a parameter kind within its resonance's triple. *)
Definition kind_offset (k : kind) : nat :=
  match k with
  | Strength => 0
  | Phase => 1
  | Width => 2
  end.

(** A table with at least one column, all of whose columns have [n]
    entries. *)
Definition column_lengths (n : nat) (df : dataframe) : Prop :=
  df <> [] /\ Forall (fun lc => length (snd lc) = n) df.

(* ================================================================== *)
(** * Part II.  Properties                                             *)
(* ================================================================== *)

(** ** The phase wrap *)

Lemma np_mod_bounds (x y : R) : 0 < y -> 0 <= np_mod x y < y.
Proof.
  intros Hy. unfold np_mod.
  destruct (base_Int_part (x / y)) as [Hlo Hhi].
  set (k := IZR (Int_part (x / y))) in *.
  assert (Hx : x = y * (x / y)) by (field; lra).
  split.
  - assert (y * k <= y * (x / y)) by (apply Rmult_le_compat_l; lra). lra.
  - assert (y * (x / y) < y * (k + 1)) by (apply Rmult_lt_compat_l; lra). lra.
Qed.

Lemma quotient_between (x y a b : R) :
  0 < y -> a * y <= x < b * y -> a <= x / y < b.
Proof.
  intros Hy [Hlo Hhi].
  assert (Hx : x = (x / y) * y) by (field; lra).
  split.
  - apply (Rmult_le_reg_r y); lra.
  - apply (Rmult_lt_reg_r y); lra.
Qed.

Lemma np_mod_shift (x y : R) (k : Z) :
  0 < y -> 0 <= x - IZR k * y < y -> np_mod x y = x - IZR k * y.
Proof.
  intros Hy [Hlo Hhi]. unfold np_mod.
  assert (Hk : k = Int_part (x / y)).
  { apply Int_part_spec.
    destruct (quotient_between x y (IZR k) (IZR k + 1) Hy); lra. }
  rewrite <- Hk. lra.
Qed.

Lemma np_mod_small (x y : R) : 0 <= x < y -> np_mod x y = x.
Proof.
  intros [H0 Hy].
  rewrite (np_mod_shift x y 0%Z); lra.
Qed.

Lemma PI_gt_3 : 3 < PI.
Proof. pose proof PI2_3_2. lra. Qed.

Lemma wrap0_bounds (x : R) : - PI <= wrap0 x < PI.
Proof.
  unfold wrap0, wrap.
  pose proof PI_RGT_0.
  destruct (np_mod_bounds (x + PI + 0) (2 * PI)); lra.
Qed.

Lemma wrap0_fix (y : R) : - PI <= y < PI -> wrap0 y = y.
Proof.
  intros Hy. unfold wrap0, wrap.
  rewrite np_mod_small; lra.
Qed.

Lemma wrap0_PI : wrap0 PI = - PI.
Proof.
  unfold wrap0, wrap. pose proof PI_RGT_0.
  rewrite (np_mod_shift _ _ 1%Z); lra.
Qed.

(** C3, as stated, fails: [wrap] sends [pi] to [-pi], which lies outside
    the interval that is open at [-pi] and closed at [pi]. *)
Lemma wrap_range_counterexample :
  wrap0 PI = - PI /\ ~ (- PI < wrap0 PI <= PI).
Proof.
  split; [exact wrap0_PI |].
  rewrite wrap0_PI. lra.
Qed.

(** C3, amended: for every real [x], [wrap(x)] (default offset) lies in the
    closed interval from [-pi] to [pi]. *)
Theorem wrap_range (x : R) : - PI <= wrap0 x <= PI.
Proof.
  destruct (wrap0_bounds x). lra.
Qed.

(** C8, as stated, fails on doubles: at the double just below [-np.pi] the
    sum [x + np.pi] is [-2^-51], the sign fix-up of the remainder rounds
    [2*np.pi - 2^-51] to [2*np.pi], the first pass returns [np.pi] and the
    second [-np.pi]. *)
Lemma wrap_idempotent_counterexample :
  Binary64.wrap0 Binary64.below_minus_pi = Binary64.pi
  /\ Binary64.wrap0 (Binary64.wrap0 Binary64.below_minus_pi)
     = SFopp Binary64.pi
  /\ Binary64.wrap0 (Binary64.wrap0 Binary64.below_minus_pi)
     <> Binary64.wrap0 Binary64.below_minus_pi.
Proof.
  repeat split; try (vm_compute; reflexivity).
  vm_compute. discriminate.
Qed.

(** The same evaluation on doubles agrees with the real-number model at
    [np.pi]: the lower end of the range is attained. *)
Example wrap_binary64_pi : Binary64.wrap0 Binary64.pi = SFopp Binary64.pi.
Proof. vm_compute. reflexivity. Qed.

(** ** The DCM line shape *)

Lemma DCM_value_eq (e z phi resonance_energy gamma : R) :
  z * ((gamma / 2 * cos phi - (e - resonance_energy) * sin phi)
       / ((e - resonance_energy) ^ 2 + gamma ^ 2 / 4))
  = DCM_value_spec e z phi resonance_energy gamma.
Proof.
  unfold DCM_value_spec, Rdiv. ring.
Qed.

(** C5: [DCM_lineshape] is a total function of its five arguments alone and
    returns, at every energy point, the value of the specification's
    formula. *)
Theorem DCM_lineshape_formula (energy_axis : list R)
        (z phi resonance_energy gamma : R) :
  DCM_lineshape energy_axis z phi resonance_energy gamma
  = map (fun e => DCM_value_spec e z phi resonance_energy gamma) energy_axis.
Proof.
  unfold DCM_lineshape.
  apply map_ext. intros e. apply DCM_value_eq.
Qed.

(** ** The composite model *)

Lemma map2_map {A B C D : Type} (f : B -> C -> D) (g : A -> B) (h : A -> C)
      (l : list A) :
  map2 f (map g l) (map h l) = map (fun x => f (g x) (h x)) l.
Proof.
  induction l as [|x l IH]; simpl; [reflexivity | now rewrite IH].
Qed.

Lemma slices_of_ten (a0 a1 a2 a3 a4 a5 a6 a7 a8 a9 : R) :
  let a := [a0; a1; a2; a3; a4; a5; a6; a7; a8; a9] in
  get_slice 0 a = [a0; a3; a6]
  /\ get_slice 1 a = [a1; a4; a7]
  /\ get_slice 2 a = [a2; a5; a8].
Proof. repeat split. Qed.

(** C4: on a parameter vector of length 10, [fit_lineshapes] splits the
    vector by strides of three into strengths, phases and widths plus the
    trailing background, evaluates the line shape of each of the three
    resonance energies with strength [z_i * gamma_i], phase [phi_i] and
    width [gamma_i], sums the three, multiplies by the energy and the
    lineshape constant point by point, adds the background, and returns one
    value per energy point. *)
Theorem fit_lineshapes_composite (energy_axis : list R)
        (z1 phi1 g1 z2 phi2 g2 z3 phi3 g3 bg : R) :
  let params := [z1; phi1; g1; z2; phi2; g2; z3; phi3; g3; bg] in
  get_slice 0 params = [z1; z2; z3]
  /\ get_slice 1 params = [phi1; phi2; phi3]
  /\ get_slice 2 params = [g1; g2; g3]
  /\ tuple_last params = Ok bg
  /\ exists model,
      fit_lineshapes alpha energy_axis params = Ok model
      /\ model
         = map (fun e =>
                  (DCM_value_spec e (z1 * g1) phi1 55.38 g1
                   + DCM_value_spec e (z2 * g2) phi2 55.98 g2
                   + DCM_value_spec e (z3 * g3) phi3 57.27 g3)
                  * (e * lineshape_constant alpha) + bg)
               energy_axis
      /\ length model = length energy_axis.
Proof.
  intros params. subst params.
  destruct (slices_of_ten z1 phi1 g1 z2 phi2 g2 z3 phi3 g3 bg)
    as (Hz & Hphi & Hg).
  repeat (split; [first [exact Hz | exact Hphi | exact Hg | reflexivity] |]).
  eexists. split; [| split; [reflexivity | apply length_map]].
  unfold fit_lineshapes. rewrite Hz, Hphi, Hg.
  unfold e_res, add_lines, tuple_get, bindR, nth_error, tuple_last.
  unfold DCM_lineshape. rewrite !map2_map.
  cbn [last bindR]. rewrite map_map. f_equal.
  apply map_ext. intros e. rewrite !DCM_value_eq. ring.
Qed.

(** ** Normalization of the initial guess and the fit bounds *)

Lemma normalize_ten (p : list R) :
  length p = 10%nat -> normalize p = normalize_spec p.
Proof.
  intros H.
  do 10 (destruct p as [|? p]; [discriminate H |]).
  destruct p; [reflexivity | discriminate H].
Qed.

Lemma Forall2_length_eq {A B : Type} (P : A -> B -> Prop) (l : list A)
      (l' : list B) :
  Forall2 P l l' -> length l = length l'.
Proof.
  induction 1; simpl; congruence.
Qed.

Lemma in_bounds_length (p : list R) : in_bounds p bounds -> length p = 10%nat.
Proof.
  intros [H _]. apply Forall2_length_eq in H. symmetry. exact H.
Qed.

Ltac invert_Forall2 :=
  repeat match goal with
         | H : Forall2 _ (_ :: _) _ |- _ => inversion H; subst; clear H
         | H : Forall2 _ _ (_ :: _) |- _ => inversion H; subst; clear H
         | H : Forall2 _ [] _ |- _ => inversion H; subst; clear H
         end.

Ltac Forall2_pointwise :=
  repeat first [apply Forall2_nil | apply Forall2_cons].

(** C9: a vector within the fit bounds is still within them after the
    normalization of lines 174-176, so the warm start handed to the next
    bounded fit is feasible.  (Vectors within the bounds have length 10.) *)
Theorem normalize_preserves_bounds (p : list R) :
  in_bounds p bounds -> in_bounds (normalize p) bounds.
Proof.
  intros Hin.
  rewrite (normalize_ten p (in_bounds_length p Hin)).
  destruct Hin as [Hlo Hup].
  cbv [bounds fst snd lower_bounds upper_bounds list_mul repeat concat app]
    in Hlo, Hup.
  invert_Forall2.
  cbv [xle gamma_xe1 normalize_spec] in *.
  pose proof PI_RGT_0 as Hpi.
  repeat match goal with
         | |- context [wrap0 ?x] =>
             lazymatch goal with
             | _ : - PI <= wrap0 x < PI |- _ => fail
             | _ => pose proof (wrap0_bounds x)
             end
         end.
  repeat match goal with
         | H : 1e-6 <= ?x |- _ =>
             rewrite (Rabs_pos_eq x) by lra; revert H
         | H : 0.4 * 0.122 <= ?x |- _ =>
             rewrite (Rabs_pos_eq x) by lra; revert H
         end.
  intros.
  split;
    cbv [bounds fst snd lower_bounds upper_bounds list_mul repeat concat app];
    Forall2_pointwise; cbv [xle gamma_xe1]; lra.
Qed.

Lemma p_initial_in_bounds : in_bounds p_initial bounds.
Proof.
  pose proof PI_RGT_0.
  split;
    cbv [bounds fst snd lower_bounds upper_bounds p_initial list_mul repeat
         concat app];
    Forall2_pointwise; cbv [xle gamma_xe1]; lra.
Defined.

Lemma normalize_preserves_bounds_witness :
  in_bounds p_initial bounds /\ in_bounds (normalize p_initial) bounds.
Proof.
  split.
  - exact p_initial_in_bounds.
  - apply (normalize_preserves_bounds p_initial). exact p_initial_in_bounds.
Defined.

(** ** Region of interest *)

Lemma scan_gt_Some (threshold : R) (l : list R) :
  forall i k,
    scan_gt threshold i l = Some k ->
    (i <= k)%nat
    /\ (k - i < length l)%nat
    /\ threshold < nth (k - i) l 0
    /\ forall j, (j < k - i)%nat -> nth j l 0 <= threshold.
Proof.
  induction l as [|e l IH]; intros i k H; simpl in H; [discriminate |].
  destruct (Rgt_dec e threshold) as [Hgt | Hle].
  - injection H as <-. rewrite Nat.sub_diag. simpl.
    repeat split; [lia | lia | lra | intros j Hj; lia].
  - destruct (IH _ _ H) as (Hik & Hlen & Hk & Hbefore).
    replace (k - i)%nat with (S (k - S i)) by lia. simpl.
    repeat split; [lia | lia | exact Hk |].
    intros [|j] Hj; [lra | apply Hbefore; lia].
Qed.

Lemma scan_gt_finds (threshold : R) (l : list R) :
  (exists e, In e l /\ e > threshold) ->
  forall i, exists k, scan_gt threshold i l = Some k.
Proof.
  intros (e & Hin & Hgt).
  induction l as [|x l IH]; intros i; [destruct Hin |].
  simpl. destruct (Rgt_dec x threshold) as [Hx | Hx]; [eauto |].
  destruct Hin as [-> | Hin]; [contradiction | apply IH; exact Hin].
Qed.

Lemma scan_gt_None (threshold : R) (l : list R) :
  forall i, scan_gt threshold i l = None ->
            forall e, In e l -> e <= threshold.
Proof.
  induction l as [|x l IH]; intros i H e Hin; [destruct Hin |].
  simpl in H. destruct (Rgt_dec x threshold) as [Hx | Hx]; [discriminate |].
  destruct Hin as [<- | Hin]; [lra | eapply IH; eauto].
Qed.

(** C2, as stated, fails: on the one-point axis [60] both scans stop at
    index 0, so the pair returned has [first = last]. *)
Lemma get_roi_counterexample :
  get_roi [60] (55.15, 57.45) = Ok (0%nat, 0%nat)
  /\ ~ (exists first last,
           get_roi [60] (55.15, 57.45) = Ok (first, last)
           /\ (0 <= first < last)%nat /\ (last <= length [60])%nat).
Proof.
  assert (H : get_roi [60] (55.15, 57.45) = Ok (0%nat, 0%nat)).
  { unfold get_roi, scan_gt, fst, snd.
    destruct (Rgt_dec 60 55.15); [| lra].
    destruct (Rgt_dec 60 57.45); [reflexivity | lra]. }
  split; [exact H |].
  intros (first & last & Hroi & Hlt & _).
  rewrite H in Hroi. injection Hroi as <- <-. lia.
Qed.

(** With no energy above a threshold the scan binds nothing and the
    [return] raises. *)
Lemma get_roi_unbound (energy_axis : list R) (erange : R * R) :
  (forall e, In e energy_axis -> e <= snd erange) ->
  get_roi energy_axis erange = Raise UnboundLocalError.
Proof.
  intros Hall. unfold get_roi.
  destruct (scan_gt (snd erange) 0 energy_axis) as [last|] eqn:E.
  - destruct (scan_gt_Some _ _ _ _ E) as (_ & Hlen & Hgt & _).
    specialize (Hall _ (nth_In energy_axis 0 Hlen)). lra.
  - destruct (scan_gt (fst erange) 0 energy_axis); reflexivity.
Qed.

(** C2, amended: when some energy of the axis exceeds the upper threshold
    and [lower < upper], [get_roi] returns [(first, last)] with
    [0 <= first <= last < length]; [first] is the first index whose energy
    strictly exceeds [lower] (every earlier energy is at most [lower]) and
    [last] the first whose energy strictly exceeds [upper]; and
    [first < last] whenever the energy at [first] does not exceed
    [upper]. *)
Theorem get_roi_indices (energy_axis : list R) (lower upper : R) :
  lower < upper ->
  (exists e, In e energy_axis /\ e > upper) ->
  exists first last,
    get_roi energy_axis (lower, upper) = Ok (first, last)
    /\ (0 <= first <= last)%nat /\ (last < length energy_axis)%nat
    /\ (forall i, (i < first)%nat -> nth i energy_axis 0 <= lower)
    /\ lower < nth first energy_axis 0
    /\ (forall i, (i < last)%nat -> nth i energy_axis 0 <= upper)
    /\ upper < nth last energy_axis 0
    /\ (nth first energy_axis 0 <= upper -> (first < last)%nat).
Proof.
  intros Hlu (e & Hin & He).
  destruct (scan_gt_finds upper energy_axis (ex_intro _ e (conj Hin He)) 0%nat)
    as [last Hlast].
  assert (Hlow : exists e', In e' energy_axis /\ e' > lower)
    by (exists e; split; [exact Hin | lra]).
  destruct (scan_gt_finds lower energy_axis Hlow 0%nat) as [first Hfirst].
  exists first, last. unfold get_roi, fst, snd. rewrite Hfirst, Hlast.
  destruct (scan_gt_Some _ _ _ _ Hfirst) as (_ & Hf1 & Hf2 & Hf3).
  destruct (scan_gt_Some _ _ _ _ Hlast) as (_ & Hl1 & Hl2 & Hl3).
  rewrite Nat.sub_0_r in *.
  assert (Hle : (first <= last)%nat).
  { destruct (le_lt_dec first last) as [|Hlt]; [assumption |].
    specialize (Hf3 _ Hlt). lra. }
  repeat split; try assumption; try lia.
  intros Hfu.
  destruct (Nat.eq_dec first last) as [-> |]; [lra | lia].
Qed.

Lemma get_roi_indices_witness :
  55.15 < 57.45
  /\ (exists e, In e [55; 56; 58] /\ e > 57.45)
  /\ exists first last,
      get_roi [55; 56; 58] (55.15, 57.45) = Ok (first, last)
      /\ (0 <= first <= last)%nat /\ (last < length [55; 56; 58])%nat
      /\ (forall i, (i < first)%nat -> nth i [55; 56; 58] 0 <= 55.15)
      /\ 55.15 < nth first [55; 56; 58] 0
      /\ (forall i, (i < last)%nat -> nth i [55; 56; 58] 0 <= 57.45)
      /\ 57.45 < nth last [55; 56; 58] 0
      /\ (nth first [55; 56; 58] 0 <= 57.45 -> (first < last)%nat).
Proof.
  assert (H1 : 55.15 < 57.45) by lra.
  assert (H2 : exists e, In e [55; 56; 58] /\ e > 57.45)
    by (exists 58; split; [simpl; auto | lra]).
  split; [exact H1 |]. split; [exact H2 |].
  exact (get_roi_indices [55; 56; 58] 55.15 57.45 H1 H2).
Defined.

(** ** The array store *)

Lemma length_list_set {A : Type} (l : list A) (i : nat) (v : A) :
  length (list_set l i v) = length l.
Proof.
  revert i. induction l as [|x l IH]; intros [|i]; simpl; auto.
Qed.

Lemma nth_list_set_same {A : Type} (l : list A) (i : nat) (v d : A) :
  (i < length l)%nat -> nth i (list_set l i v) d = v.
Proof.
  revert i. induction l as [|x l IH]; intros [|i] H; simpl in *;
    try lia; auto. apply IH. lia.
Qed.

Lemma nth_list_set_other {A : Type} (l : list A) (i j : nat) (v d : A) :
  i <> j -> nth j (list_set l i v) d = nth j l d.
Proof.
  revert i j. induction l as [|x l IH]; intros [|i] [|j] H; simpl;
    try congruence; auto.
Qed.

Lemma list_set_twice {A : Type} (l : list A) (i : nat) (v v' : A) :
  list_set (list_set l i v) i v' = list_set l i v'.
Proof.
  revert i. induction l as [|x l IH]; intros [|i]; simpl; auto.
  now rewrite IH.
Qed.

Lemma list_set_beyond {A : Type} (l : list A) (i : nat) (v : A) :
  (length l <= i)%nat -> list_set l i v = l.
Proof.
  revert i. induction l as [|x l IH]; intros [|i] H; simpl in *;
    try lia; auto. rewrite IH; [reflexivity | lia].
Qed.

Lemma deref_fresh (h : list (list R)) (a : list R) :
  deref (h ++ [a]) (length h) = a.
Proof.
  unfold deref. rewrite app_nth2, Nat.sub_diag; [reflexivity | lia].
Qed.

Lemma deref_older (h : list (list R)) (a : list R) (r : ref) :
  (r < length h)%nat -> deref (h ++ [a]) r = deref h r.
Proof.
  intros H. unfold deref. now rewrite app_nth1.
Qed.

Lemma deref_beyond (h : list (list R)) (r : ref) :
  (length h <= r)%nat -> deref h r = [].
Proof.
  intros H. unfold deref. now apply nth_overflow.
Qed.

Lemma deref_list_set (h : list (list R)) (r : ref) (a : list R) :
  (r < length h)%nat -> deref (list_set h r a) r = a.
Proof.
  intros H. unfold deref. now apply nth_list_set_same.
Qed.

(** The three slice assignments on the array [r] amount to one in-place
    [normalize]; what is read back afterwards is the normalized array. *)
Lemma normalize_in_place {A : Type} (r : ref) (k : list R -> M A) (w : world) :
  (slice_assign r 1 wrap0 ;;;
   slice_assign r 0 Rabs ;;;
   slice_assign r 2 Rabs ;;;
   p0 <- read_array r ;; k p0) w
  = k (normalize (deref (heap w) r))
      (World (list_set (heap w) r (normalize (deref (heap w) r)))
             (stdout w) (fits w) (op_csv w)).
Proof.
  unfold bind, slice_assign, read_array. cbn [heap stdout fits op_csv].
  destruct (le_lt_dec (length (heap w)) r) as [Hout | Hin].
  - rewrite !list_set_beyond by (rewrite ?length_list_set; exact Hout).
    rewrite (deref_beyond _ _ Hout). reflexivity.
  - rewrite !list_set_twice.
    repeat rewrite deref_list_set by (rewrite ?length_list_set; exact Hin).
    reflexivity.
Qed.

(** ** The inner loop: one solver call per spectrum, each started from the
       normalized output of the one before *)

Lemma inner_body_eq (intensity : R) (roi : nat * nat) (photonenergy : list R)
      (p_init : ref) (params : list ref) (errors : list (list R))
      (s : nat) (spectrum : list R) (w : world) :
  let p0 := normalize (deref (heap w) p_init) in
  let ydata := np_slice roi spectrum in
  let out :=
    curve_fit (fit_lineshapes alpha) photonenergy ydata p0 (Some bounds) in
  let w1 :=
    after_call intensity s p_init
               (FitCall photonenergy ydata p0 (Some bounds) out) w in
  inner_body intensity roi photonenergy (p_init, params, errors) s spectrum w
  = match out with
    | Ok fit =>
        (World (heap w1 ++ [fst fit]) (stdout w1) (fits w1) (op_csv w1),
         Ok (length (heap w1), params ++ [length (heap w1)],
             errors ++ [map (fun v => sqrt (Rabs v)) (np_diag (snd fit))]))
    | Raise e => (w1, Raise e)
    end.
Proof.
  intros p0 ydata out w1.
  unfold inner_body. unfold bind at 1. unfold print at 1.
  rewrite normalize_in_place. cbn [heap stdout fits op_csv].
  unfold bind, call_curve_fit. cbn [heap stdout fits op_csv].
  fold p0 ydata out.
  destruct out as [fit | e]; reflexivity.
Qed.
Lemma inner_loop_fits (intensity : R) (roi : nat * nat)
      (photonenergy : list R) (OD : list (list R)) :
  forall (i : nat) (p_init : ref) (params : list ref)
         (errors : list (list R)) (w : world),
    fits (fst (for_enumerate (inner_body intensity roi photonenergy) i OD
                             (p_init, params, errors) w))
    = fits w ++ chain roi photonenergy (normalize (deref (heap w) p_init)) OD.
Proof.
  induction OD as [|spectrum rest IH]; intros i p_init params errors w.
  - simpl. now rewrite app_nil_r.
  - cbn [for_enumerate chain]. unfold bind at 1. rewrite inner_body_eq.
    destruct (curve_fit _ _ _ _ _) as [fit | e].
    + rewrite IH. cbn [heap fits after_call].
      rewrite deref_fresh, <- app_assoc. reflexivity.
    + reflexivity.
Qed.

Lemma new_fits_app (w w' : world) (calls : list fit_call) :
  fits w' = fits w ++ calls -> new_fits w w' = calls.
Proof.
  intros H. unfold new_fits. rewrite H.
  rewrite skipn_app, skipn_all, Nat.sub_diag. reflexivity.
Qed.

Lemma chain_head (roi : nat * nat) (photonenergy p0 : list R)
      (OD : list (list R)) (c : fit_call) :
  nth_error (chain roi photonenergy p0 OD) 0 = Some c ->
  fc_p0 c = p0 /\ fc_bounds c = Some bounds
  /\ fc_ydata c = np_slice roi (nth 0 OD []).
Proof.
  destruct OD as [|spectrum rest]; simpl; intros H; [discriminate |].
  injection H as <-. auto.
Qed.

Lemma chain_adjacent (roi : nat * nat) (photonenergy : list R)
      (OD : list (list R)) :
  forall (p0 : list R) (s : nat) (c_prev c : fit_call),
    nth_error (chain roi photonenergy p0 OD) s = Some c_prev ->
    nth_error (chain roi photonenergy p0 OD) (S s) = Some c ->
    exists popt pcov,
      fc_out c_prev = Ok (popt, pcov)
      /\ fc_p0 c = normalize popt
      /\ fc_bounds c = Some bounds
      /\ fc_ydata c = np_slice roi (nth (S s) OD []).
Proof.
  induction OD as [|spectrum rest IH]; intros p0 s c_prev c Hprev Hc;
    [destruct s; discriminate |].
  cbn [chain] in Hprev, Hc.
  destruct (curve_fit _ _ _ _ _) as [[popt pcov] | e] eqn:Hout;
    cbn [nth_error] in Hc; [| destruct s; discriminate].
  destruct s as [|s].
  - injection Hprev as <-. cbn [fc_out].
    exists popt, pcov. split; [reflexivity |].
    apply chain_head in Hc. exact Hc.
  - cbn [nth_error] in Hprev.
    apply (IH _ _ _ _ Hprev Hc).
Qed.

(** C1: in every pass of the inner loop after the first, the bounded fit is
    started from the output of the fit just before it after normalization:
    phases (indices 1, 4, 7) wrapped, strengths (0, 3, 6) and widths
    (2, 5, 8) replaced by their absolute values, background unchanged.
    Pass [S s] is the call at position [S s] among those the loop makes. *)
Theorem warm_start_is_normalized_previous_fit
        (intensity : R) (roi : nat * nat) (photonenergy : list R)
        (OD : list (list R)) (p_init : ref) (w : world)
        (s : nat) (c_prev c : fit_call) :
  let w' := fst (inner_loop intensity roi photonenergy OD p_init w) in
  nth_error (new_fits w w') s = Some c_prev ->
  nth_error (new_fits w w') (S s) = Some c ->
  exists popt pcov,
    fc_out c_prev = Ok (popt, pcov)
    /\ fc_bounds c = Some bounds
    /\ fc_ydata c = np_slice roi (nth (S s) OD [])
    /\ fc_p0 c = normalize popt
    /\ (length popt = 10%nat -> fc_p0 c = normalize_spec popt).
Proof.
  intros w'. subst w'. unfold inner_loop.
  rewrite (new_fits_app _ _ _ (inner_loop_fits _ _ _ _ _ _ _ _ _)).
  intros Hprev Hc.
  destruct (chain_adjacent _ _ _ _ _ _ _ Hprev Hc)
    as (popt & pcov & Hout & Hp0 & Hb & Hy).
  exists popt, pcov. repeat split; try assumption.
  intros Hlen. rewrite Hp0. now apply normalize_ten.
Qed.

(** ** Effects of the driver: the output file and the record of calls *)

Lemma bind_Ok {A B : Type} (c : M A) (k : A -> M B) (w w' : world) (b : B) :
  bind c k w = (w', Ok b) ->
  exists w1 a, c w = (w1, Ok a) /\ k a w1 = (w', Ok b).
Proof.
  unfold bind. destruct (c w) as [w1 [a | e]]; intros H; [eauto | discriminate].
Qed.

Lemma orderly_ret {A : Type} (a : A) : orderly (ret a).
Proof.
  intros w. split; [reflexivity |]. exists []. simpl.
  split; [now rewrite app_nil_r | contradiction].
Qed.

Lemma orderly_pure {A : Type} (f : world -> result A) :
  orderly (fun w => (w, f w)).
Proof.
  intros w. split; [reflexivity |]. exists []. simpl.
  split; [now rewrite app_nil_r | contradiction].
Qed.

Lemma orderly_bind {A B : Type} (c : M A) (k : A -> M B) :
  orderly c -> (forall a, orderly (k a)) -> orderly (bind c k).
Proof.
  intros Hc Hk w. unfold bind.
  destruct (Hc w) as (Hcsv & calls & Hfits & Hraise).
  destruct (c w) as [w1 [a | e]]; cbn [fst snd] in *.
  - destruct (Hk a w1) as (Hcsv' & calls' & Hfits' & Hraise').
    split; [congruence |].
    exists (calls ++ calls').
    split; [rewrite Hfits', Hfits; apply eq_sym, app_assoc |].
    intros call e Hin Hout. apply in_app_or in Hin as [Hin | Hin].
    + specialize (Hraise _ _ Hin Hout). discriminate.
    + eauto.
  - split; [exact Hcsv |]. exists calls. split; [exact Hfits |].
    intros call e' Hin Hout.
    specialize (Hraise _ _ Hin Hout). congruence.
Qed.

Lemma orderly_silent {A : Type} (c : M A) :
  (forall w, op_csv (fst (c w)) = op_csv w /\ fits (fst (c w)) = fits w) ->
  orderly c.
Proof.
  intros H w. destruct (H w) as [Hcsv Hfits].
  split; [exact Hcsv |]. exists [].
  split; [now rewrite app_nil_r | contradiction].
Qed.

Lemma orderly_call (xdata ydata p0 : list R)
      (b : option (list R * list xreal)) :
  orderly (call_curve_fit xdata ydata p0 b).
Proof.
  intros w. split; [reflexivity |].
  eexists. split; [reflexivity |].
  intros call e [<- | []] Hout. exact Hout.
Qed.

Lemma orderly_for {A St : Type} (body : St -> nat -> A -> M St) :
  (forall acc i x, orderly (body acc i x)) ->
  forall l i acc, orderly (for_enumerate body i l acc).
Proof.
  intros Hbody. induction l as [|x l IH]; intros i acc; simpl.
  - apply orderly_ret.
  - apply orderly_bind; [apply Hbody | intros acc'; apply IH].
Qed.

Ltac orderly_steps :=
  repeat first
         [ apply orderly_bind; [| intros ?]
         | apply orderly_ret
         | apply orderly_call
         | apply orderly_pure
         | apply orderly_silent; intros ?; split; reflexivity ].

Lemma orderly_inner_body (intensity : R) (roi : nat * nat)
      (photonenergy : list R) (vars : inner_vars) (s : nat)
      (spectrum : list R) :
  orderly (inner_body intensity roi photonenergy vars s spectrum).
Proof.
  destruct vars as [[p_init params] errors]. unfold inner_body.
  orderly_steps.
Qed.

Lemma orderly_outer_body (roi : nat * nat) (photonenergy : list R)
      (vars : outer_vars) (i : nat) (intensity : R) :
  orderly (outer_body roi photonenergy vars i intensity).
Proof.
  destruct vars as [[optimum fit_errs] tda]. unfold outer_body, lift.
  apply orderly_bind; [apply orderly_pure | intros scan].
  apply orderly_bind; [apply orderly_call | intros seed].
  apply orderly_bind; [orderly_steps | intros p_init].
  apply orderly_bind.
  - apply orderly_for. intros; apply orderly_inner_body.
  - intros [[? params] errors]. apply orderly_ret.
Qed.

Lemma orderly_prepare (energy_axis intensities : list R) :
  orderly (prepare energy_axis intensities).
Proof.
  unfold prepare, lift.
  apply orderly_bind; [apply orderly_pure | intros roi].
  apply orderly_bind; [| intros vars; apply orderly_pure].
  apply orderly_for. intros; apply orderly_outer_body.
Qed.

(** The script is its preparation followed by the single write. *)
Lemma script_eq (energy_axis intensities : list R) (w : world) :
  script energy_axis intensities w
  = bind (prepare energy_axis intensities) to_csv w.
Proof.
  unfold script, prepare, bind, lift.
  destruct (get_roi energy_axis default_erange) as [roi | e]; [| reflexivity].
  destruct (for_enumerate _ _ _ _ w) as [w1 [vars | e]]; [| reflexivity].
  reflexivity.
Qed.

Lemma script_cases (energy_axis intensities : list R) (w : world) :
  let pre := prepare energy_axis intensities w in
  script energy_axis intensities w
  = match snd pre with
    | Ok df =>
        (World (heap (fst pre)) (stdout (fst pre)) (fits (fst pre)) (Some df),
         Ok tt)
    | Raise e => (fst pre, Raise e)
    end.
Proof.
  intros pre. rewrite script_eq. unfold bind. fold pre.
  destruct pre as [w1 [df | e]]; reflexivity.
Qed.

(** Whatever exception ends the run, the output file is as it was. *)
Lemma script_raise_no_write (energy_axis intensities : list R) (w : world)
      (e : exn) :
  snd (script energy_axis intensities w) = Raise e ->
  op_csv (fst (script energy_axis intensities w)) = op_csv w.
Proof.
  rewrite script_cases.
  destruct (orderly_prepare energy_axis intensities w) as [Hcsv _].
  destruct (snd (prepare energy_axis intensities w)); cbn [fst snd];
    [discriminate | intros _; exact Hcsv].
Qed.

(** A loop that completes has loaded every scan. *)
Lemma outer_loop_loaded (roi : nat * nat) (photonenergy : list R)
      (intensities : list R) :
  forall i acc w w' vars,
    for_enumerate (outer_body roi photonenergy) i intensities acc w
    = (w', Ok vars) ->
    forall x, In x intensities -> exists scan, getOD x = Ok scan.
Proof.
  induction intensities as [|y l IH]; intros i acc w w' vars H x Hin;
    [destruct Hin |].
  cbn [for_enumerate] in H.
  apply bind_Ok in H as (w1 & acc' & Hbody & Hrest).
  destruct Hin as [<- | Hin]; [| eapply IH; eauto].
  destruct acc as [[optimum fit_errs] tda].
  unfold outer_body, lift in Hbody.
  apply bind_Ok in Hbody as (w2 & scan & Hscan & _).
  injection Hscan as _ Hscan. eauto.
Qed.

Lemma script_fits (energy_axis intensities : list R) (w : world) :
  fits (fst (script energy_axis intensities w))
  = fits (fst (prepare energy_axis intensities w)).
Proof.
  rewrite script_cases.
  destruct (snd (prepare energy_axis intensities w)); reflexivity.
Qed.

Lemma script_raise_iff (energy_axis intensities : list R) (w : world)
      (e : exn) :
  snd (prepare energy_axis intensities w) = Raise e ->
  snd (script energy_axis intensities w) = Raise e.
Proof.
  intros H. rewrite script_cases, H. reflexivity.
Qed.

(** A solver call that fails ends the run with the solver's own exception:
    nothing between the call and the top level handles it. *)
Lemma failed_fit_propagates (energy_axis intensities : list R) (w : world)
      (call : fit_call) (e : exn) :
  In call (new_fits w (fst (script energy_axis intensities w))) ->
  fc_out call = Raise e ->
  snd (script energy_axis intensities w) = Raise e.
Proof.
  intros Hin Hout.
  destruct (orderly_prepare energy_axis intensities w)
    as (_ & calls & Hfits & Hraise).
  unfold new_fits in Hin. rewrite script_fits in Hin.
  fold (new_fits w (fst (prepare energy_axis intensities w))) in Hin.
  rewrite (new_fits_app _ _ _ Hfits) in Hin.
  apply script_raise_iff. eauto.
Qed.

Lemma failed_roi_propagates (energy_axis intensities : list R) (w : world)
      (e : exn) :
  get_roi energy_axis default_erange = Raise e ->
  script energy_axis intensities w = (w, Raise e).
Proof.
  intros H. unfold script, bind, lift. rewrite H. reflexivity.
Qed.

Lemma failed_load_aborts (energy_axis intensities : list R) (w : world)
      (x : R) (e : exn) :
  In x intensities -> getOD x = Raise e ->
  exists e', snd (script energy_axis intensities w) = Raise e'.
Proof.
  intros Hin Hload. rewrite script_cases.
  destruct (prepare energy_axis intensities w) as [w1 [df | e']] eqn:Hpre;
    cbn [fst snd]; [| eauto].
  exfalso. unfold prepare, lift in Hpre.
  apply bind_Ok in Hpre as (w2 & roi & _ & Hpre).
  apply bind_Ok in Hpre as (w3 & vars & Hloop & _).
  destruct (outer_loop_loaded _ _ _ _ _ _ _ _ Hloop x Hin) as [scan Hscan].
  congruence.
Qed.

(** C7: when the ROI computation, the load of a spectrum or any solver call
    of the run fails, the run ends with an exception and the output file is
    what it was before the run: nothing of the fits already made is
    written. *)
Theorem failure_aborts_run (energy_axis intensities : list R) (w : world) :
  let run := script energy_axis intensities w in
  (exists e, get_roi energy_axis default_erange = Raise e)
  \/ (exists x e, In x intensities /\ getOD x = Raise e)
  \/ (exists call e,
         In call (new_fits w (fst run)) /\ fc_out call = Raise e) ->
  (exists e, snd run = Raise e) /\ op_csv (fst run) = op_csv w.
Proof.
  intros run Hfail.
  assert (Hraise : exists e, snd run = Raise e).
  { destruct Hfail as [[e Hroi] | [(x & e & Hin & Hload) | (c & e & Hin & Hc)]].
    - exists e. unfold run.
      now rewrite (failed_roi_propagates _ _ _ _ Hroi).
    - exact (failed_load_aborts _ _ w _ _ Hin Hload).
    - exists e. exact (failed_fit_propagates _ _ _ _ _ Hin Hc). }
  split; [exact Hraise |].
  destruct Hraise as [e He]. exact (script_raise_no_write _ _ _ _ He).
Qed.

(** ** The result table *)

Lemma outer_body_Ok (roi : nat * nat) (photonenergy : list R)
      (vars vars' : outer_vars) (i : nat) (intensity : R) (w w' : world) :
  outer_body roi photonenergy vars i intensity w = (w', Ok vars') ->
  exists scan, getOD intensity = Ok scan /\ snd vars' = Some (snd scan).
Proof.
  destruct vars as [[optimum fit_errs] tda]. unfold outer_body, lift.
  intros H.
  apply bind_Ok in H as (w1 & scan & Hscan & H).
  injection Hscan as _ Hscan.
  apply bind_Ok in H as (w2 & seed & _ & H).
  apply bind_Ok in H as (w3 & p_init & _ & H).
  apply bind_Ok in H as (w4 & [[p params] errors] & _ & H).
  injection H as _ <-. eauto.
Qed.

(** After the outer loop [time_delay_axis] is the axis of the last scan
    loaded. *)
Lemma outer_loop_last_axis (roi : nat * nat) (photonenergy : list R)
      (earlier : list R) (last_intensity : R) :
  forall i acc w w' vars,
    for_enumerate (outer_body roi photonenergy) i
                  (earlier ++ [last_intensity]) acc w
    = (w', Ok vars) ->
    exists scan,
      getOD last_intensity = Ok scan /\ snd vars = Some (snd scan).
Proof.
  induction earlier as [|x l IH]; intros i acc w w' vars H;
    cbn [app for_enumerate] in H;
    apply bind_Ok in H as (w1 & acc' & Hbody & Hrest).
  - injection Hrest as _ <-. eapply outer_body_Ok; eauto.
  - eapply IH; eauto.
Qed.

Lemma assoc_get_assoc_set_other (df : dataframe) (l l' : string)
      (c : list R) :
  String.eqb l' l = false ->
  assoc_get (assoc_set df l' c) l = assoc_get df l.
Proof.
  intros Hneq. induction df as [|[k v] df IH]; simpl.
  - now rewrite Hneq.
  - destruct (String.eqb k l') eqn:Hk; simpl.
    + apply String.eqb_eq in Hk. subst k. now rewrite Hneq.
    + now rewrite IH.
Qed.

Lemma df_setitem_other (df df' : dataframe) (l l' : string) (c : list R) :
  String.eqb l' l = false ->
  df_setitem df l' c = Ok df' ->
  assoc_get df' l = assoc_get df l.
Proof.
  intros Hneq. unfold df_setitem.
  destruct df as [|[k v] df].
  - intros H. injection H as <-. simpl. now rewrite Hneq.
  - destruct (_ =? _)%nat; [| discriminate].
    intros H. injection H as <-.
    exact (assoc_get_assoc_set_other ((k, v) :: df) l l' c Hneq).
Qed.

Lemma column_label_not_time (num : nat) (k : kind) (intens : string) :
  String.eqb (column_label num k intens) "time" = false.
Proof. reflexivity. Qed.

Lemma bindR_Ok {A B : Type} (c : result A) (k : A -> result B) (b : B) :
  bindR c k = Ok b -> exists a, c = Ok a /\ k a = Ok b.
Proof.
  destruct c as [a | e]; simpl; intros H; [eauto | discriminate].
Qed.

Lemma fill_resonance_time (opt_params : list (list (list R))) (ii : nat)
      (intens : R) (df df' : dataframe) (num : nat) :
  fill_resonance opt_params ii intens df num = Ok df' ->
  assoc_get df' "time" = assoc_get df "time".
Proof.
  unfold fill_resonance. intros H.
  apply bindR_Ok in H as (c1 & _ & H).
  apply bindR_Ok in H as (df1 & H1 & H).
  apply bindR_Ok in H as (c2 & _ & H).
  apply bindR_Ok in H as (df2 & H2 & H).
  apply bindR_Ok in H as (c3 & _ & H3).
  rewrite (df_setitem_other _ _ _ _ _ (column_label_not_time _ _ _) H3).
  rewrite (df_setitem_other _ _ _ _ _ (column_label_not_time _ _ _) H2).
  exact (df_setitem_other _ _ _ _ _ (column_label_not_time _ _ _) H1).
Qed.

Lemma fill_resonances_time (opt_params : list (list (list R))) (ii : nat)
      (intens : R) (nums : list nat) :
  forall df df',
    fill_resonances opt_params ii intens nums df = Ok df' ->
    assoc_get df' "time" = assoc_get df "time".
Proof.
  induction nums as [|num nums IH]; intros df df' H; simpl in H.
  - now injection H as <-.
  - apply bindR_Ok in H as (df1 & H1 & H).
    rewrite (IH _ _ H). eapply fill_resonance_time; eauto.
Qed.

Lemma fill_table_time (opt_params : list (list (list R)))
      (intensities : list R) :
  forall ii df df',
    fill_table opt_params ii intensities df = Ok df' ->
    assoc_get df' "time" = assoc_get df "time".
Proof.
  induction intensities as [|x l IH]; intros ii df df' H; cbn [fill_table] in H.
  - now injection H as <-.
  - apply bindR_Ok in H as (df1 & H1 & H).
    rewrite (IH _ _ _ H). eapply fill_resonances_time; eauto.
Qed.

Lemma build_table_time (h : list (list R)) (optimum : list (list ref))
      (fit_errs : list (list (list R))) (tda : option (list R))
      (intensities : list R) (df : dataframe) :
  build_table h (optimum, fit_errs, tda) intensities = Ok df ->
  exists t, tda = Some t /\ assoc_get df "time" = Some (rev t).
Proof.
  unfold build_table. intros H.
  apply bindR_Ok in H as (opt_params & _ & H).
  apply bindR_Ok in H as (err_params & _ & H).
  apply bindR_Ok in H as (t & Ht & H).
  apply bindR_Ok in H as (df0 & Hdf0 & H).
  destruct tda as [t' |]; [| discriminate]. injection Ht as ->.
  exists t. split; [reflexivity |].
  rewrite (fill_table_time _ _ _ _ _ H).
  injection Hdf0 as <-. reflexivity.
Qed.

(** The [time] column of the table written is the reversed time-delay
    axis of the last intensity processed, whatever axes the scans of the
    earlier intensities carried. *)
Lemma script_time_column
      (energy_axis earlier : list R) (last_intensity : R) (w w' : world) :
  script energy_axis (earlier ++ [last_intensity]) w = (w', Ok tt) ->
  exists OD time_delay_axis df,
    getOD last_intensity = Ok (OD, time_delay_axis)
    /\ op_csv w' = Some df
    /\ assoc_get df "time" = Some (rev time_delay_axis).
Proof.
  intros H. unfold script, lift in H.
  apply bind_Ok in H as (w1 & roi & _ & H).
  apply bind_Ok in H as (w2 & [[optimum fit_errs] tda] & Hloop & H).
  apply bind_Ok in H as (w3 & df & Hdf & H).
  injection Hdf as <- Hdf.
  destruct (outer_loop_last_axis _ _ _ _ _ _ _ _ _ Hloop)
    as ([OD t] & Hscan & Htda).
  cbn [snd] in Htda. subst tda.
  destruct (build_table_time (heap w2) optimum fit_errs (Some t)
                             (earlier ++ [last_intensity]) df Hdf)
    as (t' & Ht & Htime).
  injection Ht as <-.
  exists OD, t, df. repeat split; try assumption.
  unfold to_csv in H. injection H as <-. reflexivity.
Qed.

(** ** What the inner loop leaves in the array store

    A completed inner loop has allocated one array per spectrum row and
    listed them in [params].  The array of every pass but the last holds the
    fit's output normalized, because the next pass normalized it in place
    through [p_init]; the array of the last pass holds the output as
    returned.  Arrays older than the loop are untouched, except the seed
    array the loop started from. *)
Lemma inner_loop_store (intensity : R) (roi : nat * nat)
      (photonenergy : list R) (OD : list (list R)) :
  forall (i : nat) (p_init : ref) (params : list ref)
         (errors : list (list R)) (w w' : world) (vars : inner_vars),
    (p_init < length (heap w))%nat ->
    for_enumerate (inner_body intensity roi photonenergy) i OD
                  (p_init, params, errors) w
    = (w', Ok vars) ->
    length (heap w') = (length (heap w) + length OD)%nat
    /\ snd (fst vars) = params ++ seq (length (heap w)) (length OD)
    /\ (forall r, (r < length (heap w))%nat -> r <> p_init ->
                  deref (heap w') r = deref (heap w) r)
    /\ (OD = [] -> heap w' = heap w)
    /\ (OD <> [] ->
        deref (heap w') p_init = normalize (deref (heap w) p_init))
    /\ forall k call,
        nth_error
          (chain roi photonenergy (normalize (deref (heap w) p_init)) OD) k
        = Some call ->
        exists popt pcov,
          fc_out call = Ok (popt, pcov)
          /\ deref (heap w') (length (heap w) + k)%nat
             = if (S k <? length OD)%nat then normalize popt else popt.
Proof.
  induction OD as [|spectrum rest IH];
    intros i p_init params errors w w' vars Hp H.
  - cbn in H. injection H as <- <-. cbn [length fst snd seq].
    rewrite Nat.add_0_r, app_nil_r.
    repeat split; try congruence.
    intros [|k] call Hk; discriminate.
  - cbn [for_enumerate] in H.
    apply bind_Ok in H as (w1 & [[p1 params1] errors1] & Hbody & Hrest).
    rewrite inner_body_eq in Hbody. cbn [chain].
    destruct (curve_fit _ _ _ _ _) as [[popt pcov] | e]; [| discriminate].
    injection Hbody as <- <- <- <-.
    cbn [after_call heap fst] in Hrest.
    set (h1 := list_set (heap w) p_init (normalize (deref (heap w) p_init)))
      in *.
    assert (Hlen1 : length h1 = length (heap w))
      by (unfold h1; apply length_list_set).
    apply IH in Hrest; cbn [heap] in *;
      [| rewrite length_app; simpl; lia].
    rewrite deref_fresh, length_app, Hlen1 in Hrest. cbn [length] in *.
    destruct Hrest as (Hlen & Hparams & Hold & Hempty & Hseed & Hnew).
    assert (Hp1 : deref (h1 ++ [popt]) p_init
                  = normalize (deref (heap w) p_init)).
    { rewrite deref_older by lia. unfold h1. now apply deref_list_set. }
    split; [lia |].
    split.
    { rewrite Hparams, <- app_assoc. cbn [app seq].
      now rewrite Nat.add_1_r. }
    split.
    { intros r Hr Hne. rewrite Hold by lia.
      rewrite deref_older by lia.
      unfold h1, deref. now rewrite nth_list_set_other by congruence. }
    split; [discriminate |].
    split.
    { intros _. rewrite Hold by lia. exact Hp1. }
    intros [|k] call Hk; cbn [nth_error] in Hk.
    + injection Hk as <-. cbn [fc_out]. exists popt, pcov.
      split; [reflexivity |].
      rewrite Nat.add_0_r.
      destruct rest as [|spectrum' rest].
      * rewrite (Hempty eq_refl), <- Hlen1. apply deref_fresh.
      * rewrite Hseed by discriminate. reflexivity.
    + destruct (Hnew _ _ Hk) as (popt' & pcov' & Hout & Hstored).
      exists popt', pcov'. split; [exact Hout |].
      replace (length (heap w) + S k)%nat with (length (heap w) + 1 + k)%nat
        by lia.
      rewrite Hstored. reflexivity.
Qed.

(** ** Order of the rows and absence of the uncertainties

    Whatever the arrays hold when the table is built, a column takes them in
    reversed row order, and the standard errors only have to form a regular
    array: their values never reach the table. *)
Lemma index_rev_row (a : list (list (list R))) (ii k : nat) (col : list R) :
  index_rev a ii k = Ok col ->
  length col = length (nth ii a [])
  /\ forall r, (r < length col)%nat ->
               nth r col 0
               = getitem (nth (length col - 1 - r) (nth ii a []) []) k.
Proof.
  unfold index_rev. destruct (nth_error a ii) as [rows |] eqn:Hii;
    [| discriminate].
  rewrite (nth_error_nth _ _ _ Hii).
  destruct rows as [|v rows]; [discriminate |].
  destruct (k <? length v)%nat; [| discriminate].
  intros H.
  assert (Hcol : col = rev (map (fun row => getitem row k) (v :: rows)))
    by (injection H as <-; reflexivity).
  clear H. subst col.
  rewrite length_rev, length_map. split; [reflexivity |].
  intros r Hr. rewrite rev_nth by (rewrite length_map; exact Hr).
  rewrite length_map.
  replace (length (v :: rows) - S r)%nat
    with (length (v :: rows) - 1 - r)%nat by lia.
  set (j := (length (v :: rows) - 1 - r)%nat).
  assert (H0 : getitem [] k = 0) by (destruct k; reflexivity).
  transitivity (nth j (map (fun row => getitem row k) (v :: rows))
                    ((fun row => getitem row k) []));
    [f_equal; symmetry; exact H0
    | exact (map_nth (fun row => getitem row k) (v :: rows) [] j)].
Qed.

Lemma table_ignores_uncertainties (h : list (list R))
      (optimum : list (list ref)) (fit_errs fit_errs' : list (list (list R)))
      (tda : option (list R)) (intensities : list R) (df : dataframe) :
  build_table h (optimum, fit_errs, tda) intensities = Ok df ->
  np_array3 fit_errs' = Ok fit_errs' ->
  build_table h (optimum, fit_errs', tda) intensities = Ok df.
Proof.
  unfold build_table. intros H Herr.
  apply bindR_Ok in H as (opt_params & Hopt & H).
  apply bindR_Ok in H as (err_params & _ & H).
  rewrite Hopt, Herr. exact H.
Qed.

(* ================================================================== *)
(** * Part II, continued.  Further properties of the functions         *)
(* ================================================================== *)

(** ** [wrap] with an offset  (line 77) *)

Lemma np_mod_unique (x y r : R) (k : Z) :
  0 < y -> 0 <= r < y -> r = x - IZR k * y -> np_mod x y = r.
Proof.
  intros Hy Hr ->. apply np_mod_shift; assumption.
Qed.

Lemma wrap_offset_bounds (phase offset : R) :
  - PI - offset <= wrap phase offset < PI - offset.
Proof.
  unfold wrap. pose proof PI_RGT_0 as Hpi.
  destruct (np_mod_bounds (phase + PI + offset) (2 * PI)); lra.
Qed.

Lemma wrap_congruent (phase offset : R) :
  exists k : Z, wrap phase offset = phase - 2 * PI * IZR k.
Proof.
  exists (Int_part ((phase + PI + offset) / (2 * PI))).
  unfold wrap, np_mod. ring.
Qed.

Lemma wrap_offset_unique (phase offset y : R) (k : Z) :
  - PI - offset <= y < PI - offset ->
  y = phase - 2 * PI * IZR k ->
  wrap phase offset = y.
Proof.
  intros Hy Heq. unfold wrap. pose proof PI_RGT_0 as Hpi.
  rewrite (np_mod_unique (phase + PI + offset) (2 * PI) (y + PI + offset) k);
    lra.
Qed.

(** For any offset, [wrap(phase, offset)] is the one value in
    [[-pi - offset, pi - offset)] that differs from [phase] by a whole
    number of turns. *)
Theorem wrap_offset_principal_value (phase offset : R) :
  - PI - offset <= wrap phase offset < PI - offset
  /\ (exists k : Z, wrap phase offset = phase - 2 * PI * IZR k)
  /\ forall (y : R) (k : Z),
      - PI - offset <= y < PI - offset ->
      y = phase - 2 * PI * IZR k ->
      y = wrap phase offset.
Proof.
  split; [apply wrap_offset_bounds |].
  split; [apply wrap_congruent |].
  intros y k Hy Heq. symmetry. exact (wrap_offset_unique _ _ _ _ Hy Heq).
Qed.

(** [wrap] has period [2*pi] in the phase, for any offset. *)
Theorem wrap_periodic (phase offset : R) (n : Z) :
  wrap (phase + 2 * PI * IZR n) offset = wrap phase offset.
Proof.
  destruct (wrap_congruent phase offset) as [k Hk].
  apply (wrap_offset_unique _ _ _ (k + n)%Z); [apply wrap_offset_bounds |].
  rewrite Hk, plus_IZR. ring.
Qed.

Lemma cos_sin_shift_nat (x : R) (n : nat) :
  cos (x + 2 * PI * INR n) = cos x /\ sin (x + 2 * PI * INR n) = sin x.
Proof.
  replace (x + 2 * PI * INR n) with (x + 2 * INR n * PI) by ring.
  split; [apply cos_period | apply sin_period].
Qed.

Lemma cos_sin_shift (x : R) (k : Z) :
  cos (x - 2 * PI * IZR k) = cos x /\ sin (x - 2 * PI * IZR k) = sin x.
Proof.
  destruct (Z_le_gt_dec 0 k) as [Hk | Hk].
  - destruct (cos_sin_shift_nat (x - 2 * PI * IZR k) (Z.to_nat k)) as [Hc Hs].
    rewrite INR_IZR_INZ, Z2Nat.id in Hc, Hs by exact Hk.
    replace (x - 2 * PI * IZR k + 2 * PI * IZR k) with x in Hc, Hs by ring.
    split; congruence.
  - destruct (cos_sin_shift_nat x (Z.to_nat (- k))) as [Hc Hs].
    rewrite INR_IZR_INZ, Z2Nat.id, opp_IZR in Hc, Hs by lia.
    replace (x + 2 * PI * - IZR k) with (x - 2 * PI * IZR k) in Hc, Hs by ring.
    split; assumption.
Qed.

(** ** The DCM line shape  (lines 81-99) *)

Lemma nth_map_lt {A B : Type} (f : A -> B) (l : list A) (i : nat) (d : B)
      (d' : A) :
  (i < length l)%nat -> nth i (map f l) d = f (nth i l d').
Proof.
  revert i. induction l as [|x l IH]; intros [|i] H; simpl in *;
    try lia; auto. apply IH. lia.
Qed.

Lemma DCM_value_wrap (e z phi offset resonance_energy gamma : R) :
  DCM_value_spec e z (wrap phi offset) resonance_energy gamma
  = DCM_value_spec e z phi resonance_energy gamma.
Proof.
  destruct (wrap_congruent phi offset) as [k Hk].
  destruct (cos_sin_shift phi k) as [Hc Hs].
  unfold DCM_value_spec. rewrite Hk, Hc, Hs. reflexivity.
Qed.

(** Wrapping the phase, with any offset, does not change the line shape. *)
Theorem DCM_lineshape_wrap_invariant (energy_axis : list R)
        (z phi offset resonance_energy gamma : R) :
  DCM_lineshape energy_axis z (wrap phi offset) resonance_energy gamma
  = DCM_lineshape energy_axis z phi resonance_energy gamma.
Proof.
  unfold DCM_lineshape. apply map_ext. intros e.
  rewrite !DCM_value_eq. apply DCM_value_wrap.
Qed.

(** The line shape has one value per energy point and is linear in the
    strength [z]. *)
Theorem DCM_lineshape_linear (energy_axis : list R)
        (a b z1 z2 phi resonance_energy gamma : R) :
  length (DCM_lineshape energy_axis z1 phi resonance_energy gamma)
  = length energy_axis
  /\ DCM_lineshape energy_axis (a * z1 + b * z2) phi resonance_energy gamma
     = map2 (fun u v => a * u + b * v)
            (DCM_lineshape energy_axis z1 phi resonance_energy gamma)
            (DCM_lineshape energy_axis z2 phi resonance_energy gamma).
Proof.
  unfold DCM_lineshape. split; [apply length_map |].
  rewrite map2_map. apply map_ext. intros e. ring.
Qed.



(** ** Strided slices *)

Lemma slice_len_spec (s m e : nat) :
  (e < slice_len s m 3)%nat <-> (s + 3 * e < m)%nat.
Proof.
  unfold slice_len. cbn [Nat.sub].
  pose proof (Nat.div_mod_eq (m - s + 2) 3).
  pose proof (Nat.mod_upper_bound (m - s + 2) 3 ltac:(lia)).
  lia.
Qed.

Lemma nth_error_arange (s step c e : nat) :
  (e < c)%nat -> nth_error (arange s step c) e = Some (s + step * e)%nat.
Proof.
  revert s e. induction c as [|c IH]; intros s [|e] H; try lia.
  - cbn. f_equal. lia.
  - cbn [arange nth_error]. rewrite IH by lia. f_equal. lia.
Qed.

Lemma length_arange (s step c : nat) : length (arange s step c) = c.
Proof.
  revert s. induction c as [|c IH]; intros s; simpl; [reflexivity |].
  now rewrite IH.
Qed.

Lemma In_arange (s step c i : nat) :
  In i (arange s step c) <-> exists e, (e < c)%nat /\ i = (s + step * e)%nat.
Proof.
  revert s. induction c as [|c IH]; intros s; simpl.
  - split; [contradiction | intros (e & He & _); lia].
  - rewrite IH. split.
    + intros [<- | (e & He & ->)].
      * exists 0%nat. split; lia.
      * exists (S e). split; lia.
    + intros ([|e] & He & ->).
      * left. lia.
      * right. exists e. split; lia.
Qed.

Lemma tuple_get_slice (s e : nat) (params : list R) :
  (s + 3 * e < length params - 1)%nat ->
  tuple_get (get_slice s params) e = Ok (getitem params (s + 3 * e)).
Proof.
  intros H. unfold tuple_get, get_slice, slice_to_last.
  rewrite nth_error_map, nth_error_arange by (apply slice_len_spec; exact H).
  reflexivity.
Qed.

Lemma tuple_get_slice_short (s e : nat) (params : list R) :
  (length params - 1 <= s + 3 * e)%nat ->
  tuple_get (get_slice s params) e = Raise IndexError.
Proof.
  intros H. unfold tuple_get, get_slice, slice_to_last.
  destruct (nth_error _ e) eqn:E; [| reflexivity].
  assert (Hlt : (e < length (map (getitem params)
                                 (arange s 3 (slice_len s (length params - 1) 3))))%nat)
    by (apply nth_error_Some; congruence).
  rewrite length_map, length_arange in Hlt.
  apply slice_len_spec in Hlt. lia.
Qed.

Lemma tuple_get_raises (t : list R) (i : nat) (e : exn) :
  tuple_get t i = Raise e -> e = IndexError.
Proof.
  unfold tuple_get. destruct (nth_error t i); congruence.
Qed.

Lemma last_as_nth (l : list R) : last l 0 = nth (length l - 1) l 0.
Proof.
  induction l as [|x [|y l] IH]; try reflexivity.
  change (last (x :: y :: l) 0) with (last (y :: l) 0).
  rewrite IH. cbn [length Nat.sub]. now rewrite Nat.sub_0_r.
Qed.

(** ** The composite model on vectors of any length  (lines 101-127) *)

(** The model for a parameter vector of any length from 10 on: only the
    first nine parameters and the last one are read. *)
Lemma fit_lineshapes_long (energy_axis params : list R) :
  (10 <= length params)%nat ->
  let p := getitem params in
  fit_lineshapes alpha energy_axis params
  = Ok (map (fun e =>
               (DCM_value_spec e (p 0%nat * p 2%nat) (p 1%nat) 55.38 (p 2%nat)
                + DCM_value_spec e (p 3%nat * p 5%nat) (p 4%nat) 55.98
                                 (p 5%nat)
                + DCM_value_spec e (p 6%nat * p 8%nat) (p 7%nat) 57.27
                                 (p 8%nat))
               * (e * lineshape_constant alpha) + last params 0)
            energy_axis).
Proof.
  intros Hlen p. unfold fit_lineshapes, e_res. cbn [add_lines].
  rewrite (tuple_get_slice 0 0), (tuple_get_slice 2 0), (tuple_get_slice 1 0),
    (tuple_get_slice 0 1), (tuple_get_slice 2 1), (tuple_get_slice 1 1),
    (tuple_get_slice 0 2), (tuple_get_slice 2 2), (tuple_get_slice 1 2)
    by lia.
  cbn [bindR Nat.add Nat.mul].
  assert (Hlast : tuple_last params = Ok (last params 0))
    by (destruct params; [simpl in Hlen; lia | reflexivity]).
  rewrite Hlast. cbn [bindR].
  unfold DCM_lineshape. rewrite !map2_map, map_map. f_equal.
  apply map_ext. intros e. rewrite !DCM_value_eq. fold p. ring.
Qed.

Lemma fit_lineshapes_short (energy_axis params : list R) :
  (length params < 10)%nat ->
  fit_lineshapes alpha energy_axis params = Raise IndexError.
Proof.
  intros Hlen. unfold fit_lineshapes, e_res. cbn [add_lines].
  rewrite (tuple_get_slice_short 2 2) by lia.
  repeat match goal with
         | |- context [bindR (tuple_get ?t ?i) _] =>
             let E := fresh "E" in
             destruct (tuple_get t i) eqn:E;
             [| apply tuple_get_raises in E; subst; reflexivity ];
             cbn [bindR]
         end.
  reflexivity.
Qed.

(** [fit_lineshapes] returns a model, of the length of the energy axis,
    exactly for parameter vectors of at least 10 entries; on shorter ones an
    index into the strided slices fails with [IndexError]. *)
Theorem fit_lineshapes_succeeds_iff (energy_axis params : list R) :
  ((exists model,
       fit_lineshapes alpha energy_axis params = Ok model
       /\ length model = length energy_axis)
   <-> (10 <= length params)%nat)
  /\ (fit_lineshapes alpha energy_axis params = Raise IndexError
      <-> (length params < 10)%nat).
Proof.
  destruct (le_lt_dec 10 (length params)) as [Hlong | Hshort].
  - pose proof (fit_lineshapes_long energy_axis params Hlong) as H.
    cbv zeta in H. split; split; intros H'; try lia.
    + eexists. split; [exact H | apply length_map].
    + rewrite H in H'. discriminate.
  - pose proof (fit_lineshapes_short energy_axis params Hshort) as H.
    split; split; intros H'; try lia; try exact H.
    destruct H' as (model & H' & _). rewrite H in H'. discriminate.
Qed.

(** On a vector longer than 10 the entries between the ninth and the last
    are never read: the model is that of the first nine and the last. *)
Theorem fit_lineshapes_ignores_middle (energy_axis : list R)
        (z1 phi1 g1 z2 phi2 g2 z3 phi3 g3 bg : R) (middle : list R) :
  fit_lineshapes alpha energy_axis
                 ([z1; phi1; g1; z2; phi2; g2; z3; phi3; g3] ++ middle ++ [bg])
  = fit_lineshapes alpha energy_axis
                   [z1; phi1; g1; z2; phi2; g2; z3; phi3; g3; bg].
Proof.
  rewrite !fit_lineshapes_long
    by (rewrite ?length_app; cbn [length]; lia).
  cbv zeta. cbn [app getitem nth].
  replace (z1 :: phi1 :: g1 :: z2 :: phi2 :: g2 :: z3 :: phi3 :: g3
              :: middle ++ [bg])
    with ([z1; phi1; g1; z2; phi2; g2; z3; phi3; g3] ++ middle ++ [bg])
    by reflexivity.
  rewrite !app_assoc, last_last. reflexivity.
Qed.


(** ** The normalization on arrays of any length  (lines 174-176) *)

Lemma In_slice_to_last (s n i : nat) :
  In i (slice_to_last s n) <-> in_slice s n i = true.
Proof.
  unfold slice_to_last, in_slice. rewrite In_arange.
  rewrite !andb_true_iff, Nat.ltb_lt, Nat.leb_le, Nat.eqb_eq.
  split.
  - intros (e & He & ->). apply slice_len_spec in He.
    repeat split; try lia.
    replace (s + 3 * e - s)%nat with (e * 3)%nat by lia.
    apply Nat.Div0.mod_mul.
  - intros [[Hlt Hle] Hmod].
    exists ((i - s) / 3)%nat.
    pose proof (Nat.div_mod_eq (i - s) 3) as Hdm.
    split; [apply slice_len_spec |]; lia.
Qed.

Lemma in_slice_mod (s n i : nat) :
  (s < 3)%nat -> in_slice s n i = ((i <? n - 1) && (i mod 3 =? s))%nat.
Proof.
  intros Hs. unfold in_slice. rewrite <- andb_assoc. f_equal.
  pose proof (Nat.mod_upper_bound i 3 ltac:(lia)) as Hm.
  pose proof (Nat.div_mod_eq i 3) as Hdm.
  pose proof (Nat.mod_upper_bound (i - s) 3 ltac:(lia)) as Hm'.
  pose proof (Nat.div_mod_eq (i - s) 3) as Hdm'.
  destruct (s <=? i)%nat eqn:Hle;
    destruct ((i - s) mod 3 =? 0)%nat eqn:E;
    destruct (i mod 3 =? s)%nat eqn:E'; try reflexivity; exfalso;
    rewrite ?Nat.leb_le, ?Nat.leb_gt, ?Nat.eqb_eq, ?Nat.eqb_neq in *; lia.
Qed.

Lemma fold_set_length (ivs : list (nat * R)) :
  forall acc : list R,
    length (fold_left (fun acc iv => list_set acc (fst iv) (snd iv)) ivs acc)
    = length acc.
Proof.
  induction ivs as [|iv ivs IH]; intros acc; simpl; [reflexivity |].
  now rewrite IH, length_list_set.
Qed.

Lemma fold_set_nth (G : nat -> R) (idxs : list nat) :
  forall (acc : list R) (i : nat),
    (forall j, In j idxs -> (j < length acc)%nat) ->
    nth i (fold_left (fun acc iv => list_set acc (fst iv) (snd iv))
                     (combine idxs (map G idxs)) acc) 0
    = if in_dec Nat.eq_dec i idxs then G i else nth i acc 0.
Proof.
  induction idxs as [|j idxs IH]; intros acc i Hvalid; [reflexivity |].
  cbn [map combine fold_left fst snd].
  rewrite IH by (intros k Hk; rewrite length_list_set; apply Hvalid; now right).
  destruct (in_dec Nat.eq_dec i idxs) as [Hin | Hnin];
    destruct (in_dec Nat.eq_dec i (j :: idxs)) as [Hin' | Hnin'];
    try reflexivity.
  - exfalso. apply Hnin'. now right.
  - destruct Hin' as [<- | Hin']; [| contradiction].
    apply nth_list_set_same. apply Hvalid. now left.
  - apply nth_list_set_other. intros <-. apply Hnin'. now left.
Qed.

Lemma set_slice_length (s : nat) (a vals : list R) :
  length (set_slice s a vals) = length a.
Proof. unfold set_slice. apply fold_set_length. Qed.

(** A slice assignment [a[s:-1:3] = g(a[s:-1:3])] changes the entries of
    the slice, each to [g] of its old value, and no other. *)
Lemma set_slice_nth (s : nat) (g : R -> R) (a : list R) (i : nat) :
  nth i (set_slice s a (map g (get_slice s a))) 0
  = if in_slice s (length a) i then g (nth i a 0) else nth i a 0.
Proof.
  unfold set_slice, get_slice. rewrite map_map.
  rewrite (fold_set_nth (fun j => g (getitem a j))).
  - destruct (in_dec Nat.eq_dec i (slice_to_last s (length a))) as [H | H];
      destruct (in_slice s (length a) i) eqn:E; try reflexivity.
    + apply In_slice_to_last in H. congruence.
    + apply In_slice_to_last in E. contradiction.
  - intros j Hj. apply In_slice_to_last in Hj. unfold in_slice in Hj.
    rewrite !andb_true_iff, Nat.ltb_lt in Hj. lia.
Qed.

Lemma normalize_nth (p : list R) (i : nat) :
  nth i (normalize p) 0 = normalize_at (length p) i (nth i p 0).
Proof.
  unfold normalize, normalize_at.
  rewrite !set_slice_nth, !set_slice_length, !in_slice_mod by lia.
  pose proof (Nat.mod_upper_bound i 3 ltac:(lia)) as Hm.
  destruct (i <? length p - 1)%nat; cbn [andb]; [| reflexivity].
  destruct (i mod 3)%nat as [|[|[|m]]]; try lia; reflexivity.
Qed.

Lemma normalize_length (p : list R) : length (normalize p) = length p.
Proof.
  unfold normalize. now rewrite !set_slice_length.
Qed.

Lemma wrap0_twice (x : R) : wrap0 (wrap0 x) = wrap0 x.
Proof. apply wrap0_fix, wrap0_bounds. Qed.

Lemma normalize_at_twice (n i : nat) (x : R) :
  normalize_at n i (normalize_at n i x) = normalize_at n i x.
Proof.
  unfold normalize_at. destruct (i <? n - 1)%nat; [| reflexivity].
  destruct (i mod 3)%nat as [|[|m]];
    first [apply Rabs_Rabsolu | apply wrap0_twice].
Qed.

(** On an array of any length the normalization keeps the length and the
    last entry, and acts entry by entry on the others: indices 1, 4, 7, ...
    are wrapped, the remaining ones replaced by their absolute value. *)
Theorem normalize_pointwise (p : list R) (i : nat) :
  length (normalize p) = length p
  /\ nth i (normalize p) 0 = normalize_at (length p) i (nth i p 0)
  /\ last (normalize p) 0 = last p 0.
Proof.
  split; [apply normalize_length |]. split; [apply normalize_nth |].
  rewrite !last_as_nth, normalize_length, normalize_nth.
  unfold normalize_at.
  replace (length p - 1 <? length p - 1)%nat with false
    by (symmetry; apply Nat.ltb_irrefl).
  reflexivity.
Qed.

(** Normalizing twice is normalizing once (in exact arithmetic). *)
Theorem normalize_idempotent (p : list R) :
  normalize (normalize p) = normalize p.
Proof.
  apply (nth_ext _ _ 0 0).
  - now rewrite !normalize_length.
  - intros i _. rewrite !normalize_nth, normalize_length.
    apply normalize_at_twice.
Qed.

(** After the normalization every entry before the last is a phase in
    [[-pi, pi)] (indices 1, 4, 7, ...) or a non-negative strength or
    width. *)
Theorem normalize_restricts (p : list R) (i : nat) :
  (i < length p - 1)%nat ->
  ((i mod 3 = 1)%nat -> - PI <= nth i (normalize p) 0 < PI)
  /\ ((i mod 3 <> 1)%nat -> 0 <= nth i (normalize p) 0).
Proof.
  intros Hi. rewrite normalize_nth. unfold normalize_at.
  apply Nat.ltb_lt in Hi. rewrite Hi.
  destruct (i mod 3)%nat as [|[|m]]; split; intros H; try congruence;
    first [apply Rabs_pos | apply wrap0_bounds].
Qed.

(** For a vector within the fit bounds the normalization does not change
    the model: the warm start describes the same curve as the fit it comes
    from. *)
Theorem fit_lineshapes_normalize_invariant (energy_axis p : list R) :
  in_bounds p bounds ->
  fit_lineshapes alpha energy_axis (normalize p)
  = fit_lineshapes alpha energy_axis p.
Proof.
  intros Hin.
  pose proof (in_bounds_length p Hin) as Hlen.
  rewrite !fit_lineshapes_long by (rewrite ?normalize_length; lia).
  cbv zeta. unfold getitem.
  rewrite !normalize_nth, !last_as_nth, normalize_length, normalize_nth, Hlen.
  cbv [normalize_at Nat.sub Nat.ltb Nat.leb Nat.modulo Nat.divmod fst snd].
  destruct Hin as [Hlo _].
  cbv [bounds fst lower_bounds list_mul repeat concat app] in Hlo.
  do 10 (destruct p as [|? p]; [discriminate Hlen |]).
  destruct p; [| discriminate Hlen].
  invert_Forall2. cbn [nth]. cbv [gamma_xe1] in *.
  unfold wrap0.
  f_equal. apply map_ext. intros e.
  rewrite !DCM_value_wrap.
  rewrite !Rabs_pos_eq by lra. reflexivity.
Qed.

(** ** Energy axis and region of interest  (lines 27-29, 42-52, 67-68) *)

Lemma scan_gt_None_iff (threshold : R) (l : list R) (i : nat) :
  scan_gt threshold i l = None <-> forall e, In e l -> e <= threshold.
Proof.
  split; [apply scan_gt_None |].
  intros Hall. destruct (scan_gt threshold i l) as [k |] eqn:E; [| reflexivity].
  destruct (scan_gt_Some _ _ _ _ E) as (_ & Hlen & Hgt & _).
  specialize (Hall _ (nth_In l 0 Hlen)). lra.
Qed.

(** [get_roi] raises exactly when no energy of the axis exceeds the lower
    threshold or none exceeds the upper one, and then the exception is
    [UnboundLocalError]. *)
Theorem get_roi_raises_iff (energy_axis : list R) (erange : R * R) (e : exn) :
  get_roi energy_axis erange = Raise e
  <-> e = UnboundLocalError
      /\ ((forall x, In x energy_axis -> x <= fst erange)
          \/ (forall x, In x energy_axis -> x <= snd erange)).
Proof.
  unfold get_roi.
  rewrite <- !(scan_gt_None_iff _ energy_axis 0).
  destruct (scan_gt (fst erange) 0 energy_axis),
           (scan_gt (snd erange) 0 energy_axis); split;
    try discriminate; try (intros H; injection H as <-; auto; fail).
  - intros [_ [H | H]]; discriminate.
  - intros [-> _]. reflexivity.
  - intros [-> _]. reflexivity.
  - intros [-> _]. reflexivity.
Qed.

Lemma In_firstn_nth (n : nat) (l : list R) (e : R) :
  In e (firstn n l)
  <-> exists k, (k < n)%nat /\ (k < length l)%nat /\ nth k l 0 = e.
Proof.
  revert l. induction n as [|n IH]; intros l.
  - simpl. split; [contradiction | intros (k & Hk & _); lia].
  - destruct l as [|x l]; simpl.
    + split; [contradiction | intros (k & _ & Hk & _); lia].
    + rewrite IH. split.
      * intros [<- | (k & Hk & Hl & Hn)].
        -- exists 0%nat. repeat split; lia.
        -- exists (S k). repeat split; try lia. exact Hn.
      * intros ([|k] & Hk & Hl & Hn); [now left |].
        right. exists k. repeat split; try lia. exact Hn.
Qed.

Lemma In_np_slice (first last : nat) (a : list R) (e : R) :
  In e (np_slice (first, last) a)
  <-> exists i, (first <= i < last)%nat /\ (i < length a)%nat
                /\ nth i a 0 = e.
Proof.
  unfold np_slice, fst, snd. rewrite In_firstn_nth. split.
  - intros (k & Hk & Hlen & Hn). rewrite length_skipn in Hlen.
    rewrite nth_skipn in Hn. exists (first + k)%nat.
    repeat split; try lia. exact Hn.
  - intros (i & Hi & Hlen & Hn). exists (i - first)%nat.
    rewrite length_skipn, nth_skipn.
    replace (first + (i - first))%nat with i by lia.
    repeat split; try lia. exact Hn.
Qed.

(** On an ascending axis the slice [energy_axis[first:last]] that
    [get_roi] selects holds exactly the energies above the lower threshold
    and not above the upper one. *)
Theorem roi_slice_of_ascending_axis (energy_axis : list R) (lower upper : R)
        (first last : nat) :
  (forall i j, (i <= j < length energy_axis)%nat ->
               nth i energy_axis 0 <= nth j energy_axis 0) ->
  get_roi energy_axis (lower, upper) = Ok (first, last) ->
  forall e,
    In e (np_slice (first, last) energy_axis)
    <-> In e energy_axis /\ lower < e <= upper.
Proof.
  intros Hasc Hroi e. unfold get_roi, fst, snd in Hroi.
  destruct (scan_gt lower 0 energy_axis) as [f |] eqn:Hf; [| discriminate].
  destruct (scan_gt upper 0 energy_axis) as [l |] eqn:Hl; [| discriminate].
  injection Hroi as <- <-.
  destruct (scan_gt_Some _ _ _ _ Hf) as (_ & Hf1 & Hf2 & Hf3).
  destruct (scan_gt_Some _ _ _ _ Hl) as (_ & Hl1 & Hl2 & Hl3).
  rewrite Nat.sub_0_r in *.
  rewrite In_np_slice. split.
  - intros (i & Hi & Hlen & <-). split; [now apply nth_In |].
    split.
    + specialize (Hasc f i ltac:(lia)). lra.
    + apply Hl3. lia.
  - intros [Hin [Hlo Hhi]].
    destruct (In_nth _ _ 0 Hin) as (i & Hlen & <-).
    exists i. repeat split; try assumption.
    + destruct (le_lt_dec f i) as [|Hlt]; [assumption |].
      specialize (Hf3 _ Hlt). lra.
    + destruct (le_lt_dec l i) as [Hle |]; [| assumption].
      specialize (Hasc l i ltac:(lia)). lra.
Qed.

Lemma nth_linspace (start stop : R) (num i : nat) :
  (i < num)%nat ->
  nth i (linspace start stop num) 0
  = INR i * ((stop - start) / INR (num - 1)) + start.
Proof.
  intros Hi. unfold linspace.
  rewrite (nth_map_lt _ _ _ _ 0%nat) by (rewrite length_seq; exact Hi).
  rewrite seq_nth by exact Hi. reflexivity.
Qed.

(** The energy axis has 1962 points, runs from 51.012496 to 67.000271 and
    is strictly ascending. *)
Theorem energy_axis_ascending :
  length get_energy_axis = 1962%nat
  /\ nth 0 get_energy_axis 0 = 51.012496
  /\ nth 1961 get_energy_axis 0 = 67.000271
  /\ forall i j, (i < j < 1962)%nat ->
                 nth i get_energy_axis 0 < nth j get_energy_axis 0.
Proof.
  unfold get_energy_axis.
  assert (Hn : INR (1962 - 1) = 1961) by (rewrite INR_IZR_INZ; reflexivity).
  split; [unfold linspace; now rewrite length_map, length_seq |].
  split; [rewrite nth_linspace by lia; simpl; lra |].
  split.
  - rewrite nth_linspace by lia. rewrite Hn.
    replace (INR 1961) with 1961 by (rewrite INR_IZR_INZ; reflexivity).
    field.
  - intros i j Hij. rewrite !nth_linspace by lia. rewrite Hn.
    assert (INR i < INR j) by (apply lt_INR; lia).
    nra.
Qed.

(** ** Loading a scan  (lines 31-37) *)

Lemma mapR_Forall2 {A B : Type} (f : A -> result B) (l : list A)
      (ys : list B) :
  mapR f l = Ok ys <-> Forall2 (fun x y => f x = Ok y) l ys.
Proof.
  revert ys. induction l as [|x l IH]; intros ys; cbn [mapR].
  - split; intros H.
    + injection H as <-. constructor.
    + inversion H. reflexivity.
  - destruct (f x) as [y | e] eqn:Hx; cbn [bindR].
    + destruct (mapR f l) as [ys' | e] eqn:Hl; cbn [bindR].
      * split; intros H.
        -- injection H as <-. constructor; [exact Hx | now apply IH].
        -- inversion H as [| ? y' ? ys'' Hy Hrest]; subst.
           apply IH in Hrest. congruence.
      * split; intros H; [discriminate |].
        inversion H as [| ? y' ? ys'' Hy Hrest]; subst.
        apply IH in Hrest. discriminate.
    + split; intros H; [discriminate |].
      inversion H; subst. congruence.
Qed.

Lemma mapR_Raise {A B : Type} (f : A -> result B) (l : list A) (e : exn) :
  mapR f l = Raise e
  <-> exists pre x post,
      l = pre ++ x :: post
      /\ Forall (fun y => exists v, f y = Ok v) pre
      /\ f x = Raise e.
Proof.
  induction l as [|x l IH]; cbn [mapR].
  - split; [discriminate |].
    intros (pre & y & post & H & _). destruct pre; discriminate.
  - destruct (f x) as [v | e'] eqn:Hx; cbn [bindR].
    + destruct (mapR f l) as [ys | e'] eqn:Hl; cbn [bindR].
      * split; [discriminate |].
        intros ([|z pre] & y & post & Heq & Hpre & Hy);
          injection Heq as -> ->; [congruence |].
        assert (Hl' : @Raise (list B) e = Raise e) by reflexivity.
        assert (Hex : exists pre0 x0 post0,
                   pre ++ y :: post = pre0 ++ x0 :: post0
                   /\ Forall (fun y => exists v, f y = Ok v) pre0
                   /\ f x0 = Raise e)
          by (exists pre, y, post; inversion Hpre; auto).
        apply IH in Hex. discriminate.
      * split.
        -- intros H. injection H as ->.
           destruct (proj1 IH eq_refl) as (pre & y & post & -> & Hpre & Hy).
           exists (x :: pre), y, post. repeat split; eauto.
        -- intros ([|z pre] & y & post & Heq & Hpre & Hy);
             injection Heq as -> ->; [congruence |].
           f_equal.
           assert (Hex : exists pre0 x0 post0,
                      pre ++ y :: post = pre0 ++ x0 :: post0
                      /\ Forall (fun y => exists v, f y = Ok v) pre0
                      /\ f x0 = Raise e)
             by (exists pre, y, post; inversion Hpre; auto).
           apply IH in Hex. congruence.
    + split.
      * intros H. injection H as ->.
        exists [], x, l. repeat split; [constructor | exact Hx].
      * intros ([|z pre] & y & post & Heq & Hpre & Hy);
          injection Heq as -> ->; [congruence |].
        inversion Hpre as [| ? ? [v Hv] ?]; subst. congruence.
Qed.

(** A scan that loads has one spectrum row per time delay, the rows being
    the file's columns in order and each time delay the [float] of the
    header of its column. *)
Theorem getOD_aligned (intensity : R) (OD : list (list R))
        (time_delay_axis : list R) :
  getOD intensity = Ok (OD, time_delay_axis) ->
  length OD = length time_delay_axis
  /\ exists df,
      read_csv ("int" ++ str intensity ++ ".csv")%string = Ok df
      /\ OD = map snd df
      /\ Forall2 (fun header t => float header = Ok t)
                 (map fst df) time_delay_axis.
Proof.
  unfold getOD. intros H.
  apply bindR_Ok in H as (df & Hdf & H).
  apply bindR_Ok in H as (tda & Htda & H).
  injection H as <- <-.
  apply mapR_Forall2 in Htda.
  split.
  - apply Forall2_length_eq in Htda. now rewrite !length_map in *.
  - exists df. auto.
Qed.

(** [getOD] raises exactly when the file cannot be read, with the reader's
    exception, or when a header is not a number, with the exception of the
    first such header. *)
Theorem getOD_raises_iff (intensity : R) (e : exn) :
  getOD intensity = Raise e
  <-> read_csv ("int" ++ str intensity ++ ".csv")%string = Raise e
      \/ exists df pre header post,
          read_csv ("int" ++ str intensity ++ ".csv")%string = Ok df
          /\ map fst df = pre ++ header :: post
          /\ Forall (fun h => exists t, float h = Ok t) pre
          /\ float header = Raise e.
Proof.
  unfold getOD.
  destruct (read_csv _) as [df | e'] eqn:Hdf; cbn [bindR].
  - destruct (mapR float (map fst df)) as [tda | e'] eqn:Htda; cbn [bindR].
    + split; [discriminate |].
      intros [H | (df' & pre & h & post & Heq & Hsplit & Hpre & Hh)];
        [discriminate |].
      injection Heq as <-.
      assert (Hex : mapR float (map fst df) = Raise e)
        by (apply mapR_Raise; exists pre, h, post; auto).
      congruence.
    + split.
      * intros H. injection H as ->. right.
        apply mapR_Raise in Htda as (pre & h & post & Hsplit & Hpre & Hh).
        exists df, pre, h, post. auto.
      * intros [H | (df' & pre & h & post & Heq & Hsplit & Hpre & Hh)];
          [discriminate |].
        injection Heq as <-.
        assert (Hex : mapR float (map fst df) = Raise e)
          by (apply mapR_Raise; exists pre, h, post; auto).
        congruence.
  - split.
    + intros H. injection H as ->. now left.
    + intros [H | (df' & _ & _ & _ & Heq & _)]; congruence.
Qed.

(** ** The inner loop as a whole  (lines 165-190) *)

Lemma last_cons {A : Type} (x d : A) (l : list A) :
  last (x :: l) d = last l x.
Proof.
  revert x d. induction l as [|y l IH]; intros x d; [reflexivity |].
  change (last (x :: y :: l) d) with (last (y :: l) d).
  rewrite (IH y d). symmetry. apply IH.
Qed.

Lemma inner_loop_counts (intensity : R) (roi : nat * nat)
      (photonenergy : list R) (OD : list (list R)) :
  forall (i : nat) (p_init : ref) (params : list ref)
         (errors : list (list R)) (w w' : world) (vars : inner_vars),
    for_enumerate (inner_body intensity roi photonenergy) i OD
                  (p_init, params, errors) w
    = (w', Ok vars) ->
    stdout w' = stdout w ++ map (fun s => (intensity, s)) (seq i (length OD))
    /\ length (snd vars) = (length errors + length OD)%nat
    /\ length (heap w') = (length (heap w) + length OD)%nat
    /\ snd (fst vars) = params ++ seq (length (heap w)) (length OD)
    /\ fst (fst vars) = last (seq (length (heap w)) (length OD)) p_init
    /\ forallb call_okb
               (chain roi photonenergy (normalize (deref (heap w) p_init)) OD)
       = true
    /\ length (chain roi photonenergy (normalize (deref (heap w) p_init)) OD)
       = length OD.
Proof.
  induction OD as [|spectrum rest IH];
    intros i p_init params errors w w' vars H.
  - cbn in H. injection H as <- <-. cbn [length fst snd seq map chain forallb].
    rewrite !app_nil_r, !Nat.add_0_r. repeat split.
  - cbn [for_enumerate] in H.
    apply bind_Ok in H as (w1 & [[p1 params1] errors1] & Hbody & Hrest).
    rewrite inner_body_eq in Hbody. cbn [chain forallb length].
    unfold call_okb at 1. cbn [fc_out].
    destruct (curve_fit _ _ _ _ _) as [[popt pcov] | e]; [| discriminate].
    injection Hbody as <- <- <- <-.
    apply IH in Hrest.
    cbn [after_call heap stdout fst snd] in Hrest.
    rewrite deref_fresh, !length_app, length_list_set in Hrest.
    cbn [length] in Hrest.
    destruct Hrest as (Hout & Herr & Hheap & Hparams & Hp & Hok & Hlen).
    cbn [andb fst]. rewrite Hok, Hlen.
    repeat split; try lia.
    + rewrite Hout, <- app_assoc. reflexivity.
    + rewrite Hparams, <- app_assoc. cbn [app seq].
      now rewrite Nat.add_1_r.
    + rewrite Hp. cbn [seq]. rewrite Nat.add_1_r.
      symmetry. apply last_cons.
Qed.

Lemma inner_loop_completes (intensity : R) (roi : nat * nat)
      (photonenergy : list R) (OD : list (list R)) :
  forall (i : nat) (p_init : ref) (params : list ref)
         (errors : list (list R)) (w : world),
    forallb call_okb
            (chain roi photonenergy (normalize (deref (heap w) p_init)) OD)
    = true ->
    exists w' vars,
      for_enumerate (inner_body intensity roi photonenergy) i OD
                    (p_init, params, errors) w
      = (w', Ok vars).
Proof.
  induction OD as [|spectrum rest IH]; intros i p_init params errors w Hok.
  - cbn [for_enumerate]. unfold ret. eauto.
  - cbn [for_enumerate]. unfold bind at 1. rewrite inner_body_eq.
    cbn [chain forallb] in Hok. unfold call_okb at 1 in Hok.
    cbn [fc_out] in Hok.
    destruct (curve_fit _ _ _ _ _) as [[popt pcov] | e]; [| discriminate].
    cbn [andb fst] in Hok.
    apply IH. cbn [heap after_call]. now rewrite deref_fresh.
Qed.

Lemma inner_loop_failure (intensity : R) (roi : nat * nat)
      (photonenergy : list R) (OD : list (list R)) :
  forall (i : nat) (p_init : ref) (params : list ref)
         (errors : list (list R)) (w w' : world) (r : result inner_vars)
         (s : nat) (c : fit_call) (e : exn),
    for_enumerate (inner_body intensity roi photonenergy) i OD
                  (p_init, params, errors) w
    = (w', r) ->
    nth_error
      (chain roi photonenergy (normalize (deref (heap w) p_init)) OD) s
    = Some c ->
    fc_out c = Raise e ->
    r = Raise e
    /\ length (chain roi photonenergy (normalize (deref (heap w) p_init)) OD)
       = S s
    /\ stdout w' = stdout w ++ map (fun k => (intensity, k)) (seq i (S s))
    /\ length (heap w') = (length (heap w) + s)%nat.
Proof.
  induction OD as [|spectrum rest IH];
    intros i p_init params errors w w' r s c e H Hc He;
    [destruct s; discriminate |].
  cbn [for_enumerate] in H. unfold bind in H. rewrite inner_body_eq in H.
  cbn [chain] in *.
  destruct (curve_fit _ _ _ _ _) as [[popt pcov] | e0] eqn:Hout.
  - destruct s as [|s]; cbn [nth_error] in Hc.
    + injection Hc as <-. cbn [fc_out] in He. discriminate.
    + cbn [fst] in Hc.
      eapply IH in H; [| cbn [heap]; rewrite deref_fresh; exact Hc | exact He].
      cbn [heap stdout after_call fst] in H.
      rewrite deref_fresh, length_app, length_list_set in H.
      cbn [length fst] in *.
      destruct H as (Hres & Hlen & Hstd & Hheap).
      repeat split.
      * exact Hres.
      * now rewrite Hlen.
      * rewrite Hstd, <- app_assoc. reflexivity.
      * lia.
  - destruct s as [|s]; cbn [nth_error] in Hc;
      [| destruct s; discriminate].
    injection Hc as <-. cbn [fc_out] in He. injection He as ->.
    injection H as <- <-.
    cbn [after_call stdout heap length seq map].
    rewrite length_list_set, Nat.add_0_r. repeat split.
Qed.

(** A completed inner loop has made exactly one bounded fit per spectrum
    row, all of which returned, printed one progress line per row with the
    row's index, and appended one new array per row, which [params] lists
    in order and the last of which is the next [p_init]. *)
Theorem inner_loop_completed (intensity : R) (roi : nat * nat)
        (photonenergy : list R) (OD : list (list R)) (p_init : ref)
        (w w' : world) (p_last : ref) (params : list ref)
        (errors : list (list R)) :
  inner_loop intensity roi photonenergy OD p_init w
  = (w', Ok (p_last, params, errors)) ->
  length (new_fits w w') = length OD
  /\ Forall (fun c => fc_bounds c = Some bounds
                      /\ exists fit, fc_out c = Ok fit) (new_fits w w')
  /\ stdout w' = stdout w ++ map (fun s => (intensity, s))
                                 (seq 0 (length OD))
  /\ params = seq (length (heap w)) (length OD)
  /\ length (heap w') = (length (heap w) + length OD)%nat
  /\ length errors = length OD
  /\ p_last = last params p_init.
Proof.
  unfold inner_loop. intros H.
  pose proof (inner_loop_fits intensity roi photonenergy OD 0 p_init [] [] w)
    as Hfits.
  rewrite H in Hfits. cbn [fst] in Hfits.
  rewrite (new_fits_app _ _ _ Hfits).
  destruct (inner_loop_counts _ _ _ _ _ _ _ _ _ _ _ H)
    as (Hout & Herr & Hheap & Hparams & Hp & Hok & Hlen).
  cbn [fst snd length app] in Herr, Hparams, Hp |- *.
  repeat split; try assumption; [| now rewrite Hp, Hparams].
  apply Forall_forall. intros c Hin.
  rewrite forallb_forall in Hok. specialize (Hok c Hin).
  unfold call_okb in Hok.
  destruct (In_nth_error _ _ Hin) as [k Hk].
  split.
  - destruct k as [|k].
    + apply chain_head in Hk as (_ & Hb & _). exact Hb.
    + destruct (nth_error (chain roi photonenergy
                                 (normalize (deref (heap w) p_init)) OD) k)
        as [c' |] eqn:Hk'.
      * destruct (chain_adjacent _ _ _ _ _ _ _ Hk' Hk)
          as (_ & _ & _ & _ & Hb & _). exact Hb.
      * apply nth_error_None in Hk'.
        assert (nth_error (chain roi photonenergy
                                 (normalize (deref (heap w) p_init)) OD) (S k)
                <> None) by congruence.
        apply nth_error_Some in H0. lia.
  - destruct (fc_out c) as [fit |]; [eauto | discriminate].
Qed.

(** When the bounded fit of pass [s] raises, the inner loop ends there with
    the solver's exception: [s + 1] fits were attempted and [s + 1] progress
    lines printed, and no later spectrum row is touched. *)
Theorem inner_loop_stops_at_first_failure (intensity : R) (roi : nat * nat)
        (photonenergy : list R) (OD : list (list R)) (p_init : ref)
        (w : world) (s : nat) (c : fit_call) (e : exn) :
  let run := inner_loop intensity roi photonenergy OD p_init w in
  nth_error (new_fits w (fst run)) s = Some c ->
  fc_out c = Raise e ->
  snd run = Raise e
  /\ length (new_fits w (fst run)) = S s
  /\ stdout (fst run)
     = stdout w ++ map (fun k => (intensity, k)) (seq 0 (S s))
  /\ length (heap (fst run)) = (length (heap w) + s)%nat.
Proof.
  intros run. subst run. unfold inner_loop.
  rewrite (new_fits_app _ _ _ (inner_loop_fits _ _ _ _ _ _ _ _ _)).
  intros Hc He.
  exact (inner_loop_failure intensity roi photonenergy OD 0 p_init [] [] w
                            _ _ s c e (surjective_pairing _) Hc He).
Qed.

(** What a completed inner loop has stored: the array it appended for pass
    [k] holds the output of that pass's fit normalized, except for the last
    pass, whose array holds the output as returned.  The earlier arrays
    were normalized in place by the pass that followed, through
    [p_init]. *)
Theorem stored_fits_normalized_in_place (intensity : R) (roi : nat * nat)
        (photonenergy : list R) (OD : list (list R)) (p_init : ref)
        (w w' : world) (vars : inner_vars) (k : nat) (c : fit_call) :
  (p_init < length (heap w))%nat ->
  inner_loop intensity roi photonenergy OD p_init w = (w', Ok vars) ->
  nth_error (new_fits w w') k = Some c ->
  exists popt pcov,
    fc_out c = Ok (popt, pcov)
    /\ nth_error (snd (fst vars)) k = Some (length (heap w) + k)%nat
    /\ deref (heap w') (length (heap w) + k)%nat
       = if (S k <? length OD)%nat then normalize popt else popt.
Proof.
  unfold inner_loop. intros Hp H Hk.
  pose proof (inner_loop_fits intensity roi photonenergy OD 0 p_init [] [] w)
    as Hfits.
  rewrite H in Hfits. cbn [fst] in Hfits.
  rewrite (new_fits_app _ _ _ Hfits) in Hk.
  destruct (inner_loop_store _ _ _ _ _ _ _ _ _ _ _ Hp H)
    as (_ & Hparams & _ & _ & _ & Hnew).
  destruct (inner_loop_counts _ _ _ _ _ _ _ _ _ _ _ H)
    as (_ & _ & _ & _ & _ & _ & Hlen).
  destruct (Hnew _ _ Hk) as (popt & pcov & Hout & Hstored).
  exists popt, pcov. repeat split; try assumption.
  rewrite Hparams. cbn [app].
  assert (Hlt : (k < length OD)%nat)
    by (rewrite <- Hlen; apply nth_error_Some; congruence).
  rewrite (nth_error_nth' _ 0%nat) by (rewrite length_seq; exact Hlt).
  now rewrite seq_nth.
Qed.

(** ** The outer loop and the run as a whole  (lines 149-190) *)

Lemma outer_body_eq (roi : nat * nat) (photonenergy : list R)
      (optimum : list (list ref)) (fit_errs : list (list (list R)))
      (tda : option (list R)) (i : nat) (x : R) (w : world) :
  outer_body roi photonenergy (optimum, fit_errs, tda) i x w
  = match getOD x with
    | Raise e => (w, Raise e)
    | Ok scan =>
        let c := seed_call roi photonenergy (fst scan) in
        let w1 := World (heap w) (stdout w) (fits w ++ [c]) (op_csv w) in
        match fc_out c with
        | Raise e => (w1, Raise e)
        | Ok seed =>
            match inner_loop x roi photonenergy (fst scan) (length (heap w))
                             (World (heap w ++ [fst seed]) (stdout w)
                                    (fits w ++ [c]) (op_csv w)) with
            | (w2, Ok vars) =>
                (w2, Ok (optimum ++ [snd (fst vars)], fit_errs ++ [snd vars],
                         Some (snd scan)))
            | (w2, Raise e) => (w2, Raise e)
            end
        end
    end.
Proof.
  unfold outer_body, lift. unfold bind at 1.
  destruct (getOD x) as [scan | e]; [| reflexivity].
  unfold bind at 1. unfold call_curve_fit, seed_call. cbn [fc_out].
  destruct (curve_fit _ _ _ _ _) as [seed | e]; [| reflexivity].
  unfold bind at 1. unfold new_array at 1. cbn [heap stdout fits op_csv].
  unfold bind at 1.
  destruct (inner_loop _ _ _ _ _ _) as [w2 [[[p params] errors] | e]];
    reflexivity.
Qed.

Lemma outer_body_calls (roi : nat * nat) (photonenergy : list R)
      (vars : outer_vars) (i : nat) (x : R) (w : world) :
  let run := outer_body roi photonenergy vars i x w in
  fits (fst run) = fits w ++ scan_calls roi photonenergy x
  /\ ((exists vars', snd run = Ok vars')
      <-> scan_completes roi photonenergy x = true).
Proof.
  destruct vars as [[optimum fit_errs] tda]. cbv zeta.
  rewrite outer_body_eq. unfold scan_calls, scan_completes, scan_calls.
  destruct (getOD x) as [scan | e]; cbn [fst snd].
  2:{ split; [now rewrite app_nil_r |].
      split; [intros [v H]; discriminate | discriminate]. }
  cbv zeta. cbn [forallb].
  set (c := seed_call roi photonenergy (fst scan)).
  unfold call_okb at 1.
  destruct (fc_out c) as [seed | e] eqn:Hc; cbn [fst snd fits].
  2:{ split; [reflexivity |].
      split; [intros [v H]; discriminate | discriminate]. }
  cbn [andb].
  set (w1 := World (heap w ++ [fst seed]) (stdout w) (fits w ++ [c])
                   (op_csv w)).
  pose proof (inner_loop_fits x roi photonenergy (fst scan) 0
                              (length (heap w)) [] [] w1) as Hfits.
  fold (inner_loop x roi photonenergy (fst scan) (length (heap w)) w1)
    in Hfits.
  assert (Hp0 : deref (heap w1) (length (heap w)) = fst seed)
    by apply deref_fresh.
  rewrite Hp0 in Hfits. cbn [fits w1] in Hfits.
  destruct (inner_loop x roi photonenergy (fst scan) (length (heap w)) w1)
    as [w2 [vars | e]] eqn:Hin; cbn [fst snd] in *.
  - split; [rewrite Hfits, <- app_assoc; reflexivity |].
    split; [intros _ | eauto].
    unfold inner_loop in Hin.
    destruct (inner_loop_counts _ _ _ _ _ _ _ _ _ _ _ Hin)
      as (_ & _ & _ & _ & _ & Hok & _).
    rewrite Hp0 in Hok. exact Hok.
  - split; [rewrite Hfits, <- app_assoc; reflexivity |].
    split; [intros [v H]; discriminate |].
    intros Hok. exfalso.
    destruct (inner_loop_completes x roi photonenergy (fst scan) 0
                (length (heap w)) [] [] w1) as (w' & vars & Hrun).
    { rewrite Hp0. exact Hok. }
    unfold inner_loop in Hin. congruence.
Qed.

Lemma outer_loop_calls (roi : nat * nat) (photonenergy : list R)
      (intensities : list R) :
  forall (i : nat) (vars : outer_vars) (w : world),
    let run := for_enumerate (outer_body roi photonenergy) i intensities
                             vars w in
    fits (fst run) = fits w ++ run_calls roi photonenergy intensities
    /\ ((exists vars', snd run = Ok vars')
        <-> forallb (scan_completes roi photonenergy) intensities = true).
Proof.
  induction intensities as [|x rest IH]; intros i vars w; cbv zeta.
  - cbn. rewrite app_nil_r. split; [reflexivity |]. split; eauto.
  - cbn [for_enumerate run_calls forallb]. unfold bind.
    destruct (outer_body_calls roi photonenergy vars i x w) as [Hfits Hok].
    destruct (outer_body roi photonenergy vars i x w) as [w1 [vars1 | e]];
      cbn [fst snd] in *.
    + assert (Hc : scan_completes roi photonenergy x = true)
        by (apply Hok; eauto).
      rewrite Hc. cbn [andb].
      destruct (IH (S i) vars1 w1) as [Hfits' Hok'].
      split; [rewrite Hfits', Hfits, <- app_assoc; reflexivity | exact Hok'].
    + assert (Hc : scan_completes roi photonenergy x = false).
      { destruct (scan_completes roi photonenergy x); [| reflexivity].
        destruct (proj2 Hok eq_refl). discriminate. }
      rewrite Hc, app_nil_r. cbn [andb].
      split; [exact Hfits |].
      split; [intros [v H]; discriminate | discriminate].
Qed.

(** The solver calls of a run are fixed intensity by intensity: for each
    intensity an unbounded seed fit from [p_initial] on the mean of the
    first seven rows, then the warm-started bounded fits of its rows; no
    guess is carried from one intensity to the next, and the run makes no
    call after the first intensity whose pass fails. *)
Theorem run_calls_by_intensity (energy_axis intensities : list R)
        (w : world) :
  fits (fst (script energy_axis intensities w))
  = fits w
    ++ match get_roi energy_axis default_erange with
       | Ok roi => run_calls roi (np_slice roi energy_axis) intensities
       | Raise _ => []
       end.
Proof.
  rewrite script_fits. unfold prepare, lift, bind.
  destruct (get_roi energy_axis default_erange) as [roi | e];
    [| cbn; now rewrite app_nil_r].
  destruct (outer_loop_calls roi (np_slice roi energy_axis) intensities 0
                             ([], [], None) w) as [Hfits _].
  destruct (for_enumerate _ _ _ _ w) as [w1 [vars | e]]; exact Hfits.
Qed.

(** ** The table as a function of the scans  (lines 193-208) *)

Lemma stored_rows_deref (intensity : R) (roi : nat * nat)
      (photonenergy : list R) (OD : list (list R)) (p_init : ref)
      (w w' : world) (vars : inner_vars) :
  (p_init < length (heap w))%nat ->
  inner_loop intensity roi photonenergy OD p_init w = (w', Ok vars) ->
  map (deref (heap w')) (seq (length (heap w)) (length OD))
  = stored_rows roi photonenergy (normalize (deref (heap w) p_init)) OD.
Proof.
  unfold inner_loop. intros Hp H.
  destruct (inner_loop_store _ _ _ _ _ _ _ _ _ _ _ Hp H)
    as (_ & _ & _ & _ & _ & Hnew).
  destruct (inner_loop_counts _ _ _ _ _ _ _ _ _ _ _ H)
    as (_ & _ & _ & _ & _ & _ & Hlen).
  unfold stored_rows.
  set (ch := chain roi photonenergy (normalize (deref (heap w) p_init)) OD)
    in *.
  apply (nth_ext _ _ [] []).
  { rewrite !length_map, length_combine, !length_seq, Hlen. lia. }
  intros k Hk. rewrite length_map, length_seq in Hk.
  rewrite (nth_map_lt _ _ _ _ 0%nat) by (rewrite length_seq; exact Hk).
  rewrite seq_nth by exact Hk.
  destruct (nth_error ch k) as [c |] eqn:Hc;
    [| apply nth_error_None in Hc; lia].
  rewrite (nth_map_lt _ _ _ _ (0%nat, c))
    by (rewrite length_combine, length_seq, Hlen; lia).
  rewrite combine_nth by (rewrite length_seq; symmetry; exact Hlen).
  rewrite seq_nth by exact Hk. rewrite (nth_error_nth _ _ _ Hc).
  cbn [fst snd Nat.add].
  destruct (Hnew _ _ Hc) as (popt & pcov & Hout & Hstored).
  rewrite Hout. exact Hstored.
Qed.

Lemma stored_rows_length (roi : nat * nat) (photonenergy p0 : list R)
      (OD : list (list R)) :
  length (chain roi photonenergy p0 OD) = length OD ->
  length (stored_rows roi photonenergy p0 OD) = length OD.
Proof.
  intros H. unfold stored_rows.
  rewrite length_map, length_combine, length_seq, H. lia.
Qed.

Lemma outer_body_rows (roi : nat * nat) (photonenergy : list R)
      (optimum : list (list ref)) (fit_errs : list (list (list R)))
      (tda : option (list R)) (i : nat) (x : R) (w w' : world)
      (vars' : outer_vars) :
  outer_body roi photonenergy (optimum, fit_errs, tda) i x w = (w', Ok vars')
  ->
  exists params errors scan,
    getOD x = Ok scan
    /\ vars' = (optimum ++ [params], fit_errs ++ [errors], Some (snd scan))
    /\ (length (heap w) <= length (heap w'))%nat
    /\ (forall r, (r < length (heap w))%nat ->
                  deref (heap w') r = deref (heap w) r)
    /\ (forall r, In r params -> (r < length (heap w'))%nat)
    /\ map (deref (heap w')) params = scan_rows roi photonenergy x
    /\ length (scan_rows roi photonenergy x) = length (fst scan).
Proof.
  rewrite outer_body_eq. unfold scan_rows.
  destruct (getOD x) as [scan | e]; [| discriminate]. cbv zeta.
  destruct (fc_out (seed_call roi photonenergy (fst scan)))
    as [seed | e]; [| discriminate].
  set (w1 := World (heap w ++ [fst seed]) (stdout w)
                   (fits w ++ [seed_call roi photonenergy (fst scan)])
                   (op_csv w)).
  destruct (inner_loop x roi photonenergy (fst scan) (length (heap w)) w1)
    as [w2 [vars | e]] eqn:Hin; [| discriminate].
  intros H. injection H as <- <-.
  assert (Hp : (length (heap w) < length (heap w1))%nat)
    by (cbn [w1 heap]; rewrite length_app; simpl; lia).
  assert (Hseed : deref (heap w1) (length (heap w)) = fst seed)
    by apply deref_fresh.
  pose proof (stored_rows_deref _ _ _ _ _ _ _ _ Hp Hin) as Hrows.
  unfold inner_loop in Hin.
  destruct (inner_loop_store _ _ _ _ _ _ _ _ _ _ _ Hp Hin)
    as (Hlen & Hparams & Hold & _).
  destruct (inner_loop_counts _ _ _ _ _ _ _ _ _ _ _ Hin)
    as (_ & _ & _ & _ & _ & _ & Hchain).
  rewrite Hseed in Hrows, Hchain.
  assert (Hlen1 : length (heap w1) = S (length (heap w)))
    by (cbn [w1 heap]; rewrite length_app; simpl; lia).
  exists (snd (fst vars)), (snd vars), scan.
  split; [reflexivity |]. split; [reflexivity |].
  split; [lia |].
  split.
  { intros r Hr. rewrite Hold by lia.
    cbn [w1 heap]. now apply deref_older. }
  split.
  { intros r Hr. rewrite Hparams in Hr. cbn [app] in Hr.
    apply in_seq in Hr. lia. }
  split; [rewrite Hparams; exact Hrows |].
  now apply stored_rows_length.
Qed.

Lemma outer_loop_rows (roi : nat * nat) (photonenergy : list R)
      (intensities : list R) :
  forall (i : nat) (optimum : list (list ref))
         (fit_errs : list (list (list R))) (tda : option (list R))
         (w w' : world) (vars' : outer_vars),
    (forall ps r, In ps optimum -> In r ps -> (r < length (heap w))%nat) ->
    for_enumerate (outer_body roi photonenergy) i intensities
                  (optimum, fit_errs, tda) w
    = (w', Ok vars') ->
    map (map (deref (heap w'))) (fst (fst vars'))
    = map (map (deref (heap w))) optimum
      ++ map (scan_rows roi photonenergy) intensities.
Proof.
  induction intensities as [|x rest IH];
    intros i optimum fit_errs tda w w' vars' Hvalid H.
  - cbn in H. injection H as <- <-. cbn. now rewrite app_nil_r.
  - cbn [for_enumerate] in H.
    apply bind_Ok in H as (w1 & vars1 & Hbody & Hrest).
    destruct (outer_body_rows _ _ _ _ _ _ _ _ _ _ Hbody)
      as (params & errors & scan & _ & -> & Hmono & Hold & Hnew & Hrows & _).
    apply IH in Hrest.
    2:{ intros ps r Hps Hr. apply in_app_or in Hps as [Hps | [<- | []]].
        - specialize (Hvalid _ _ Hps Hr). lia.
        - now apply Hnew. }
    rewrite Hrest, map_app. cbn [map]. rewrite Hrows, <- app_assoc.
    cbn [app]. f_equal.
    apply map_ext_in. intros ps Hps.
    apply map_ext_in. intros r Hr. apply Hold. eauto.
Qed.

Lemma script_Ok (energy_axis intensities : list R) (w w' : world) :
  script energy_axis intensities w = (w', Ok tt) ->
  exists roi w1 vars df,
    get_roi energy_axis default_erange = Ok roi
    /\ for_enumerate (outer_body roi (np_slice roi energy_axis)) 0
                     intensities ([], [], None) w
       = (w1, Ok vars)
    /\ build_table (heap w1) vars intensities = Ok df
    /\ op_csv w' = Some df.
Proof.
  intros H. unfold script, lift in H.
  apply bind_Ok in H as (w0 & roi & Hroi & H).
  injection Hroi as <- Hroi.
  apply bind_Ok in H as (w1 & vars & Hloop & H).
  apply bind_Ok in H as (w2 & df & Hdf & H).
  injection Hdf as <- Hdf.
  unfold to_csv in H. injection H as <-.
  exists roi, w1, vars, df. auto.
Qed.

Lemma np_array3_Ok (a b : list (list (list R))) :
  np_array3 a = Ok b -> b = a /\ same_length a = true.
Proof.
  unfold np_array3. destruct (same_length a); cbn [andb].
  - destruct (same_length (concat a)); [| discriminate].
    intros H. injection H as <-. auto.
  - discriminate.
Qed.

Lemma script_table (energy_axis intensities : list R) (w w' : world) :
  script energy_axis intensities w = (w', Ok tt) ->
  exists roi tda df,
    get_roi energy_axis default_erange = Ok roi
    /\ op_csv w' = Some df
    /\ same_length (map (scan_rows roi (np_slice roi energy_axis))
                        intensities) = true
    /\ fill_table (map (scan_rows roi (np_slice roi energy_axis))
                       intensities)
                  0 intensities [("time"%string, rev tda)]
       = Ok df.
Proof.
  intros H.
  destruct (script_Ok _ _ _ _ H)
    as (roi & w1 & [[optimum fit_errs] tda] & df & Hroi & Hloop & Hdf & Hcsv).
  pose proof (outer_loop_rows _ _ _ _ _ _ _ _ _ _
                              (fun ps r (F : In ps []) _ => match F with end)
                              Hloop) as Hrows.
  cbn [fst map app] in Hrows.
  unfold build_table in Hdf.
  apply bindR_Ok in Hdf as (opt_params & Hopt & Hdf).
  apply bindR_Ok in Hdf as (err_params & _ & Hdf).
  apply bindR_Ok in Hdf as (t & Ht & Hdf).
  apply bindR_Ok in Hdf as (df0 & Hdf0 & Hdf).
  apply np_array3_Ok in Hopt as [-> Hsame].
  injection Hdf0 as <-. rewrite Hrows in Hdf, Hsame.
  exists roi, t, df. auto.
Qed.

(** ** The columns of the table  (lines 197-206) *)

Lemma column_label_inj (num num' : nat) (k k' : kind) (s s' : string) :
  (num < 3)%nat -> (num' < 3)%nat ->
  column_label num k s = column_label num' k' s' ->
  num = num' /\ k = k' /\ s = s'.
Proof.
  intros Hn Hn'.
  destruct num as [|[|[|num]]]; try lia;
    destruct num' as [|[|[|num']]]; try lia;
    destruct k, k'; cbn; intros H; try discriminate H;
    injection H as ->; auto.
Qed.

Lemma column_label_eqb (num num' : nat) (k k' : kind) (s s' : string) :
  (num < 3)%nat -> (num' < 3)%nat ->
  ~ (num = num' /\ k = k' /\ s = s') ->
  String.eqb (column_label num k s) (column_label num' k' s') = false.
Proof.
  intros Hn Hn' Hneq. apply String.eqb_neq. intros H.
  apply Hneq. now apply column_label_inj.
Qed.

Lemma assoc_get_assoc_set_same (df : dataframe) (l : string) (c : list R) :
  assoc_get (assoc_set df l c) l = Some c.
Proof.
  induction df as [|[k v] df IH]; simpl.
  - now rewrite String.eqb_refl.
  - destruct (String.eqb k l) eqn:Hk; simpl; now rewrite ?Hk.
Qed.

Lemma df_setitem_same (df df' : dataframe) (l : string) (c : list R) :
  df_setitem df l c = Ok df' -> assoc_get df' l = Some c.
Proof.
  unfold df_setitem. destruct df as [|[k v] df].
  - intros H. injection H as <-. simpl. now rewrite String.eqb_refl.
  - destruct (_ =? _)%nat; [| discriminate].
    intros H.
    assert (Hd : df' = assoc_set ((k, v) :: df) l c)
      by (injection H as <-; reflexivity).
    rewrite Hd. apply assoc_get_assoc_set_same.
Qed.

Lemma df_setitem_neq (df df' : dataframe) (l l' : string) (c : list R) :
  l <> l' ->
  df_setitem df l' c = Ok df' ->
  assoc_get df' l = assoc_get df l.
Proof.
  intros Hneq. apply df_setitem_other. apply String.eqb_neq. congruence.
Qed.

Lemma fill_resonance_columns (a : list (list (list R))) (ii : nat) (x : R)
      (df df' : dataframe) (num : nat) :
  fill_resonance a ii x df num = Ok df' ->
  (num < 3)%nat ->
  (forall k, exists col,
        index_rev a ii (3 * num + kind_offset k) = Ok col
        /\ assoc_get df' (column_label num k (str x)) = Some col)
  /\ (forall l, (forall k, l <> column_label num k (str x)) ->
                assoc_get df' l = assoc_get df l).
Proof.
  unfold fill_resonance. intros H Hn.
  apply bindR_Ok in H as (c1 & Hc1 & H).
  apply bindR_Ok in H as (df1 & H1 & H).
  apply bindR_Ok in H as (c2 & Hc2 & H).
  apply bindR_Ok in H as (df2 & H2 & H).
  apply bindR_Ok in H as (c3 & Hc3 & H3).
  assert (Hd : forall k k', k <> k' ->
                 column_label num k (str x) <> column_label num k' (str x)).
  { intros k k' Hk Heq.
    apply column_label_inj in Heq as (_ & Heq & _); auto. }
  split.
  - intros [| |]; cbn [kind_offset].
    + exists c1. rewrite Nat.add_0_r. split; [exact Hc1 |].
      rewrite (df_setitem_neq _ _ _ _ _ (Hd Strength Width ltac:(discriminate)) H3).
      rewrite (df_setitem_neq _ _ _ _ _ (Hd Strength Phase ltac:(discriminate)) H2).
      exact (df_setitem_same _ _ _ _ H1).
    + exists c2. split; [exact Hc2 |].
      rewrite (df_setitem_neq _ _ _ _ _ (Hd Phase Width ltac:(discriminate)) H3).
      exact (df_setitem_same _ _ _ _ H2).
    + exists c3. split; [exact Hc3 |].
      exact (df_setitem_same _ _ _ _ H3).
  - intros l Hl.
    rewrite (df_setitem_neq _ _ _ _ _ (Hl Width) H3).
    rewrite (df_setitem_neq _ _ _ _ _ (Hl Phase) H2).
    exact (df_setitem_neq _ _ _ _ _ (Hl Strength) H1).
Qed.

Lemma fill_resonances_columns (a : list (list (list R))) (ii : nat) (x : R)
      (nums : list nat) :
  forall df df',
    fill_resonances a ii x nums df = Ok df' ->
    NoDup nums ->
    (forall n, In n nums -> (n < 3)%nat) ->
    (forall n k, In n nums ->
       exists col,
         index_rev a ii (3 * n + kind_offset k) = Ok col
         /\ assoc_get df' (column_label n k (str x)) = Some col)
    /\ (forall l, (forall n k, In n nums -> l <> column_label n k (str x)) ->
                  assoc_get df' l = assoc_get df l).
Proof.
  induction nums as [|num nums IH]; intros df df' H Hnd Hlt;
    cbn [fill_resonances] in H.
  - injection H as <-. split; [intros n k [] | reflexivity].
  - apply bindR_Ok in H as (df1 & H1 & H).
    inversion Hnd as [| ? ? Hnotin Hnd']; subst.
    destruct (fill_resonance_columns _ _ _ _ _ _ H1 (Hlt _ (or_introl eq_refl)))
      as [Hset1 Hkeep1].
    destruct (IH _ _ H Hnd' (fun n Hn => Hlt n (or_intror Hn)))
      as [Hset Hkeep].
    split.
    + intros n k [<- | Hin]; [| now apply Hset].
      destruct (Hset1 k) as (col & Hcol & Hget).
      exists col. split; [exact Hcol |].
      rewrite Hkeep; [exact Hget |].
      intros n k' Hn Heq.
      apply column_label_inj in Heq as (-> & _); auto.
      * apply Hlt. now left.
      * apply Hlt. now right.
    + intros l Hl. rewrite Hkeep by (intros n k Hn; apply Hl; now right).
      apply Hkeep1. intros k. apply Hl. now left.
Qed.

Lemma fill_table_columns (a : list (list (list R))) (intensities : list R) :
  forall ii df df',
    fill_table a ii intensities df = Ok df' ->
    NoDup (map str intensities) ->
    (forall j x num k,
        nth_error intensities j = Some x -> (num < 3)%nat ->
        exists col,
          index_rev a (ii + j) (3 * num + kind_offset k) = Ok col
          /\ assoc_get df' (column_label num k (str x)) = Some col)
    /\ (forall l,
          (forall x num k, In x intensities -> (num < 3)%nat ->
                           l <> column_label num k (str x)) ->
          assoc_get df' l = assoc_get df l).
Proof.
  induction intensities as [|x0 rest IH]; intros ii df df' H Hnd;
    cbn [fill_table] in H.
  - injection H as <-.
    split; [intros [|j] x num k Hj; discriminate Hj | reflexivity].
  - apply bindR_Ok in H as (df1 & H1 & H).
    cbn [map] in Hnd. inversion Hnd as [| ? ? Hnotin Hnd']; subst.
    destruct (fill_resonances_columns _ _ _ _ _ _ H1 (seq_NoDup 3 0)) as
      [Hset1 Hkeep1].
    { intros n Hn. apply in_seq in Hn. lia. }
    destruct (IH _ _ _ H Hnd') as [Hset Hkeep].
    split.
    + intros [|j] x num k Hj Hnum; cbn [nth_error] in Hj.
      * injection Hj as <-. rewrite Nat.add_0_r.
        destruct (Hset1 num k) as (col & Hcol & Hget);
          [apply in_seq; lia |].
        exists col. split; [exact Hcol |].
        rewrite Hkeep; [exact Hget |].
        intros x num' k' Hx Hnum' Heq.
        apply column_label_inj in Heq as (_ & _ & Heq); auto.
        apply Hnotin. rewrite Heq. now apply in_map.
      * replace (ii + S j)%nat with (S ii + j)%nat by lia.
        now apply Hset.
    + intros l Hl.
      rewrite Hkeep by (intros x num k Hx; apply Hl; now right).
      apply Hkeep1. intros n k Hn. apply Hl; [now left |].
      apply in_seq in Hn. lia.
Qed.

Lemma index_rev_Ok (a : list (list (list R))) (ii k : nat) (col : list R)
      (rows : list (list R)) :
  nth_error a ii = Some rows ->
  index_rev a ii k = Ok col ->
  rows <> [] /\ col = rev (map (fun row => getitem row k) rows).
Proof.
  unfold index_rev. intros ->.
  destruct rows as [|v rows]; [discriminate |].
  destruct (k <? length v)%nat; [| discriminate].
  intros H. split; [discriminate |].
  injection H as <-. reflexivity.
Qed.

(** When the intensities print differently, the column
    [T<num+1>_<kind><intensity>] of the file written holds component
    [3*num + offset] of the rows stored for that intensity, latest row
    first: the outputs of that intensity's bounded fits, normalized except
    for the last one.  No other intensity's pass and no standard error
    reaches the column. *)
Theorem table_column_of_run (energy_axis intensities : list R)
        (w w' : world) (j : nat) (x : R) (num : nat) (k : kind) :
  script energy_axis intensities w = (w', Ok tt) ->
  NoDup (map str intensities) ->
  nth_error intensities j = Some x ->
  (num < 3)%nat ->
  exists roi df,
    get_roi energy_axis default_erange = Ok roi
    /\ op_csv w' = Some df
    /\ assoc_get df (column_label num k (str x))
       = Some (rev (map (fun row => getitem row (3 * num + kind_offset k))
                        (scan_rows roi (np_slice roi energy_axis) x))).
Proof.
  intros H Hnd Hj Hnum.
  destruct (script_table _ _ _ _ H) as (roi & t & df & Hroi & Hcsv & _ & Hdf).
  destruct (fill_table_columns _ _ _ _ _ Hdf Hnd) as [Hset _].
  destruct (Hset j x num k Hj Hnum) as (col & Hcol & Hget).
  cbn [Nat.add] in Hcol.
  apply (index_rev_Ok _ _ _ _ _
           (map_nth_error (scan_rows roi (np_slice roi energy_axis)) _ _ Hj))
    in Hcol as [_ ->].
  exists roi, df. auto.
Qed.

(** ** Shape of a completed run *)

Lemma getOD_length (x : R) (scan : list (list R) * list R) :
  getOD x = Ok scan -> length (fst scan) = length (snd scan).
Proof.
  unfold getOD. intros H.
  apply bindR_Ok in H as (df & _ & H).
  apply bindR_Ok in H as (tda & Htda & H).
  injection H as <-. cbn [fst snd].
  apply mapR_Forall2, Forall2_length_eq in Htda.
  now rewrite !length_map in *.
Qed.

Lemma outer_loop_shapes (roi : nat * nat) (photonenergy : list R)
      (intensities : list R) :
  forall (i : nat) (vars vars' : outer_vars) (w w' : world),
    for_enumerate (outer_body roi photonenergy) i intensities vars w
    = (w', Ok vars') ->
    forall x, In x intensities ->
      exists scan,
        getOD x = Ok scan
        /\ length (scan_rows roi photonenergy x) = length (fst scan).
Proof.
  induction intensities as [|y rest IH]; intros i vars vars' w w' H x Hx;
    [destruct Hx |].
  cbn [for_enumerate] in H.
  apply bind_Ok in H as (w1 & vars1 & Hbody & Hrest).
  destruct Hx as [<- | Hx]; [| eapply IH; eauto].
  destruct vars as [[optimum fit_errs] tda].
  destruct (outer_body_rows _ _ _ _ _ _ _ _ _ _ Hbody)
    as (params & errors & scan & Hscan & _ & _ & _ & _ & _ & Hlen).
  eauto.
Qed.

Lemma assoc_set_lengths (n : nat) (df : dataframe) (l : string)
      (c : list R) :
  length c = n ->
  Forall (fun lc => length (snd lc) = n) df ->
  Forall (fun lc => length (snd lc) = n) (assoc_set df l c).
Proof.
  intros Hc. induction 1 as [|[k v] df Hv Hdf IH]; cbn [assoc_set].
  - constructor; [exact Hc | constructor].
  - destruct (String.eqb k l); constructor; auto.
Qed.

Lemma df_setitem_lengths (n : nat) (df df' : dataframe) (l : string)
      (c : list R) :
  column_lengths n df ->
  df_setitem df l c = Ok df' ->
  column_lengths n df' /\ length c = n.
Proof.
  intros [Hne Hall]. unfold df_setitem.
  destruct df as [|[k v] df]; [contradiction |].
  destruct (length c =? length v)%nat eqn:Hlen; [| discriminate].
  apply Nat.eqb_eq in Hlen.
  assert (Hc : length c = n).
  { inversion Hall as [| ? ? Hv _]. cbn [snd] in Hv. lia. }
  intros H.
  assert (Hd : df' = assoc_set ((k, v) :: df) l c)
    by (injection H as <-; reflexivity).
  rewrite Hd. split; [| exact Hc]. split.
  - cbn [assoc_set]. destruct (String.eqb k l); discriminate.
  - now apply assoc_set_lengths.
Qed.

Lemma fill_resonance_lengths (n : nat) (a : list (list (list R)))
      (ii : nat) (x : R) (df df' : dataframe) (num : nat) :
  column_lengths n df ->
  fill_resonance a ii x df num = Ok df' ->
  column_lengths n df'
  /\ length (nth ii a []) = n /\ nth ii a [] <> [].
Proof.
  unfold fill_resonance. intros Hdf H.
  apply bindR_Ok in H as (c1 & Hc1 & H).
  apply bindR_Ok in H as (df1 & H1 & H).
  apply bindR_Ok in H as (c2 & Hc2 & H).
  apply bindR_Ok in H as (df2 & H2 & H).
  apply bindR_Ok in H as (c3 & Hc3 & H3).
  destruct (df_setitem_lengths _ _ _ _ _ Hdf H1) as [Hdf1 Hlen1].
  destruct (df_setitem_lengths _ _ _ _ _ Hdf1 H2) as [Hdf2 _].
  destruct (df_setitem_lengths _ _ _ _ _ Hdf2 H3) as [Hdf3 _].
  split; [exact Hdf3 |].
  destruct (index_rev_row _ _ _ _ Hc1) as [Hrows _].
  split; [congruence |].
  unfold index_rev in Hc1.
  destruct (nth_error a ii) as [rows |] eqn:Hii; [| discriminate].
  rewrite (nth_error_nth _ _ _ Hii).
  destruct rows; [discriminate | discriminate].
Qed.

Lemma fill_table_lengths (n : nat) (a : list (list (list R)))
      (intensities : list R) :
  forall ii df df',
    column_lengths n df ->
    fill_table a ii intensities df = Ok df' ->
    column_lengths n df'
    /\ forall j, (j < length intensities)%nat ->
                 length (nth (ii + j) a []) = n /\ nth (ii + j) a [] <> [].
Proof.
  induction intensities as [|x rest IH]; intros ii df df' Hdf H;
    cbn [fill_table] in H.
  - injection H as <-. split; [exact Hdf |]. cbn. intros j Hj. lia.
  - apply bindR_Ok in H as (df3 & H3 & H).
    cbn [seq fill_resonances] in H3.
    apply bindR_Ok in H3 as (df0 & H0 & H3).
    apply bindR_Ok in H3 as (df1 & H1 & H3).
    apply bindR_Ok in H3 as (df2 & H2 & H3).
    injection H3 as <-.
    destruct (fill_resonance_lengths _ _ _ _ _ _ _ Hdf H0) as (Hdf0 & Hrow).
    destruct (fill_resonance_lengths _ _ _ _ _ _ _ Hdf0 H1) as (Hdf1 & _).
    destruct (fill_resonance_lengths _ _ _ _ _ _ _ Hdf1 H2) as (Hdf2 & _).
    destruct (IH _ _ _ Hdf2 H) as [Hdf' Hrows].
    split; [exact Hdf' |].
    intros [|j] Hj; [rewrite Nat.add_0_r; exact Hrow |].
    replace (ii + S j)%nat with (S ii + j)%nat by lia.
    apply Hrows. cbn [length] in Hj. lia.
Qed.

Lemma script_rectangular (energy_axis intensities : list R)
      (w w' : world) :
  script energy_axis intensities w = (w', Ok tt) ->
  exists n df,
    (1 <= n)%nat
    /\ intensities <> []
    /\ op_csv w' = Some df
    /\ df <> []
    /\ Forall (fun lc => length (snd lc) = n) df
    /\ forall x, In x intensities ->
         exists OD time_delay_axis,
           getOD x = Ok (OD, time_delay_axis)
           /\ length OD = n /\ length time_delay_axis = n.
Proof.
  intros H.
  destruct (script_table _ _ _ _ H) as (roi & t & df & Hroi & Hcsv & _ & Hdf).
  destruct (script_Ok _ _ _ _ H)
    as (roi' & w1 & vars & df' & Hroi' & Hloop & Htable & _).
  assert (roi' = roi) by congruence. subst roi'.
  set (a := map (scan_rows roi (np_slice roi energy_axis)) intensities) in *.
  assert (H0 : column_lengths (length t) [("time"%string, rev t)]).
  { split; [discriminate |].
    constructor; [cbn [snd]; apply length_rev | constructor]. }
  destruct (fill_table_lengths _ _ _ _ _ _ H0 Hdf) as [[Hne Hall] Hrows].
  assert (Hx : forall x, In x intensities ->
                 length (scan_rows roi (np_slice roi energy_axis) x)
                 = length t
                 /\ scan_rows roi (np_slice roi energy_axis) x <> []).
  { intros x Hin. apply In_nth_error in Hin as [j Hj].
    assert (Hlt : (j < length intensities)%nat)
      by (apply nth_error_Some; congruence).
    specialize (Hrows j Hlt). cbn [Nat.add] in Hrows.
    unfold a in Hrows.
    rewrite (nth_error_nth _ _ _ (map_nth_error _ _ _ Hj)) in Hrows.
    exact Hrows. }
  assert (Hnil : intensities <> []).
  { intros ->. cbn in Hloop. injection Hloop as _ <-.
    cbn in Htable. discriminate. }
  exists (length t), df.
  split.
  { destruct intensities as [|x0 rest]; [contradiction |].
    destruct (Hx x0 (or_introl eq_refl)) as [Hlen Hrow].
    destruct (scan_rows roi (np_slice roi energy_axis) x0);
      [contradiction | cbn [length] in Hlen; lia]. }
  repeat (split; [assumption |]).
  intros x Hin.
  destruct (outer_loop_shapes _ _ _ _ _ _ _ _ Hloop x Hin)
    as ([OD tda] & Hscan & Hlen).
  pose proof (getOD_length _ _ Hscan) as Haligned.
  destruct (Hx x Hin) as [Hn _]. cbn [fst snd] in *.
  exists OD, tda. repeat split; [exact Hscan | lia | lia].
Qed.

(** A run that writes its file had at least one intensity, and every scan
    had the same number [n >= 1] of spectra and of time delays; every
    column of the file, [time] included, has [n] entries. *)
Theorem completed_run_is_rectangular (energy_axis intensities : list R)
        (w w' : world) :
  script energy_axis intensities w = (w', Ok tt) ->
  exists n df,
    (1 <= n)%nat
    /\ intensities <> []
    /\ op_csv w' = Some df
    /\ df <> []
    /\ Forall (fun lc => length (snd lc) = n) df
    /\ forall x, In x intensities ->
         exists OD time_delay_axis,
           getOD x = Ok (OD, time_delay_axis)
           /\ length OD = n /\ length time_delay_axis = n.
Proof.
  exact (script_rectangular energy_axis intensities w w').
Qed.

(** ** Progress lines and number of fits of a completed run *)

Lemma outer_body_effects (roi : nat * nat) (photonenergy : list R)
      (vars vars' : outer_vars) (i : nat) (x : R) (w w' : world) :
  outer_body roi photonenergy vars i x w = (w', Ok vars') ->
  exists scan,
    getOD x = Ok scan
    /\ stdout w'
       = stdout w ++ map (fun s => (x, s)) (seq 0 (length (fst scan)))
    /\ exists calls,
        fits w' = fits w ++ calls
        /\ length calls = S (length (fst scan)).
Proof.
  destruct vars as [[optimum fit_errs] tda].
  rewrite outer_body_eq.
  destruct (getOD x) as [scan | e]; [| discriminate]. cbv zeta.
  set (c := seed_call roi photonenergy (fst scan)).
  destruct (fc_out c) as [seed | e]; [| discriminate].
  set (w1 := World (heap w ++ [fst seed]) (stdout w) (fits w ++ [c])
                   (op_csv w)).
  pose proof (inner_loop_fits x roi photonenergy (fst scan) 0
                              (length (heap w)) [] [] w1) as Hfits.
  fold (inner_loop x roi photonenergy (fst scan) (length (heap w)) w1)
    in Hfits.
  destruct (inner_loop x roi photonenergy (fst scan) (length (heap w)) w1)
    as [w2 [vars | e]] eqn:Hin; [| discriminate].
  intros H. injection H as <- _.
  unfold inner_loop in Hin.
  destruct (inner_loop_counts _ _ _ _ _ _ _ _ _ _ _ Hin)
    as (Hout & _ & _ & _ & _ & _ & Hlen).
  cbn [fst w1 fits stdout] in Hfits, Hout.
  exists scan. split; [reflexivity |]. split; [exact Hout |].
  eexists. split; [rewrite Hfits, <- app_assoc; reflexivity |].
  cbn [app length]. now rewrite Hlen.
Qed.

Lemma outer_loop_effects (roi : nat * nat) (photonenergy : list R)
      (n : nat) (intensities : list R) :
  (forall x scan, In x intensities -> getOD x = Ok scan ->
                  length (fst scan) = n) ->
  forall (i : nat) (vars vars' : outer_vars) (w w' : world),
    for_enumerate (outer_body roi photonenergy) i intensities vars w
    = (w', Ok vars') ->
    stdout w'
    = stdout w
      ++ flat_map (fun x => map (fun s => (x, s)) (seq 0 n)) intensities
    /\ exists calls,
        fits w' = fits w ++ calls
        /\ length calls = (length intensities * S n)%nat.
Proof.
  induction intensities as [|x rest IH]; intros Hn i vars vars' w w' H.
  - cbn in H. injection H as <- _. cbn. rewrite app_nil_r.
    split; [reflexivity |]. exists []. now rewrite app_nil_r.
  - cbn [for_enumerate] in H.
    apply bind_Ok in H as (w1 & vars1 & Hbody & Hrest).
    destruct (outer_body_effects _ _ _ _ _ _ _ _ Hbody)
      as (scan & Hscan & Hout & calls & Hfits & Hlen).
    rewrite (Hn x scan (or_introl eq_refl) Hscan) in Hout, Hlen.
    apply IH in Hrest; [| intros y s Hy; apply Hn; now right].
    destruct Hrest as (Hout' & calls' & Hfits' & Hlen').
    split.
    + rewrite Hout', Hout, <- app_assoc. reflexivity.
    + exists (calls ++ calls'). split.
      * rewrite Hfits', Hfits, <- app_assoc. reflexivity.
      * rewrite length_app, Hlen, Hlen'. cbn [length]. lia.
Qed.

Lemma script_Ok_world (energy_axis intensities : list R) (w w' : world) :
  script energy_axis intensities w = (w', Ok tt) ->
  exists roi w1 vars,
    for_enumerate (outer_body roi (np_slice roi energy_axis)) 0
                  intensities ([], [], None) w
    = (w1, Ok vars)
    /\ stdout w' = stdout w1 /\ fits w' = fits w1 /\ heap w' = heap w1.
Proof.
  intros H. unfold script, lift in H.
  apply bind_Ok in H as (w0 & roi & Hroi & H).
  injection Hroi as <- Hroi.
  apply bind_Ok in H as (w1 & vars & Hloop & H).
  apply bind_Ok in H as (w2 & df & Hdf & H).
  injection Hdf as <- Hdf.
  unfold to_csv in H. injection H as <-.
  exists roi, w1, vars. auto.
Qed.

(** A run that writes its file has printed, for each intensity in order,
    one progress line per time delay with the row index counting from 0,
    and has called the solver once more than that per intensity: the seed
    fit and one bounded fit per row. *)
Theorem completed_run_prints_and_fits (energy_axis intensities : list R)
        (w w' : world) :
  script energy_axis intensities w = (w', Ok tt) ->
  exists n,
    (forall x OD time_delay_axis,
        In x intensities -> getOD x = Ok (OD, time_delay_axis) ->
        length OD = n)
    /\ stdout w'
       = stdout w
         ++ flat_map (fun x => map (fun s => (x, s)) (seq 0 n)) intensities
    /\ length (new_fits w w') = (length intensities * (n + 1))%nat.
Proof.
  intros H.
  destruct (script_rectangular _ _ _ _ H)
    as (n & df & _ & _ & _ & _ & _ & Hscans).
  assert (Hn : forall x scan, In x intensities -> getOD x = Ok scan ->
                              length (fst scan) = n).
  { intros x scan Hx Hscan.
    destruct (Hscans x Hx) as (OD & tda & Hscan' & Hlen & _).
    rewrite Hscan in Hscan'. injection Hscan' as ->. exact Hlen. }
  destruct (script_Ok_world _ _ _ _ H)
    as (roi & w1 & vars & Hloop & Hout & Hfits & _).
  destruct (outer_loop_effects _ _ _ _ Hn _ _ _ _ _ Hloop)
    as (Hout1 & calls & Hfits1 & Hlen).
  exists n. split.
  { intros x OD tda Hx Hscan. exact (Hn x (OD, tda) Hx Hscan). }
  split; [congruence |].
  rewrite (new_fits_app w w' calls) by congruence.
  rewrite Hlen. f_equal. lia.
Qed.

(** ** The parameter columns and the time column  (lines 197-206) *)

Lemma assoc_get_In (df : dataframe) (l : string) (c : list R) :
  assoc_get df l = Some c -> In (l, c) df.
Proof.
  induction df as [|[k v] df IH]; cbn [assoc_get]; [discriminate |].
  destruct (String.eqb k l) eqn:Hk.
  - apply String.eqb_eq in Hk. intros H. injection H as ->. subst k.
    now left.
  - intros H. right. now apply IH.
Qed.

Lemma df_setitem_keeps (df df' : dataframe) (l l' : string) (c : list R) :
  df_setitem df l' c = Ok df' ->
  assoc_get df l <> None -> assoc_get df' l <> None.
Proof.
  intros H Hl. destruct (string_dec l l') as [-> | Hneq].
  - rewrite (df_setitem_same _ _ _ _ H). discriminate.
  - now rewrite (df_setitem_neq _ _ _ _ _ Hneq H).
Qed.

Lemma fill_resonance_keeps (a : list (list (list R))) (ii : nat) (x : R)
      (df df' : dataframe) (num : nat) (l : string) :
  fill_resonance a ii x df num = Ok df' ->
  assoc_get df l <> None -> assoc_get df' l <> None.
Proof.
  unfold fill_resonance. intros H Hl.
  apply bindR_Ok in H as (c1 & _ & H).
  apply bindR_Ok in H as (df1 & H1 & H).
  apply bindR_Ok in H as (c2 & _ & H).
  apply bindR_Ok in H as (df2 & H2 & H).
  apply bindR_Ok in H as (c3 & _ & H3).
  eapply df_setitem_keeps; [exact H3 |].
  eapply df_setitem_keeps; [exact H2 |].
  eapply df_setitem_keeps; [exact H1 | exact Hl].
Qed.

Lemma fill_resonances_keeps (a : list (list (list R))) (ii : nat) (x : R)
      (nums : list nat) (l : string) :
  forall df df',
    fill_resonances a ii x nums df = Ok df' ->
    assoc_get df l <> None -> assoc_get df' l <> None.
Proof.
  induction nums as [|num nums IH]; intros df df' H Hl;
    cbn [fill_resonances] in H.
  - injection H as <-. exact Hl.
  - apply bindR_Ok in H as (df1 & H1 & H).
    eapply IH; [exact H |]. eapply fill_resonance_keeps; eauto.
Qed.

Lemma fill_table_keeps (a : list (list (list R))) (intensities : list R)
      (l : string) :
  forall ii df df',
    fill_table a ii intensities df = Ok df' ->
    assoc_get df l <> None -> assoc_get df' l <> None.
Proof.
  induction intensities as [|x rest IH]; intros ii df df' H Hl;
    cbn [fill_table] in H.
  - injection H as <-. exact Hl.
  - apply bindR_Ok in H as (df1 & H1 & H).
    eapply IH; [exact H |]. eapply fill_resonances_keeps; eauto.
Qed.

(** Every intensity gets its nine columns, whether or not another
    intensity prints to the same text. *)
Lemma fill_table_present (a : list (list (list R))) (intensities : list R) :
  forall ii df df',
    fill_table a ii intensities df = Ok df' ->
    forall x num k,
      In x intensities -> (num < 3)%nat ->
      assoc_get df' (column_label num k (str x)) <> None.
Proof.
  induction intensities as [|x0 rest IH]; intros ii df df' H x num k Hx Hnum;
    [destruct Hx |].
  cbn [fill_table] in H.
  apply bindR_Ok in H as (df1 & H1 & H).
  destruct Hx as [<- | Hx]; [| eapply IH; eauto].
  eapply fill_table_keeps; [exact H |].
  destruct (fill_resonances_columns _ _ _ _ _ _ H1 (seq_NoDup 3 0))
    as [Hset _].
  { intros n Hn. apply in_seq in Hn. lia. }
  destruct (Hset num k) as (col & _ & Hget); [apply in_seq; lia |].
  rewrite Hget. discriminate.
Qed.

(** C10: whenever the script completes, the [time] column of the table
    written is the reversed time-delay axis of the last intensity
    processed, and the parameter columns of every intensity sit in that
    same table, row by row against that column: each has as many entries
    as the last axis and, when the intensities print differently, holds
    that intensity's stored rows in reversed order.  No condition on the
    axes of the earlier scans enters: only their number of time delays is
    forced to agree by the table, their values are discarded. *)
Theorem time_column_from_last_intensity
        (energy_axis earlier : list R) (last_intensity : R) (w w' : world) :
  script energy_axis (earlier ++ [last_intensity]) w = (w', Ok tt) ->
  exists roi OD time_delay_axis df,
    get_roi energy_axis default_erange = Ok roi
    /\ getOD last_intensity = Ok (OD, time_delay_axis)
    /\ op_csv w' = Some df
    /\ assoc_get df "time" = Some (rev time_delay_axis)
    /\ (forall x, In x (earlier ++ [last_intensity]) ->
          exists OD_x axis_x,
            getOD x = Ok (OD_x, axis_x)
            /\ length OD_x = length time_delay_axis)
    /\ (forall x num k,
          In x (earlier ++ [last_intensity]) -> (num < 3)%nat ->
          exists col,
            assoc_get df (column_label num k (str x)) = Some col
            /\ length col = length time_delay_axis)
    /\ (NoDup (map str (earlier ++ [last_intensity])) ->
        forall x num k,
          In x (earlier ++ [last_intensity]) -> (num < 3)%nat ->
          assoc_get df (column_label num k (str x))
          = Some (rev (map (fun row =>
                              getitem row (3 * num + kind_offset k))
                           (scan_rows roi (np_slice roi energy_axis) x)))).
Proof.
  intros H.
  destruct (script_time_column _ _ _ _ _ H)
    as (OD & tda & df & Hlast & Hcsv & Htime).
  destruct (script_table _ _ _ _ H)
    as (roi & t & df1 & Hroi & Hcsv1 & _ & Hfill).
  destruct (script_rectangular _ _ _ _ H)
    as (n & df2 & _ & _ & Hcsv2 & _ & Hall & Hscans).
  assert (df1 = df) by congruence. assert (df2 = df) by congruence.
  subst df1 df2.
  assert (Hn : n = length tda).
  { destruct (Hscans last_intensity) as (OD' & tda' & Hlast' & _ & Hlen).
    { apply in_or_app. right. now left. }
    rewrite Hlast in Hlast'. injection Hlast' as _ <-. now symmetry. }
  subst n.
  exists roi, OD, tda, df.
  repeat (split; [assumption |]).
  split; [| split].
  - intros x Hx.
    destruct (Hscans x Hx) as (OD_x & axis_x & Hscan & Hlen & _).
    exists OD_x, axis_x. auto.
  - intros x num k Hx Hnum.
    pose proof (fill_table_present _ _ _ _ _ Hfill x num k Hx Hnum) as Hp.
    destruct (assoc_get df (column_label num k (str x))) as [col |] eqn:Hcol;
      [| contradiction].
    exists col. split; [reflexivity |].
    apply assoc_get_In in Hcol.
    rewrite Forall_forall in Hall. exact (Hall _ Hcol).
  - intros Hnd x num k Hx Hnum.
    destruct (fill_table_columns _ _ _ _ _ Hfill Hnd) as [Hset _].
    apply In_nth_error in Hx as [j Hj].
    destruct (Hset j x num k Hj Hnum) as (col & Hcol & Hget).
    cbn [Nat.add] in Hcol.
    apply (index_rev_Ok _ _ _ _ _
             (map_nth_error (scan_rows roi (np_slice roi energy_axis)) _ _
                            Hj))
      in Hcol as [_ ->].
    exact Hget.
Qed.

End Script.

(* ================================================================== *)
(** * Part III.  The deployed script, run                              *)
(* ================================================================== *)

Local Notation "'demo_main'" :=
  (main Demo.alpha Demo.curve_fit Demo.read_csv Demo.float Demo.str).

Lemma scan_gt_map_seq (f : nat -> R) (threshold : R) (n : nat) :
  forall i k,
    (i <= k < i + n)%nat ->
    (forall j, (i <= j < k)%nat -> f j <= threshold) ->
    f k > threshold ->
    scan_gt threshold i (map f (seq i n)) = Some k.
Proof.
  induction n as [|n IH]; intros i k Hk Hbelow Hat; [lia |].
  cbn [seq map scan_gt].
  destruct (Rgt_dec (f i) threshold) as [Hgt | Hle].
  - destruct (Nat.eq_dec i k) as [-> | Hne]; [reflexivity |].
    specialize (Hbelow i ltac:(lia)). lra.
  - destruct (Nat.eq_dec i k) as [-> | Hne]; [contradiction |].
    apply IH; [lia | intros j Hj; apply Hbelow; lia | exact Hat].
Qed.

(** On the deployed axis the region of interest is [508:790]. *)
Lemma deployed_roi :
  get_roi get_energy_axis default_erange = Ok (508%nat, 790%nat).
Proof.
  unfold get_roi, get_energy_axis, linspace, default_erange, fst, snd.
  assert (Hn : INR (1962 - 1) = 1961) by (rewrite INR_IZR_INZ; reflexivity).
  rewrite Hn.
  assert (Hmono : forall j k : nat, (j <= k)%nat -> INR j <= INR k)
    by (intros; now apply le_INR).
  assert (H507 : INR 507 = 507) by (rewrite INR_IZR_INZ; reflexivity).
  assert (H508 : INR 508 = 508) by (rewrite INR_IZR_INZ; reflexivity).
  assert (H789 : INR 789 = 789) by (rewrite INR_IZR_INZ; reflexivity).
  assert (H790 : INR 790 = 790) by (rewrite INR_IZR_INZ; reflexivity).
  rewrite (scan_gt_map_seq _ 55.15 1962 0 508).
  - rewrite (scan_gt_map_seq _ 57.45 1962 0 790); [reflexivity | lia | |].
    + intros j Hj. specialize (Hmono j 789%nat ltac:(lia)).
      rewrite H789 in Hmono. nra.
    + rewrite H790. lra.
  - lia.
  - intros j Hj. specialize (Hmono j 507%nat ltac:(lia)).
    rewrite H507 in Hmono. nra.
  - rewrite H508. lra.
Qed.

Ltac decide_str :=
  unfold Demo.str;
  repeat match goal with
         | |- context [Rle_dec ?a ?b] => destruct (Rle_dec a b); try lra
         end;
  reflexivity.

Lemma demo_str_13 : Demo.str 1.3 = "1.3"%string.
Proof. decide_str. Qed.

Lemma demo_str_16 : Demo.str 1.6 = "1.6"%string.
Proof. decide_str. Qed.

Lemma demo_str_19 : Demo.str 1.9 = "1.9"%string.
Proof. decide_str. Qed.

Lemma demo_str_22 : Demo.str 2.2 = "2.2"%string.
Proof. decide_str. Qed.

Lemma demo_str_25 : Demo.str 2.5 = "2.5"%string.
Proof. decide_str. Qed.

Lemma wrap0_4 : wrap0 4 = 4 - 2 * PI.
Proof.
  unfold wrap0, wrap. pose proof PI_gt_3. pose proof PI_4.
  rewrite (np_mod_shift _ _ 1%Z); lra.
Qed.

(** Symbolic execution of the driver: everything is unfolded except the
    real-number operations; the tests on reals are settled beforehand with
    the facts above. *)
Ltac run_driver :=
  cbv [bind lift bindR ret mapR map fst snd append
       String.eqb Ascii.eqb Bool.eqb
       Demo.read_csv Demo.missing_csv Demo.float Demo.curve_fit
       Demo.failing_curve_fit Demo.popt Demo.seed_popt Demo.pcov
       call_curve_fit new_array inner_loop for_enumerate
       inner_body print slice_assign read_array to_csv
       heap stdout fits op_csv initial_world deref nth app length list_set
       set_slice get_slice slice_to_last slice_len arange fold_left combine
       getitem Nat.sub Nat.add Nat.mul Nat.div Nat.divmod Nat.eqb Nat.ltb
       Nat.leb andb forallb concat seq rev nth_error
       build_table np_array3 same_length np_diag
       fill_table fill_resonances fill_resonance index_rev
       df_setitem assoc_set assoc_get column_label kind_tag str_int
       NilEmpty.string_of_uint Nat.to_uint Nat.to_little_uint
       Decimal.rev Decimal.revapp Decimal.Little.succ].

Ltac settle_str :=
  rewrite ?demo_str_13, ?demo_str_16, ?demo_str_19, ?demo_str_22,
    ?demo_str_25.

Ltac run_demo :=
  unfold main, script, lift; unfold bind at 1; rewrite deployed_roi;
  unfold get_intensities; cbn [for_enumerate];
  unfold outer_body, getOD; settle_str;
  run_driver; settle_str; run_driver.

(** The demo run completes.  Every bounded fit returned [Demo.popt]; in
    the table written, the rows of the later time delay (the first spectrum
    row) hold that vector normalized, the rows of the earlier one hold it
    as returned. *)
Lemma demo_main_value :
  exists h out calls df,
    demo_main initial_world = (World h out calls (Some df), Ok tt)
    /\ length calls = 15%nat
    /\ Forall (fun c => fc_bounds c = None
                        \/ fc_out c = Ok (Demo.popt, Demo.pcov)) calls
    /\ length df = 46%nat
    /\ assoc_get df "time" = Some [7; 9]
    /\ assoc_get df "T1_z01.3" = Some [1; Rabs 1]
    /\ assoc_get df "T1_phi1.3" = Some [4; wrap0 4]
    /\ assoc_get df "T1_gam1.3" = Some [0.1; Rabs 0.1]
    /\ assoc_get df "T3_phi2.5" = Some [4; wrap0 4].
Proof.
  run_demo. do 4 eexists.
  split; [reflexivity |].
  split; [reflexivity |].
  split.
  { repeat (apply Forall_cons;
            [first [left; reflexivity | right; reflexivity] |]).
    apply Forall_nil. }
  repeat split.
Qed.

(** C6 fails on the demo run.  Every bounded fit returned [Demo.popt],
    whose first phase is 4, so the claim puts [4; 4] in column [T1_phi1.3];
    the table written holds [4; 4 - 2*pi].  The array of the first spectrum
    row was wrapped in place by the pass that followed it, because
    [p_init = popt] makes [p_init] another name of the array already
    appended to [params]; only the last array of each intensity is stored
    as fitted. *)
Theorem table_holds_arrays_normalized_in_place :
  let run := demo_main initial_world in
  snd run = Ok tt
  /\ Forall (fun c => fc_bounds c = None
                      \/ fc_out c = Ok (Demo.popt, Demo.pcov))
            (fits (fst run))
  /\ getitem Demo.popt 1 = 4
  /\ exists df,
      op_csv (fst run) = Some df
      /\ assoc_get df "time" = Some [7; 9]
      /\ assoc_get df "T1_phi1.3" = Some [4; 4 - 2 * PI]
      /\ 4 - 2 * PI <> 4.
Proof.
  intros run. subst run.
  destruct demo_main_value
    as (h & out & calls & df & -> & _ & Hcalls & _ & Htime & _ & Hphi & _).
  cbn [fst snd fits op_csv].
  split; [reflexivity |].
  split; [exact Hcalls |].
  split; [reflexivity |].
  exists df. split; [reflexivity |].
  split; [exact Htime |].
  split; [rewrite Hphi, wrap0_4; reflexivity |].
  pose proof PI_RGT_0. lra.
Qed.

Lemma time_column_from_last_intensity_witness :
  let intensities := [1.3; 1.6; 1.9; 2.2] ++ [2.5] in
  exists roi OD time_delay_axis df,
    get_roi get_energy_axis default_erange = Ok roi
    /\ getOD Demo.read_csv Demo.float Demo.str 2.5 = Ok (OD, time_delay_axis)
    /\ op_csv (fst (demo_main initial_world)) = Some df
    /\ assoc_get df "time" = Some (rev time_delay_axis)
    /\ (forall x, In x intensities ->
          exists OD_x axis_x,
            getOD Demo.read_csv Demo.float Demo.str x = Ok (OD_x, axis_x)
            /\ length OD_x = length time_delay_axis)
    /\ (forall x num k,
          In x intensities -> (num < 3)%nat ->
          exists col,
            assoc_get df (column_label num k (Demo.str x)) = Some col
            /\ length col = length time_delay_axis)
    /\ (NoDup (map Demo.str intensities) ->
        forall x num k,
          In x intensities -> (num < 3)%nat ->
          assoc_get df (column_label num k (Demo.str x))
          = Some (rev (map (fun row =>
                              getitem row (3 * num + kind_offset k))
                           (scan_rows Demo.alpha Demo.curve_fit
                                      Demo.read_csv Demo.float Demo.str roi
                                      (np_slice roi get_energy_axis) x)))).
Proof.
  intros intensities.
  apply (time_column_from_last_intensity
           Demo.alpha Demo.curve_fit Demo.read_csv Demo.float Demo.str
           get_energy_axis [1.3; 1.6; 1.9; 2.2] 2.5 initial_world).
  destruct demo_main_value as (h & out & calls & df & Hrun & _).
  unfold main, get_intensities in *. cbn [app].
  rewrite Hrun. reflexivity.
Defined.

Lemma failure_aborts_run_witness :
  let run :=
    main Demo.alpha Demo.curve_fit Demo.missing_csv Demo.float Demo.str
         initial_world in
  (exists e, snd run = Raise e) /\ op_csv (fst run) = op_csv initial_world.
Proof.
  apply (failure_aborts_run
           Demo.alpha Demo.curve_fit Demo.missing_csv Demo.float Demo.str
           get_energy_axis get_intensities initial_world).
  right. left. exists 1.3, FileNotFoundError.
  split; [left; reflexivity | reflexivity].
Defined.

(** A run whose first bounded fit fails: the seed fit was made and the
    progress line printed, the exception is the solver's, and there is no
    output file. *)
Example demo_failing_solver :
  let roi := (508%nat, 790%nat) in
  let x := np_slice roi get_energy_axis in
  main Demo.alpha Demo.failing_curve_fit Demo.read_csv Demo.float Demo.str
       initial_world
  = (World
       [normalize Demo.seed_popt]
       [(1.3, 0%nat)]
       [FitCall x (np_slice roi
                            (np_mean_axis0
                               (firstn 7 [Demo.column; Demo.column])))
                p_initial None (Ok (Demo.seed_popt, Demo.pcov));
        FitCall x (np_slice roi Demo.column)
                (normalize Demo.seed_popt) (Some bounds)
                (Raise RuntimeError)]
       None,
     Raise RuntimeError).
Proof.
  intros roi x. run_demo. reflexivity.
Qed.

Lemma warm_start_is_normalized_previous_fit_witness :
  let roi := (508%nat, 790%nat) in
  let x := np_slice roi get_energy_axis in
  let y := np_slice roi Demo.column in
  let c0 := FitCall x y (normalize Demo.seed_popt) (Some bounds)
                    (Ok (Demo.popt, Demo.pcov)) in
  let c1 := FitCall x y (normalize Demo.popt) (Some bounds)
                    (Ok (Demo.popt, Demo.pcov)) in
  exists popt pcov,
    fc_out c0 = Ok (popt, pcov)
    /\ fc_bounds c1 = Some bounds
    /\ fc_ydata c1 = np_slice roi (nth 1 [Demo.column; Demo.column] [])
    /\ fc_p0 c1 = normalize popt
    /\ (length popt = 10%nat -> fc_p0 c1 = normalize_spec popt).
Proof.
  intros roi x y c0 c1.
  apply (warm_start_is_normalized_previous_fit
           Demo.alpha Demo.curve_fit 1.3 roi x [Demo.column; Demo.column]
           0%nat (World [Demo.seed_popt] [] [] None) 0%nat c0 c1);
    reflexivity.
Defined.

(* ================================================================== *)
(** * Part IV.  Instances of the further properties                    *)
(* ================================================================== *)



Lemma normalize_restricts_witness :
  let p := [1; 4; -0.1; -2; 4; 0.2; 3; 4; 0.3; -5] in
  ((4 mod 3 = 1)%nat -> - PI <= nth 4 (normalize p) 0 < PI)
  /\ ((4 mod 3 <> 1)%nat -> 0 <= nth 4 (normalize p) 0).
Proof.
  intros p.
  apply (normalize_restricts p 4).
  simpl. lia.
Defined.

Lemma fit_lineshapes_normalize_invariant_witness :
  fit_lineshapes Demo.alpha get_energy_axis (normalize p_initial)
  = fit_lineshapes Demo.alpha get_energy_axis p_initial.
Proof.
  apply (fit_lineshapes_normalize_invariant Demo.alpha get_energy_axis
                                            p_initial).
  exact p_initial_in_bounds.
Defined.

Lemma roi_slice_of_ascending_axis_witness :
  In 56 (np_slice (1%nat, 2%nat) [55; 56; 58])
  <-> In 56 [55; 56; 58] /\ 55.15 < 56 <= 57.45.
Proof.
  apply (roi_slice_of_ascending_axis [55; 56; 58] 55.15 57.45 1 2).
  - intros i j [Hij Hj]. simpl in Hj.
    destruct j as [|[|[|j]]]; try lia;
      destruct i as [|[|[|i]]]; try lia; simpl; lra.
  - unfold get_roi, scan_gt, fst, snd.
    repeat match goal with
           | |- context [Rgt_dec ?a ?b] => destruct (Rgt_dec a b); try lra
           end.
    reflexivity.
Defined.

Lemma getOD_aligned_witness :
  length [Demo.column; Demo.column] = length [9; 7]
  /\ exists df,
      Demo.read_csv ("int" ++ Demo.str 2.5 ++ ".csv")%string = Ok df
      /\ [Demo.column; Demo.column] = map snd df
      /\ Forall2 (fun header t => Demo.float header = Ok t)
                 (map fst df) [9; 7].
Proof.
  apply (getOD_aligned Demo.read_csv Demo.float Demo.str 2.5).
  unfold getOD. rewrite demo_str_25. reflexivity.
Defined.

Lemma inner_loop_completed_witness :
  let roi := (508%nat, 790%nat) in
  let x := np_slice roi get_energy_axis in
  let OD := [Demo.column; Demo.column] in
  let errors := [map (fun v => sqrt (Rabs v)) (np_diag Demo.pcov);
                 map (fun v => sqrt (Rabs v)) (np_diag Demo.pcov)] in
  let w := World [Demo.seed_popt] [] [] None in
  let w' := fst (inner_loop Demo.alpha Demo.curve_fit 1.3 roi x OD 0%nat w) in
  length (new_fits w w') = length OD
  /\ Forall (fun c => fc_bounds c = Some bounds
                      /\ exists fit, fc_out c = Ok fit) (new_fits w w')
  /\ stdout w' = stdout w ++ map (fun s => (1.3, s)) (seq 0 (length OD))
  /\ [1%nat; 2%nat] = seq (length (heap w)) (length OD)
  /\ length (heap w') = (length (heap w) + length OD)%nat
  /\ length errors = length OD
  /\ 2%nat = last [1%nat; 2%nat] 0%nat.
Proof.
  intros roi x OD errors w w'.
  apply (inner_loop_completed Demo.alpha Demo.curve_fit 1.3 roi x OD 0%nat
                              w w' 2%nat [1%nat; 2%nat] errors).
  reflexivity.
Defined.

Lemma inner_loop_stops_at_first_failure_witness :
  let roi := (508%nat, 790%nat) in
  let x := np_slice roi get_energy_axis in
  let OD := [Demo.column; Demo.column] in
  let w := World [Demo.seed_popt] [] [] None in
  let run :=
    inner_loop Demo.alpha Demo.failing_curve_fit 1.3 roi x OD 0%nat w in
  snd run = Raise RuntimeError
  /\ length (new_fits w (fst run)) = 1%nat
  /\ stdout (fst run) = stdout w ++ map (fun k => (1.3, k)) (seq 0 1)
  /\ length (heap (fst run)) = (length (heap w) + 0)%nat.
Proof.
  intros roi x OD w.
  apply (inner_loop_stops_at_first_failure
           Demo.alpha Demo.failing_curve_fit 1.3 roi x OD 0%nat w 0%nat
           (FitCall x (np_slice roi Demo.column) (normalize Demo.seed_popt)
                    (Some bounds) (Raise RuntimeError))
           RuntimeError);
    reflexivity.
Defined.

Lemma stored_fits_normalized_in_place_witness :
  let roi := (508%nat, 790%nat) in
  let x := np_slice roi get_energy_axis in
  let OD := [Demo.column; Demo.column] in
  let w := World [Demo.seed_popt] [] [] None in
  let w' := fst (inner_loop Demo.alpha Demo.curve_fit 1.3 roi x OD 0%nat w) in
  exists popt pcov,
    Ok (Demo.popt, Demo.pcov) = Ok (popt, pcov)
    /\ nth_error [1%nat; 2%nat] 0 = Some (length (heap w) + 0)%nat
    /\ deref (heap w') (length (heap w) + 0)%nat
       = if (1 <? length OD)%nat then normalize popt else popt.
Proof.
  intros roi x OD w w'.
  apply (stored_fits_normalized_in_place
           Demo.alpha Demo.curve_fit 1.3 roi x OD 0%nat w w'
           (2%nat, [1%nat; 2%nat],
            [map (fun v => sqrt (Rabs v)) (np_diag Demo.pcov);
             map (fun v => sqrt (Rabs v)) (np_diag Demo.pcov)])
           0%nat
           (FitCall x (np_slice roi Demo.column) (normalize Demo.seed_popt)
                    (Some bounds) (Ok (Demo.popt, Demo.pcov)))).
  - simpl. lia.
  - reflexivity.
  - reflexivity.
Defined.

Lemma demo_labels_distinct :
  NoDup (map Demo.str get_intensities).
Proof.
  unfold get_intensities. cbn [map].
  rewrite demo_str_13, demo_str_16, demo_str_19, demo_str_22, demo_str_25.
  repeat (apply NoDup_cons;
          [cbn [In]; intros H;
           repeat (destruct H as [H | H]; [discriminate H |]); exact H |]).
  apply NoDup_nil.
Defined.

Lemma table_column_of_run_witness :
  exists roi df,
    get_roi get_energy_axis default_erange = Ok roi
    /\ op_csv (fst (demo_main initial_world)) = Some df
    /\ assoc_get df (column_label 1 Phase (Demo.str 1.3))
       = Some (rev (map (fun row => getitem row (3 * 1 + kind_offset Phase))
                        (scan_rows Demo.alpha Demo.curve_fit Demo.read_csv
                                   Demo.float Demo.str roi
                                   (np_slice roi get_energy_axis) 1.3))).
Proof.
  apply (table_column_of_run
           Demo.alpha Demo.curve_fit Demo.read_csv Demo.float Demo.str
           get_energy_axis get_intensities initial_world
           (fst (demo_main initial_world)) 0%nat 1.3 1%nat Phase).
  - destruct demo_main_value as (h & out & calls & df & Hrun & _).
    unfold main in *. rewrite Hrun. reflexivity.
  - exact demo_labels_distinct.
  - reflexivity.
  - lia.
Defined.

Lemma completed_run_is_rectangular_witness :
  exists n df,
    (1 <= n)%nat
    /\ get_intensities <> []
    /\ op_csv (fst (demo_main initial_world)) = Some df
    /\ df <> []
    /\ Forall (fun lc => length (snd lc) = n) df
    /\ forall x, In x get_intensities ->
         exists OD time_delay_axis,
           getOD Demo.read_csv Demo.float Demo.str x
           = Ok (OD, time_delay_axis)
           /\ length OD = n /\ length time_delay_axis = n.
Proof.
  apply (completed_run_is_rectangular
           Demo.alpha Demo.curve_fit Demo.read_csv Demo.float Demo.str
           get_energy_axis get_intensities initial_world
           (fst (demo_main initial_world))).
  destruct demo_main_value as (h & out & calls & df & Hrun & _).
  unfold main in *. rewrite Hrun. reflexivity.
Defined.

Lemma completed_run_prints_and_fits_witness :
  let w' := fst (demo_main initial_world) in
  exists n,
    (forall x OD time_delay_axis,
        In x get_intensities ->
        getOD Demo.read_csv Demo.float Demo.str x
        = Ok (OD, time_delay_axis) ->
        length OD = n)
    /\ stdout w'
       = stdout initial_world
         ++ flat_map (fun x => map (fun s => (x, s)) (seq 0 n))
                     get_intensities
    /\ length (new_fits initial_world w')
       = (length get_intensities * (n + 1))%nat.
Proof.
  intros w'.
  apply (completed_run_prints_and_fits
           Demo.alpha Demo.curve_fit Demo.read_csv Demo.float Demo.str
           get_energy_axis get_intensities initial_world w').
  destruct demo_main_value as (h & out & calls & df & Hrun & _).
  unfold w', main in *. rewrite Hrun. reflexivity.
Defined.


(* ================================================================== *)
(** * Part V.  The phase wrap on binary64 doubles                      *)
(* ================================================================== *)

(** Every finite double is a whole number of units of [2^-1074], sums,
    differences and remainders of doubles are whole numbers of units too,
    and [binary_normalize] rounds such a number to one of its two
    neighbours on the grid of the format.  That is all the idempotence of
    [wrap] needs. *)

Section WrapOnDoubles.

Import Binary64.
Local Open Scope Z_scope.

(** ** Digits and shifts *)

Lemma digits2_pos_size (m : positive) : digits2_pos m = Pos.size m.
Proof. induction m; simpl; congruence. Qed.

Lemma digits2_log2 (m : positive) :
  Zpos (digits2_pos m) = Z.log2 (Zpos m) + 1.
Proof.
  rewrite digits2_pos_size. destruct m; simpl; lia.
Qed.

Lemma shl_iter (m d : positive) :
  Zpos (Pos.iter xO m d) = Zpos m * 2 ^ Zpos d.
Proof.
  induction d as [|d IH] using Pos.peano_ind.
  - cbn [Pos.iter]. rewrite Pos2Z.inj_xO. change (2 ^ 1) with 2. ring.
  - rewrite Pos.iter_succ, Pos2Z.inj_succ, Z.pow_succ_r by lia.
    rewrite Pos2Z.inj_xO, IH. ring.
Qed.

Lemma shl_align_spec (m : positive) (e e' : Z) :
  e' <= e ->
  Zpos (fst (shl_align m e e')) = Zpos m * 2 ^ (e - e')
  /\ snd (shl_align m e e') = e'.
Proof.
  intros H. unfold shl_align.
  destruct (e' - e) as [|d|d] eqn:Hd.
  - assert (e = e') by lia. subst. rewrite Z.sub_diag. simpl. lia.
  - lia.
  - simpl. rewrite shl_iter. replace (e - e') with (Zpos d) by lia. auto.
Qed.

Lemma iter_pos_iter {A : Type} (f : A -> A) (p : positive) (x : A) :
  iter_pos f p x = Pos.iter f x p.
Proof.
  revert x. induction p as [p IH|p IH|]; intros x; simpl.
  - rewrite !IH. now rewrite !Pos.iter_swap.
  - now rewrite !IH.
  - reflexivity.
Qed.

Lemma shr_1_spec (m : Z) (r s : bool) :
  0 <= m ->
  shr_1 (Build_shr_record m r s)
  = Build_shr_record (m / 2) (Z.odd m) (r || s).
Proof.
  intros Hm. rewrite <- Z.div2_div.
  destruct m as [|[p|p|]|p]; try lia; reflexivity.
Qed.

Lemma shr_iter (m : Z) (p : positive) :
  0 <= m ->
  let rec := Pos.iter shr_1 (Build_shr_record m false false) p in
  shr_m rec = m / 2 ^ Zpos p
  /\ (shr_r rec = true <-> 2 ^ Zpos p <= 2 * (m mod 2 ^ Zpos p))
  /\ (shr_r rec || shr_s rec = true <-> m mod 2 ^ Zpos p <> 0).
Proof.
  intros Hm. induction p as [|p IH] using Pos.peano_ind.
  - cbn [Pos.iter]. rewrite shr_1_spec by exact Hm. cbn [shr_m shr_r shr_s].
    change (2 ^ 1) with 2. rewrite orb_false_r.
    rewrite (Zmod_odd m). destruct (Z.odd m); split; try reflexivity;
      split; split; intros; try lia; try discriminate.
  - cbv zeta in *. rewrite Pos.iter_succ.
    destruct (Pos.iter shr_1 (Build_shr_record m false false) p)
      as [mk rk sk]. cbn [shr_m shr_r shr_s] in IH.
    destruct IH as (Hmk & Hrk & Hsk).
    assert (Hpow : 0 < 2 ^ Zpos p) by (apply Z.pow_pos_nonneg; lia).
    assert (Hmk0 : 0 <= mk) by (subst mk; apply Z.div_pos; lia).
    rewrite shr_1_spec by exact Hmk0. cbn [shr_m shr_r shr_s].
    rewrite Pos2Z.inj_succ, Z.pow_succ_r by lia.
    rewrite (Z.mul_comm 2 (2 ^ Zpos p)).
    rewrite Z.rem_mul_r by lia. rewrite <- Z.div_div by lia.
    rewrite <- Hmk. rewrite (Zmod_odd mk).
    pose proof (Z.mod_pos_bound m (2 ^ Zpos p) Hpow) as Hb.
    split; [reflexivity |].
    destruct (Z.odd mk); split.
    + split; intros; [lia | reflexivity].
    + split; intros; [lia | reflexivity].
    + split; intros; [discriminate | lia].
    + rewrite orb_false_l, Z.mul_0_r, Z.add_0_r. exact Hsk.
Qed.

(** ** Canonical mantissa-exponent pairs, in units *)

Lemma pow2_pos (k : Z) : 0 <= k -> 0 < 2 ^ k.
Proof. intros. apply Z.pow_pos_nonneg; lia. Qed.

Lemma pow2_split (a b : Z) : 0 <= a -> 0 <= b -> 2 ^ (a + b) = 2 ^ a * 2 ^ b.
Proof. intros. now rewrite Z.pow_add_r. Qed.

Lemma log2_lt (a b : Z) : 0 < a -> (a < 2 ^ b <-> Z.log2 a < b).
Proof. intros. now apply Z.log2_lt_pow2. Qed.

Lemma log2_le (a b : Z) : 0 < a -> (2 ^ b <= a <-> b <= Z.log2 a).
Proof. intros. now apply Z.log2_le_pow2. Qed.

Lemma log2_shift (m k : Z) :
  0 < m -> 0 <= k -> Z.log2 (m * 2 ^ k) = Z.log2 m + k.
Proof. intros. rewrite Z.log2_mul_pow2 by lia. lia. Qed.

Lemma grid_canon (m k : Z) :
  0 < m < 2 ^ 53 -> 0 <= k -> (k = 0 \/ 2 ^ 52 <= m) ->
  grid (m * 2 ^ k) = k.
Proof.
  intros Hm Hk Hc. unfold grid. rewrite log2_shift by lia.
  assert (Z.log2 m < 53) by (apply log2_lt; lia).
  destruct Hc as [-> | Hc].
  - lia.
  - assert (52 <= Z.log2 m) by (apply log2_le; lia). lia.
Qed.

Lemma of_units_canon (s : bool) (m k : Z) :
  0 < m < 2 ^ 53 -> 0 <= k -> (k = 0 \/ 2 ^ 52 <= m) ->
  of_units s (m * 2 ^ k)
  = if k <=? 2045 then S754_finite s (Z.to_pos m) (k - 1074)
    else S754_infinity s.
Proof.
  intros Hm Hk Hc. unfold of_units. rewrite grid_canon by assumption.
  pose proof (pow2_pos k Hk) as Hp.
  rewrite Z.div_mul by lia.
  destruct (Z.leb_spec k 2045) as [Hle | Hgt].
  - assert (Hlt : m * 2 ^ k < 2 ^ 2098).
    { replace 2098 with (53 + 2045) by lia. rewrite pow2_split by lia.
      assert (2 ^ k <= 2 ^ 2045) by (apply Z.pow_le_mono_r; lia).
      apply Z.lt_le_trans with (2 ^ 53 * 2 ^ k).
      - apply Z.mul_lt_mono_pos_r; lia.
      - apply Z.mul_le_mono_nonneg_l; lia. }
    apply Z.ltb_lt in Hlt. now rewrite Hlt.
  - assert (Hge : 2 ^ 2098 <= m * 2 ^ k).
    { destruct Hc as [-> | Hc]; [lia |].
      replace 2098 with (52 + 2046) by lia. rewrite pow2_split by lia.
      assert (2 ^ 2046 <= 2 ^ k) by (apply Z.pow_le_mono_r; lia).
      apply Z.le_trans with (2 ^ 52 * 2 ^ k).
      - apply Z.mul_le_mono_nonneg_l; lia.
      - apply Z.mul_le_mono_nonneg_r; lia. }
    apply Z.ltb_ge in Hge. now rewrite Hge.
Qed.

Lemma bounded_canon (m : positive) (e : Z) :
  bounded prec emax m e = true
  <-> (-1074 <= e <= 971
       /\ Zpos m < 2 ^ 53 /\ (e = -1074 \/ 2 ^ 52 <= Zpos m)).
Proof.
  unfold bounded, canonical_mantissa, fexp, emin, prec, emax.
  rewrite andb_true_iff, Z.eqb_eq, Z.leb_le, digits2_log2.
  change (3 - 1024 - 53) with (-1074). change (1024 - 53) with 971.
  pose proof (log2_lt (Zpos m) 53 ltac:(lia)) as H53.
  pose proof (log2_le (Zpos m) 52 ltac:(lia)) as H52.
  lia.
Qed.

Lemma finite_units (s : bool) (m : positive) (e : Z) :
  bounded prec emax m e = true ->
  of_units s (Zpos m * 2 ^ (e + 1074)) = S754_finite s m e.
Proof.
  intros H. apply bounded_canon in H as (He & Hm & Hc).
  rewrite of_units_canon by lia.
  destruct (Z.leb_spec (e + 1074) 2045); [| lia].
  rewrite Pos2Z.id. f_equal. lia.
Qed.

(** ** [binary_round] in units *)

Lemma bra_canonical (s : bool) (m : positive) (e : Z) :
  fexp prec emax (Zpos (digits2_pos m) + e) = e ->
  binary_round_aux prec emax s (Zpos m) e loc_Exact
  = if e <=? 971 then S754_finite s m e else S754_infinity s.
Proof.
  intros H. unfold binary_round_aux, shr_fexp.
  cbn [Zdigits2 shr_record_of_loc]. rewrite H, Z.sub_diag.
  cbn [shr shr_m loc_of_shr_record round_nearest_even Zdigits2
       shr_record_of_loc].
  rewrite H, Z.sub_diag. cbn [shr shr_m]. reflexivity.
Qed.

Lemma near_exact (v : Z) : 0 < v -> v mod 2 ^ grid v = 0 -> near v v.
Proof.
  intros Hv H. unfold near. cbv zeta.
  assert (Hg : 0 <= grid v) by (unfold grid; lia).
  pose proof (pow2_pos _ Hg).
  assert (Heq : v = v / 2 ^ grid v * 2 ^ grid v).
  { rewrite (Z.div_mod v (2 ^ grid v)) at 1 by lia. rewrite H. ring. }
  split; [left; exact Heq | intros _; exact Heq].
Qed.

Lemma binary_round_small (s : bool) (n : positive) (e : Z) :
  Zpos (digits2_pos n) <= 53 -> -1074 <= e ->
  near (Zpos n * 2 ^ (e + 1074)) (Zpos n * 2 ^ (e + 1074))
  /\ binary_round prec emax s n e = of_units s (Zpos n * 2 ^ (e + 1074)).
Proof.
  intros Hd He.
  set (d := Zpos (digits2_pos n)) in *.
  set (e' := fexp prec emax (d + e)).
  assert (He' : e' = Z.max (d + e - 53) (-1074)) by reflexivity.
  assert (Hle : e' <= e) by lia.
  destruct (shl_align_spec n e e' Hle) as [Hmz Hez].
  unfold binary_round. fold d. fold e'.
  destruct (shl_align n e e') as [mz ez]. cbn [fst snd] in Hmz, Hez.
  subst ez.
  assert (Hpe : 0 < 2 ^ (e - e')) by (apply pow2_pos; lia).
  assert (Hdz : Zpos (digits2_pos mz) = d + (e - e')).
  { rewrite digits2_log2, Hmz, log2_shift by lia.
    unfold d. rewrite digits2_log2. lia. }
  rewrite bra_canonical
    by (rewrite Hdz; replace (d + (e - e') + e') with (d + e) by lia;
        reflexivity).
  assert (Hv : Zpos n * 2 ^ (e + 1074) = Zpos mz * 2 ^ (e' + 1074)).
  { rewrite Hmz. replace (e + 1074) with ((e - e') + (e' + 1074)) by lia.
    rewrite pow2_split by lia. ring. }
  assert (Hmz53 : Zpos mz < 2 ^ 53)
    by (apply log2_lt; [lia | rewrite digits2_log2 in Hdz; lia]).
  assert (Hc : e' + 1074 = 0 \/ 2 ^ 52 <= Zpos mz).
  { destruct (Z.eq_dec e' (-1074)); [left; lia | right].
    apply log2_le; [lia | rewrite digits2_log2 in Hdz; lia]. }
  split.
  - apply near_exact; [apply Z.mul_pos_pos; [lia | apply pow2_pos; lia] |].
    rewrite Hv, grid_canon by lia. apply Z.mod_mul.
    pose proof (pow2_pos (e' + 1074)). lia.
  - rewrite Hv, of_units_canon by lia. rewrite Pos2Z.id.
    replace (e' + 1074 - 1074) with e' by lia.
    destruct (Z.leb_spec e' 971), (Z.leb_spec (e' + 1074) 2045);
      try lia; reflexivity.
Qed.

Lemma round_nearest_even_cases (q : Z) (r s : bool) :
  let m1 := round_nearest_even q
              (loc_of_shr_record (Build_shr_record q r s)) in
  (m1 = q \/ m1 = q + 1) /\ (r = false -> m1 = q).
Proof.
  destruct r, s; cbn; try destruct (Z.even q); split; auto;
    discriminate.
Qed.

Lemma binary_round_large (s : bool) (n : positive) (e : Z) :
  53 < Zpos (digits2_pos n) -> -1074 <= e ->
  exists r,
    near (Zpos n * 2 ^ (e + 1074)) r
    /\ binary_round prec emax s n e = of_units s r.
Proof.
  intros Hd He.
  set (d := Zpos (digits2_pos n)) in *.
  assert (Hlog : Z.log2 (Zpos n) = d - 1)
    by (unfold d; rewrite digits2_log2; lia).
  set (k := d - 53).
  assert (Hk : 0 < k) by (unfold k; lia).
  assert (Hfexp : fexp prec emax (d + e) = e + k)
    by (unfold fexp, emin, prec, emax, k; lia).
  (* no left shift *)
  unfold binary_round. fold d. rewrite Hfexp.
  assert (Hal : shl_align n e (e + k) = (n, e)).
  { unfold shl_align. replace (e + k - e) with k by lia.
    destruct k; try lia; reflexivity. }
  rewrite Hal.
  (* the right shift by k *)
  unfold binary_round_aux, shr_fexp at 1.
  cbn [Zdigits2 shr_record_of_loc]. fold d. rewrite Hfexp.
  replace (e + k - e) with k by lia.
  destruct k as [|p|p] eqn:Hkp; try lia.
  cbn [shr]. rewrite iter_pos_iter.
  destruct (shr_iter (Zpos n) p ltac:(lia)) as (Hq & Hr & _).
  destruct (Pos.iter shr_1 (Build_shr_record (Zpos n) false false) p)
    as [q r0 s0]. cbn [shr_m shr_r shr_s] in Hq, Hr.
  cbn [shr_m].
  destruct (round_nearest_even_cases q r0 s0) as [Hm1 Hdown].
  set (m1 := round_nearest_even q
               (loc_of_shr_record (Build_shr_record q r0 s0))) in *.
  assert (Hp : 0 < 2 ^ Zpos p) by (apply pow2_pos; lia).
  assert (Hnlo : 2 ^ (d - 1) <= Zpos n) by (apply log2_le; lia).
  assert (Hnhi : Zpos n < 2 ^ d) by (apply log2_lt; lia).
  assert (Hq52 : 2 ^ 52 <= q).
  { subst q. apply Z.div_le_lower_bound; [lia |].
    rewrite <- pow2_split by lia.
    replace (Zpos p + 52) with (d - 1) by lia. exact Hnlo. }
  assert (Hq53 : q < 2 ^ 53).
  { subst q. apply Z.div_lt_upper_bound; [lia |].
    rewrite <- pow2_split by lia.
    replace (Zpos p + 53) with d by lia. exact Hnhi. }
  (* the number of units and its grid *)
  set (v := Zpos n * 2 ^ (e + 1074)).
  set (g := e + 1074 + Zpos p).
  assert (Hpe : 0 < 2 ^ (e + 1074)) by (apply pow2_pos; lia).
  assert (Hv : 0 < v) by (unfold v; lia).
  assert (Hgrid : grid v = g).
  { unfold grid, v. rewrite log2_shift by lia. unfold g. lia. }
  assert (H2g : 2 ^ g = 2 ^ Zpos p * 2 ^ (e + 1074)).
  { unfold g. rewrite <- pow2_split by lia. f_equal. lia. }
  assert (Hvq : v / 2 ^ g = q).
  { unfold v. rewrite H2g, Z.div_mul_cancel_r by lia. now rewrite Hq. }
  assert (Hvr : v mod 2 ^ g = Zpos n mod 2 ^ Zpos p * 2 ^ (e + 1074)).
  { unfold v. rewrite H2g. now rewrite Z.mul_mod_distr_r by lia. }
  exists (m1 * 2 ^ g). split.
  { unfold near. fold v. rewrite Hgrid. cbv zeta. rewrite Hvq.
    split.
    - destruct Hm1 as [-> | ->]; auto.
    - intros Hlt. rewrite Hdown; [reflexivity |].
      destruct r0; [| reflexivity]. exfalso.
      rewrite Hvr, H2g in Hlt.
      assert (2 ^ Zpos p <= 2 * (Zpos n mod 2 ^ Zpos p))
        by (now apply Hr).
      nia. }
  (* the second normalization *)
  assert (Hg0 : 0 <= g) by (unfold g; lia).
  destruct (Z.eq_dec m1 (2 ^ 53)) as [Hov | Hnov].
  - (* the mantissa reached 2^53: one more shift *)
    rewrite Hov.
    replace (2 ^ 53 * 2 ^ g) with (2 ^ 52 * 2 ^ (g + 1))
      by (rewrite (pow2_split g 1) by lia; change (2 ^ 53) with (2 ^ 52 * 2);
          change (2 ^ 1) with 2; ring).
    rewrite of_units_canon by lia.
    unfold shr_fexp. change (Zdigits2 (2 ^ 53)) with 54.
    replace (fexp prec emax (54 + (e + Zpos p)) - (e + Zpos p)) with 1
      by (unfold fexp, emin, prec, emax; lia).
    cbn [shr shr_record_of_loc iter_pos].
    change (shr_1 (Build_shr_record (2 ^ 53) false false))
      with (Build_shr_record (2 ^ 52) false false).
    cbn [shr_m]. change (2 ^ 52) with (Zpos (Z.to_pos (2 ^ 52))).
    replace (g + 1 - 1074) with (e + Zpos p + 1) by (unfold g; lia).
    change (emax - prec) with 971.
    destruct (Z.leb_spec (e + Zpos p + 1) 971),
             (Z.leb_spec (g + 1) 2045); try (unfold g in *; lia);
      reflexivity.
  - assert (Hm53 : m1 < 2 ^ 53) by lia.
    assert (Hm52 : 2 ^ 52 <= m1) by lia.
    rewrite of_units_canon by lia.
    destruct m1 as [|pm|pm] eqn:Hpm; try lia.
    unfold shr_fexp. cbn [Zdigits2].
    assert (Hdm : Zpos (digits2_pos pm) = 53).
    { rewrite digits2_log2.
      assert (52 <= Z.log2 (Zpos pm)) by (apply log2_le; lia).
      assert (Z.log2 (Zpos pm) < 53) by (apply log2_lt; lia). lia. }
    rewrite Hdm.
    replace (fexp prec emax (53 + (e + Zpos p)) - (e + Zpos p)) with 0
      by (unfold fexp, emin, prec, emax; lia).
    cbn [shr shr_record_of_loc shr_m]. rewrite Pos2Z.id.
    replace (g - 1074) with (e + Zpos p) by (unfold g; lia).
    change (emax - prec) with 971.
    destruct (Z.leb_spec (e + Zpos p) 971),
             (Z.leb_spec g 2045); try (unfold g in *; lia);
      reflexivity.
Qed.

(** [binary_normalize] rounds a non-zero number of units to a neighbour on
    its grid. *)
Lemma binary_normalize_rounds (m e : Z) (sz : bool) :
  m <> 0 -> -1074 <= e ->
  rounds_to (m * 2 ^ (e + 1074)) (binary_normalize prec emax m e sz).
Proof.
  intros Hm He.
  assert (Hpe : 0 < 2 ^ (e + 1074)) by (apply pow2_pos; lia).
  assert (Hround : forall s n,
             exists r, near (Zpos n * 2 ^ (e + 1074)) r
                       /\ binary_round prec emax s n e = of_units s r).
  { intros s n.
    destruct (Z_le_gt_dec (Zpos (digits2_pos n)) 53) as [Hd | Hd].
    - destruct (binary_round_small s n e Hd He) as [Hn Hr]. eauto.
    - apply binary_round_large; lia. }
  split; [nia |].
  destruct m as [|n|n]; [lia | |]; cbn [binary_normalize].
  - destruct (Hround false n) as (r & Hn & Hr).
    exists r. rewrite Z.abs_eq by lia.
    assert (Hs : (Zpos n * 2 ^ (e + 1074) <? 0) = false)
      by (apply Z.ltb_ge; lia).
    rewrite Hs. auto.
  - destruct (Hround true n) as (r & Hn & Hr).
    exists r.
    replace (Z.abs (Zneg n * 2 ^ (e + 1074))) with (Zpos n * 2 ^ (e + 1074))
      by (rewrite Z.abs_neq by nia; rewrite <- Z.mul_opp_l; reflexivity).
    assert (Hs : (Zneg n * 2 ^ (e + 1074) <? 0) = true)
      by (apply Z.ltb_lt; nia).
    rewrite Hs. auto.
Qed.

(** ** Neighbours on the grid *)

Lemma grid_nonneg (v : Z) : 0 <= grid v.
Proof. unfold grid. lia. Qed.

Lemma pow2_le (a b : Z) : 0 <= a <= b -> 2 ^ a <= 2 ^ b.
Proof. intros. apply Z.pow_le_mono_r; lia. Qed.

Lemma pow2_divides (a b : Z) : 0 <= a <= b -> 2 ^ b = 2 ^ (b - a) * 2 ^ a.
Proof.
  intros. rewrite <- pow2_split by lia. f_equal. lia.
Qed.

(** The quotient of [v] by its grid has 53 bits when the grid is not the
    finest one. *)
Lemma grid_quotient (v : Z) :
  0 < v -> 0 < grid v ->
  2 ^ 52 <= v / 2 ^ grid v < 2 ^ 53.
Proof.
  intros Hv Hg. unfold grid in *.
  set (l := Z.log2 v) in *.
  assert (Hg' : Z.max (l + 1 - 53) 0 = l - 52) by lia.
  rewrite Hg' in *.
  pose proof (Z.log2_spec v Hv) as [Hlo Hhi]. fold l in Hlo, Hhi.
  assert (Hp : 0 < 2 ^ (l - 52)) by (apply pow2_pos; lia).
  split.
  - apply Z.div_le_lower_bound; [lia |].
    rewrite <- pow2_split by lia. replace (l - 52 + 52) with l by lia.
    exact Hlo.
  - apply Z.div_lt_upper_bound; [lia |].
    rewrite <- pow2_split by lia.
    replace (l - 52 + 53) with (Z.succ l) by lia. exact Hhi.
Qed.

Lemma near_canon (v r : Z) :
  0 < v -> near v r ->
  exists m k,
    r = m * 2 ^ k
    /\ 0 < m < 2 ^ 53 /\ 0 <= k /\ (k = 0 \/ 2 ^ 52 <= m).
Proof.
  intros Hv [Hr Hdown]. cbv zeta in *.
  pose proof (grid_nonneg v) as Hg.
  destruct (Z.eq_dec (grid v) 0) as [Hg0 | Hg0].
  - rewrite Hg0 in *. change (2 ^ 0) with 1 in *.
    rewrite Z.mod_1_r, Z.div_1_r in *.
    rewrite Hdown by lia. exists v, 0. change (2 ^ 0) with 1.
    split; [ring |]. split; [| lia]. split; [lia |].
    apply log2_lt; [lia |]. unfold grid in Hg0. lia.
  - destruct (grid_quotient v Hv ltac:(lia)) as [Hq52 Hq53].
    set (q := v / 2 ^ grid v) in *.
    destruct Hr as [-> | ->].
    + exists q, (grid v). repeat split; lia.
    + destruct (Z.eq_dec (q + 1) (2 ^ 53)) as [Hov | Hnov].
      * exists (2 ^ 52), (grid v + 1). split.
        { rewrite Hov, (pow2_split (grid v) 1) by lia.
          change (2 ^ 53) with (2 ^ 52 * 2). change (2 ^ 1) with 2. ring. }
        repeat split; lia.
      * exists (q + 1), (grid v). repeat split; lia.
Qed.

(** A number that fits in 53 bits at some exponent is its own rounding. *)
Lemma near_fits (v r m k : Z) :
  v = m * 2 ^ k -> 0 < m < 2 ^ 53 -> 0 <= k ->
  near v r -> r = v.
Proof.
  intros Hvm Hm Hk [Hr Hdown]. cbv zeta in *.
  pose proof (pow2_pos k Hk) as Hpk.
  assert (Hv : 0 < v) by nia.
  pose proof (grid_nonneg v) as Hg.
  assert (Hgk : grid v <= k).
  { unfold grid. rewrite Hvm, log2_shift by lia.
    assert (Z.log2 m < 53) by (apply log2_lt; lia). lia. }
  pose proof (pow2_pos _ Hg) as Hpg.
  assert (Hmod : v mod 2 ^ grid v = 0).
  { set (g := grid v) in *.
    rewrite Hvm, (pow2_divides g k) by lia.
    rewrite Z.mul_assoc. apply Z.mod_mul. lia. }
  rewrite Hdown by lia.
  pose proof (Z.div_mod v (2 ^ grid v) ltac:(lia)) as Hdm.
  rewrite Hmod in Hdm. lia.
Qed.

(** Rounding does not cross a double: a double above the number is above
    its neighbours, and likewise below. *)
Lemma near_le (v r m k : Z) :
  0 < v -> near v r ->
  0 < m < 2 ^ 53 -> 0 <= k -> (k = 0 \/ 2 ^ 52 <= m) ->
  v <= m * 2 ^ k -> r <= m * 2 ^ k.
Proof.
  intros Hv [Hr Hdown] Hm Hk Hc Hle. cbv zeta in *.
  pose proof (grid_nonneg v) as Hg.
  pose proof (pow2_pos _ Hg) as Hpg.
  pose proof (pow2_pos k Hk) as Hpk.
  set (g := grid v) in *. set (q := v / 2 ^ g) in *.
  pose proof (Z.div_mod v (2 ^ g) ltac:(lia)) as Hdm. fold q in Hdm.
  pose proof (Z.mod_pos_bound v (2 ^ g) Hpg) as Hb.
  destruct (Z.eq_dec (v mod 2 ^ g) 0) as [H0 | H0].
  { rewrite Hdown by lia. lia. }
  assert (Hrle : r <= (q + 1) * 2 ^ g) by (destruct Hr; subst r; nia).
  destruct (Z_le_gt_dec g k) as [Hgk | Hgk].
  - (* the bound is on the grid *)
    rewrite (pow2_divides g k) in * by lia.
    set (h := m * 2 ^ (k - g)) in *.
    assert (Hh : m * (2 ^ (k - g) * 2 ^ g) = h * 2 ^ g) by (unfold h; ring).
    rewrite Hh in *.
    assert (q + 1 <= h) by nia.
    nia.
  - (* the bound is below the binade of [v] *)
    exfalso.
    assert (Hg0 : 0 < g) by lia.
    destruct (grid_quotient v Hv Hg0) as [Hq52 _]. fold g q in Hq52.
    assert (2 ^ k * 2 <= 2 ^ g).
    { rewrite (pow2_divides k g) by lia.
      assert (2 ^ 1 <= 2 ^ (g - k)) by (apply pow2_le; lia).
      change (2 ^ 1) with 2 in *. nia. }
    assert (m * 2 ^ k < 2 ^ 52 * 2 ^ g).
    { apply Z.lt_le_trans with (2 ^ 53 * 2 ^ k); [nia |].
      change (2 ^ 53) with (2 ^ 52 * 2). nia. }
    nia.
Qed.

Lemma near_ge (v r m k : Z) :
  0 < v -> near v r ->
  0 < m < 2 ^ 53 -> 0 <= k ->
  m * 2 ^ k <= v -> m * 2 ^ k <= r.
Proof.
  intros Hv [Hr Hdown] Hm Hk Hle. cbv zeta in *.
  pose proof (grid_nonneg v) as Hg.
  pose proof (pow2_pos _ Hg) as Hpg.
  pose proof (pow2_pos k Hk) as Hpk.
  set (g := grid v) in *. set (q := v / 2 ^ g) in *.
  pose proof (Z.div_mod v (2 ^ g) ltac:(lia)) as Hdm. fold q in Hdm.
  pose proof (Z.mod_pos_bound v (2 ^ g) Hpg) as Hb.
  assert (Hrge : q * 2 ^ g <= r) by (destruct Hr; subst r; nia).
  destruct (Z_le_gt_dec g k) as [Hgk | Hgk].
  - rewrite (pow2_divides g k) in * by lia.
    set (h := m * 2 ^ (k - g)) in *.
    assert (Hh : m * (2 ^ (k - g) * 2 ^ g) = h * 2 ^ g) by (unfold h; ring).
    rewrite Hh in *.
    assert (h <= q) by nia.
    nia.
  - assert (Hg0 : 0 < g) by lia.
    destruct (grid_quotient v Hv Hg0) as [Hq52 _]. fold g q in Hq52.
    assert (2 ^ k * 2 <= 2 ^ g).
    { rewrite (pow2_divides k g) by lia.
      assert (2 ^ 1 <= 2 ^ (g - k)) by (apply pow2_le; lia).
      change (2 ^ 1) with 2 in *. nia. }
    assert (m * 2 ^ k < 2 ^ 52 * 2 ^ g).
    { apply Z.lt_le_trans with (2 ^ 53 * 2 ^ k); [nia |].
      change (2 ^ 53) with (2 ^ 52 * 2). nia. }
    nia.
Qed.

(** ** Roundings as doubles *)

Lemma of_units_finite (s : bool) (r m k : Z) :
  r = m * 2 ^ k ->
  0 < m < 2 ^ 53 -> 0 <= k -> (k = 0 \/ 2 ^ 52 <= m) ->
  r < 2 ^ 2098 ->
  exists m' e',
    of_units s r = S754_finite s m' e'
    /\ bounded prec emax m' e' = true
    /\ Zpos m' * 2 ^ (e' + 1074) = r.
Proof.
  intros -> Hm Hk Hc Hlt.
  assert (Hk2045 : k <= 2045).
  { destruct (Z_le_gt_dec k 2045) as [H | H]; [exact H | exfalso].
    destruct Hc as [-> | Hc]; [lia |].
    assert (2 ^ 2046 <= 2 ^ k) by (apply pow2_le; lia).
    assert (2 ^ 52 * 2 ^ 2046 <= m * 2 ^ k) by nia.
    change (2 ^ 52 * 2 ^ 2046) with (2 ^ 2098) in *. lia. }
  rewrite of_units_canon by assumption.
  destruct (Z.leb_spec k 2045); [| lia].
  exists (Z.to_pos m), (k - 1074).
  split; [reflexivity |].
  rewrite Z2Pos.id by lia.
  replace (k - 1074 + 1074) with k by lia.
  split; [| reflexivity].
  apply bounded_canon. rewrite Z2Pos.id by lia. lia.
Qed.

(** A rounding of a number between two doubles is a finite double between
    them, with the sign of the number. *)
Lemma rounds_between (v : Z) (f : spec_float) (ml kl mh kh : Z) :
  rounds_to v f ->
  0 < ml < 2 ^ 53 -> 0 <= kl ->
  0 < mh < 2 ^ 53 -> 0 <= kh -> (kh = 0 \/ 2 ^ 52 <= mh) ->
  mh * 2 ^ kh < 2 ^ 2098 ->
  ml * 2 ^ kl <= Z.abs v <= mh * 2 ^ kh ->
  exists m e,
    f = S754_finite (v <? 0) m e
    /\ bounded prec emax m e = true
    /\ ml * 2 ^ kl <= Zpos m * 2 ^ (e + 1074) <= mh * 2 ^ kh.
Proof.
  intros (Hv & r & Hnear & ->) Hml Hkl Hmh Hkh Hch Hfin [Hlo Hhi].
  assert (Hav : 0 < Z.abs v) by lia.
  pose proof (near_le _ _ _ _ Hav Hnear Hmh Hkh Hch Hhi) as Hrhi.
  pose proof (near_ge _ _ _ _ Hav Hnear Hml Hkl Hlo) as Hrlo.
  destruct (near_canon _ _ Hav Hnear) as (m & k & Hr & Hm & Hk & Hc).
  destruct (of_units_finite (v <? 0) r m k Hr Hm Hk Hc ltac:(lia))
    as (m' & e' & Hf & Hb & Hu).
  exists m', e'. rewrite Hu. auto.
Qed.

(** A rounding of a number that fits in 53 bits is that number. *)
Lemma rounds_exact (v : Z) (f : spec_float) (m k : Z) :
  rounds_to v f ->
  Z.abs v = m * 2 ^ k -> 0 < m < 2 ^ 53 -> 0 <= k ->
  f = of_units (v <? 0) (Z.abs v).
Proof.
  intros (Hv & r & Hnear & ->) Hvm Hm Hk.
  now rewrite (near_fits _ _ _ _ Hvm Hm Hk Hnear).
Qed.

(** A rounding of the value of a double is that double. *)
Lemma rounds_double (v : Z) (f : spec_float) (s : bool) (m : positive)
      (e : Z) :
  rounds_to v f ->
  bounded prec emax m e = true ->
  v = signed s (Zpos m * 2 ^ (e + 1074)) ->
  f = S754_finite s m e.
Proof.
  intros Hr Hb Hv.
  pose proof (proj1 (bounded_canon m e) Hb) as (He & Hm & Hc).
  assert (Hp : 0 < 2 ^ (e + 1074)) by (apply pow2_pos; lia).
  assert (Habs : Z.abs v = Zpos m * 2 ^ (e + 1074))
    by (subst v; destruct s; cbn [signed]; nia).
  rewrite (rounds_exact v f (Zpos m) (e + 1074) Hr Habs) by lia.
  rewrite Habs, finite_units by exact Hb.
  f_equal. subst v. destruct s; cbn [signed].
  - apply Z.ltb_lt. nia.
  - apply Z.ltb_ge. nia.
Qed.

(** ** The operations of [wrap], in units *)

Lemma signed_mul (s : bool) (a c : Z) : signed s a * c = signed s (a * c).
Proof. destruct s; cbn [signed]; ring. Qed.

Lemma units_finite (s : bool) (m : positive) (e : Z) :
  units (S754_finite s m e) = signed s (Zpos m * 2 ^ (e + 1074)).
Proof. reflexivity. Qed.

Lemma aligned_units (m : positive) (e ez : Z) :
  -1074 <= ez <= e ->
  Zpos (fst (shl_align m e ez)) * 2 ^ (ez + 1074)
  = Zpos m * 2 ^ (e + 1074).
Proof.
  intros H. assert (Hle : ez <= e) by lia.
  destruct (shl_align_spec m e ez Hle) as [-> _].
  replace (e + 1074) with ((e - ez) + (ez + 1074)) by lia.
  rewrite (pow2_split (e - ez) (ez + 1074)) by lia. ring.
Qed.

Lemma bounded_exponent (m : positive) (e : Z) :
  bounded prec emax m e = true -> -1074 <= e <= 971.
Proof. intros H. apply bounded_canon in H. lia. Qed.

Lemma add_finite (sx sy : bool) (mx my : positive) (ex ey : Z) :
  bounded prec emax mx ex = true ->
  bounded prec emax my ey = true ->
  let x := S754_finite sx mx ex in
  let y := S754_finite sy my ey in
  (units x + units y = 0 /\ add x y = S754_zero false)
  \/ rounds_to (units x + units y) (add x y).
Proof.
  intros Hx Hy x y.
  pose proof (bounded_exponent _ _ Hx). pose proof (bounded_exponent _ _ Hy).
  unfold add, x, y, SFadd. cbv zeta.
  set (ez := Z.min ex ey).
  set (m := cond_Zopp sx (Zpos (fst (shl_align mx ex ez)))
            + cond_Zopp sy (Zpos (fst (shl_align my ey ez)))).
  assert (Hm : m * 2 ^ (ez + 1074)
               = units (S754_finite sx mx ex) + units (S754_finite sy my ey)).
  { unfold m. rewrite !units_finite, Z.mul_add_distr_r.
    change cond_Zopp with signed. rewrite !signed_mul.
    rewrite !aligned_units by (unfold ez; lia). reflexivity. }
  rewrite <- Hm.
  destruct (Z.eq_dec m 0) as [Hz | Hz].
  - left. rewrite Hz. auto.
  - right. apply binary_normalize_rounds; [exact Hz | unfold ez; lia].
Qed.

Lemma sub_finite (sx sy : bool) (mx my : positive) (ex ey : Z) :
  bounded prec emax mx ex = true ->
  bounded prec emax my ey = true ->
  let x := S754_finite sx mx ex in
  let y := S754_finite sy my ey in
  (units x - units y = 0 /\ sub x y = S754_zero false)
  \/ rounds_to (units x - units y) (sub x y).
Proof.
  intros Hx Hy x y.
  pose proof (bounded_exponent _ _ Hx). pose proof (bounded_exponent _ _ Hy).
  unfold sub, x, y, SFsub. cbv zeta.
  set (ez := Z.min ex ey).
  set (m := cond_Zopp sx (Zpos (fst (shl_align mx ex ez)))
            - cond_Zopp sy (Zpos (fst (shl_align my ey ez)))).
  assert (Hm : m * 2 ^ (ez + 1074)
               = units (S754_finite sx mx ex) - units (S754_finite sy my ey)).
  { unfold m. rewrite !units_finite, Z.mul_sub_distr_r.
    change cond_Zopp with signed. rewrite !signed_mul.
    rewrite !aligned_units by (unfold ez; lia). reflexivity. }
  rewrite <- Hm.
  destruct (Z.eq_dec m 0) as [Hz | Hz].
  - left. rewrite Hz. auto.
  - right. apply binary_normalize_rounds; [exact Hz | unfold ez; lia].
Qed.

Lemma two_pi_double :
  mul two pi = S754_finite false 7074237752028440 (-50).
Proof. vm_compute. reflexivity. Qed.

Lemma units_inj (s : bool) (m m' : positive) (e e' : Z) :
  bounded prec emax m e = true ->
  bounded prec emax m' e' = true ->
  Zpos m * 2 ^ (e + 1074) = Zpos m' * 2 ^ (e' + 1074) ->
  S754_finite s m e = S754_finite s m' e'.
Proof.
  intros H H' Heq.
  rewrite <- (finite_units s m e H), <- (finite_units s m' e' H'), Heq.
  reflexivity.
Qed.

Lemma negative_finite (s : bool) (m : positive) (e : Z) :
  negative (S754_finite s m e) = s.
Proof. destruct s; reflexivity. Qed.

(** ** The remainder by [2*pi] *)

Lemma np_mod_below_two_pi (m : positive) (e : Z) :
  bounded prec emax m e = true ->
  Zpos m * 2 ^ (e + 1074) < 7074237752028440 * 2 ^ 1024 ->
  np_mod (S754_finite false m e) (S754_finite false 7074237752028440 (-50))
  = S754_finite false m e.
Proof.
  intros Hb Hlt. pose proof (bounded_exponent _ _ Hb) as He.
  assert (Hf : fmod (S754_finite false m e)
                    (S754_finite false 7074237752028440 (-50))
               = S754_finite false m e).
  { unfold fmod. cbv zeta. set (e0 := Z.min e (-50)).
    set (a := Zpos m * 2 ^ (e - e0)).
    set (b := 7074237752028440 * 2 ^ (-50 - e0)).
    assert (Hp0 : 0 < 2 ^ (e0 + 1074)) by (apply pow2_pos; unfold e0; lia).
    assert (Ha : a * 2 ^ (e0 + 1074) = Zpos m * 2 ^ (e + 1074)).
    { unfold a. replace (e + 1074) with ((e - e0) + (e0 + 1074)) by lia.
      rewrite (pow2_split (e - e0)) by (unfold e0; lia). ring. }
    assert (Hb' : b * 2 ^ (e0 + 1074) = 7074237752028440 * 2 ^ 1024).
    { unfold b. replace 1024 with ((-50 - e0) + (e0 + 1074)) by lia.
      rewrite (pow2_split (-50 - e0)) by (unfold e0; lia). ring. }
    assert (Hapos : 0 < a).
    { unfold a. apply Z.mul_pos_pos; [lia |].
      apply pow2_pos. unfold e0; lia. }
    assert (Hab : a < b) by nia.
    rewrite Z.rem_small by lia. cbn [signed].
    apply (rounds_double (a * 2 ^ (e0 + 1074)) _ false m e).
    - apply binary_normalize_rounds; [lia | unfold e0; lia].
    - exact Hb.
    - cbn [signed]. exact Ha. }
  unfold np_mod. cbv zeta. rewrite Hf. reflexivity.
Qed.

(** The remainder of a finite double is [+0] or a positive double of at
    most [2*pi]. *)
Lemma np_mod_two_pi_range (t : spec_float) :
  finite t = true ->
  let r := np_mod t (S754_finite false 7074237752028440 (-50)) in
  r = S754_zero false
  \/ exists m e,
      r = S754_finite false m e
      /\ bounded prec emax m e = true
      /\ Zpos m * 2 ^ (e + 1074) <= 7074237752028440 * 2 ^ 1024.
Proof.
  intros Ht r. subst r.
  destruct t as [s | s | | st mt et]; try discriminate Ht.
  { left. reflexivity. }
  cbn [finite] in Ht. pose proof (bounded_exponent _ _ Ht) as He.
  pose proof (proj1 (bounded_canon _ _) Ht) as (_ & Hmt & _).
  unfold np_mod, fmod. cbv zeta.
  set (e0 := Z.min et (-50)).
  set (a := Zpos mt * 2 ^ (et - e0)).
  set (b := 7074237752028440 * 2 ^ (-50 - e0)).
  assert (Hp0 : 0 < 2 ^ (e0 + 1074)) by (apply pow2_pos; unfold e0; lia).
  assert (Hb' : b * 2 ^ (e0 + 1074) = 7074237752028440 * 2 ^ 1024).
  { unfold b. replace 1024 with ((-50 - e0) + (e0 + 1074)) by lia.
    rewrite (pow2_split (-50 - e0)) by (unfold e0; lia). ring. }
  assert (Hapos : 0 < a).
  { unfold a. apply Z.mul_pos_pos; [lia |].
    apply pow2_pos. unfold e0; lia. }
  assert (Hbpos : 0 < b).
  { unfold b. apply Z.mul_pos_pos; [lia |].
    apply pow2_pos. unfold e0; lia. }
  rewrite Z.rem_mod_nonneg by lia.
  pose proof (Z.mod_pos_bound a b Hbpos) as Hc.
  set (c := a mod b) in *.
  assert (Hc53 : c < 2 ^ 53).
  { destruct (Z_le_gt_dec (-50) et) as [Hge | Hlt].
    - assert (He0 : e0 = -50) by (unfold e0; lia).
      unfold b in Hc. rewrite He0 in Hc.
      change (2 ^ (-50 - -50)) with 1 in Hc. lia.
    - assert (He0 : e0 = et) by (unfold e0; lia).
      assert (Ha : a = Zpos mt).
      { unfold a. rewrite He0, Z.sub_diag. change (2 ^ 0) with 1. ring. }
      assert (c <= a) by (apply Z.mod_le; lia). lia. }
  destruct (Z.eq_dec c 0) as [Hc0 | Hc0].
  { rewrite Hc0. left. destruct st; reflexivity. }
  assert (Hr : rounds_to (signed st c * 2 ^ (e0 + 1074))
                         (binary_normalize prec emax (signed st c) e0 st)).
  { apply binary_normalize_rounds; [| unfold e0; lia].
    destruct st; cbn [signed]; lia. }
  assert (Habs : Z.abs (signed st c * 2 ^ (e0 + 1074))
                 = c * 2 ^ (e0 + 1074)).
  { destruct st; cbn [signed]; nia. }
  assert (Hsign : (signed st c * 2 ^ (e0 + 1074) <? 0) = st).
  { destruct st; cbn [signed]; [apply Z.ltb_lt | apply Z.ltb_ge]; nia. }
  destruct (rounds_between _ _ 1 0 7074237752028440 1024 Hr)
    as (m & e & Hf & Hbd & Hlo & Hhi); try lia.
  { rewrite Habs. change (2 ^ 0) with 1. nia. }
  rewrite Hsign in Hf. rewrite Hf.
  destruct st; cbn [xorb negative SFltb SFcompare].
  - (* a negative remainder: NumPy adds the divisor *)
    destruct (add_finite true false m 7074237752028440 e (-50) Hbd
                         eq_refl) as [[_ Hz] | Hadd].
    + left. exact Hz.
    + right. rewrite !units_finite in Hadd. cbn [signed] in Hadd.
      change (-50 + 1074) with 1024 in Hadd.
      destruct (rounds_between _ _ 1 0 7074237752028440 1024 Hadd)
        as (m' & e' & Hf' & Hbd' & _ & Hhi'); try lia.
      { destruct Hadd as [Hne _]. change (2 ^ 0) with 1. lia. }
      exists m', e'. split; [| auto].
      rewrite Hf'. f_equal. apply Z.ltb_ge. lia.
  - right. exists m, e. auto.
Qed.

(** ** The sum [x + pi] does not overflow *)

Lemma units_bounded (m : positive) (e : Z) :
  bounded prec emax m e = true ->
  0 < Zpos m * 2 ^ (e + 1074) <= (2 ^ 53 - 1) * 2 ^ 2045.
Proof.
  intros H. apply bounded_canon in H as (He & Hm & _).
  assert (0 < 2 ^ (e + 1074)) by (apply pow2_pos; lia).
  assert (2 ^ (e + 1074) <= 2 ^ 2045) by (apply pow2_le; lia).
  split; [lia |].
  apply Z.mul_le_mono_nonneg; lia.
Qed.

Lemma add_pi_finite (x : spec_float) :
  finite x = true -> finite (add (add x pi) zero) = true.
Proof.
  intros Hx. destruct x as [s | s | | sx mx ex]; try discriminate Hx.
  { reflexivity. }
  cbn [finite] in Hx.
  destruct (add_finite sx false mx 7074237752028440 ex (-51) Hx eq_refl)
    as [[_ Hz] | Hadd].
  { unfold pi. rewrite Hz. reflexivity. }
  rewrite !units_finite in Hadd.
  cbn [signed] in Hadd. change (-51 + 1074) with 1023 in Hadd.
  pose proof (units_bounded _ _ Hx) as [Hx0 Hxmax].
  pose proof (proj1 (bounded_canon _ _) Hx) as (He & Hm & _).
  set (X := Zpos mx * 2 ^ (ex + 1074)) in *.
  assert (Hcase : Z.abs (signed sx X + 7074237752028440 * 2 ^ 1023)
                  <= (2 ^ 53 - 1) * 2 ^ 2045
                  \/ (sx = false /\ mx = 9007199254740991%positive
                      /\ ex = 971)).
  { destruct sx; cbn [signed].
    - left. lia.
    - destruct (Z_le_gt_dec (X + 7074237752028440 * 2 ^ 1023)
                            ((2 ^ 53 - 1) * 2 ^ 2045)) as [Hle | Hgt];
        [left; lia | right].
      split; [reflexivity |].
      destruct (Z_le_gt_dec (ex + 1074) 2044) as [Hk | Hk].
      + exfalso.
        assert (2 ^ (ex + 1074) <= 2 ^ 2044) by (apply pow2_le; lia).
        assert (X <= (2 ^ 53 - 1) * 2 ^ 2044)
          by (unfold X; apply Z.mul_le_mono_nonneg; lia).
        lia.
      + assert (Hex : ex = 971) by lia. subst ex.
        change (971 + 1074) with 2045 in *. unfold X in Hgt.
        split; [| reflexivity].
        destruct (Z_le_gt_dec (Zpos mx) (2 ^ 53 - 2)) as [Hsmall | Hbig];
          [exfalso | apply Pos2Z.inj; change (Zpos 9007199254740991) with (2 ^ 53 - 1); clear - Hm Hbig; lia].
        assert (Zpos mx * 2 ^ 2045 <= (2 ^ 53 - 2) * 2 ^ 2045)
          by (apply Z.mul_le_mono_nonneg_r; lia).
        lia. }
  destruct Hcase as [Hle | (-> & -> & ->)].
  - destruct (rounds_between _ _ 1 0 (2 ^ 53 - 1) 2045 Hadd)
      as (m & e & Hf & Hbd & _); try lia.
    { destruct Hadd as [Hne _]. change (2 ^ 0) with 1. lia. }
    unfold pi. rewrite Hf. cbn [add SFadd zero finite]. exact Hbd.
  - vm_compute. reflexivity.
Qed.

(** ** Idempotence from the remainder on *)

Lemma canon_exponent_lo (m k a : Z) :
  0 < m < 2 ^ 53 -> 0 <= k -> 0 <= a ->
  2 ^ a <= m * 2 ^ k -> a - 52 <= k.
Proof.
  intros Hm Hk Ha H.
  assert (Hl : a <= Z.log2 (m * 2 ^ k)).
  { apply log2_le; [| exact H].
    apply Z.mul_pos_pos; [lia | apply pow2_pos; lia]. }
  rewrite log2_shift in Hl by lia.
  assert (Z.log2 m < 53) by (apply log2_lt; lia). lia.
Qed.

Lemma canon_exponent_hi (m k b : Z) :
  0 < m -> 2 ^ 52 <= m -> 0 <= k ->
  m * 2 ^ k < 2 ^ b -> k <= b - 53.
Proof.
  intros Hm0 Hm Hk H.
  assert (Hl : Z.log2 (m * 2 ^ k) < b).
  { apply log2_lt; [| exact H].
    apply Z.mul_pos_pos; [lia | apply pow2_pos; lia]. }
  rewrite log2_shift in Hl by lia.
  assert (52 <= Z.log2 m) by (apply log2_le; lia). lia.
Qed.

Lemma signed_abs (v : Z) : signed (v <? 0) (Z.abs v) = v.
Proof.
  destruct (Z.ltb_spec v 0); cbn [signed]; lia.
Qed.

(** A number that fits in 53 bits at some exponent is a double. *)
Lemma fits_finite (s : bool) (v m k : Z) :
  v = m * 2 ^ k -> 0 < m < 2 ^ 53 -> 0 <= k -> v < 2 ^ 2098 ->
  exists m' e',
    of_units s v = S754_finite s m' e'
    /\ bounded prec emax m' e' = true
    /\ Zpos m' * 2 ^ (e' + 1074) = v.
Proof.
  intros Hv Hm Hk Hlt.
  pose proof (pow2_pos k Hk) as Hpk.
  assert (Hv0 : 0 < v) by nia.
  assert (Hnear : near v v).
  { apply near_exact; [exact Hv0 |].
    pose proof (grid_nonneg v) as Hg.
    assert (Hgk : grid v <= k).
    { unfold grid. rewrite Hv, log2_shift by lia.
      assert (Z.log2 m < 53) by (apply log2_lt; lia). lia. }
    set (g := grid v) in *.
    rewrite Hv, (pow2_divides g k) by lia.
    rewrite Z.mul_assoc. apply Z.mod_mul.
    pose proof (pow2_pos g Hg). lia. }
  destruct (near_canon v v Hv0 Hnear) as (m1 & k1 & Hr & Hm1 & Hk1 & Hc).
  exact (of_units_finite s v m1 k1 Hr Hm1 Hk1 Hc Hlt).
Qed.

(** From a remainder [r] below [2*pi] on, [wrap] returns a finite double
    [y], and the remainder and the result it computes for [y] give [y]
    again. *)
Lemma wrap_from_remainder (m : positive) (e : Z) :
  bounded prec emax m e = true ->
  Zpos m * 2 ^ (e + 1074) < 7074237752028440 * 2 ^ 1024 ->
  let two_pi := S754_finite false 7074237752028440 (-50) in
  let y := sub (sub (S754_finite false m e) pi) zero in
  finite y = true
  /\ sub (sub (np_mod (add (add y pi) zero) two_pi) pi) zero = y.
Proof.
  intros Hb Hlt two_pi. cbv zeta.
  pose proof (units_bounded _ _ Hb) as [Hr0 _].
  pose proof (proj1 (bounded_canon _ _) Hb) as (He & Hm & Hc).
  set (rho := Zpos m * 2 ^ (e + 1074)) in *.
  set (r := S754_finite false m e).
  set (y1 := sub r pi).
  assert (Hsub : (rho - 7074237752028440 * 2 ^ 1023 = 0
                  /\ y1 = S754_zero false)
                 \/ rounds_to (rho - 7074237752028440 * 2 ^ 1023) y1)
    by exact (sub_finite false false m 7074237752028440 e (-51) Hb eq_refl).
  assert (Hminus_pi :
            sub (sub (np_mod (add (add (S754_finite true 7074237752028440
                                                    (-51)) pi) zero)
                             two_pi) pi) zero
            = S754_finite true 7074237752028440 (-51))
    by (vm_compute; reflexivity).
  destruct Hsub as [[_ Hz] | Hsub].
  { rewrite Hz. split; vm_compute; reflexivity. }
  set (v := rho - 7074237752028440 * 2 ^ 1023) in *.
  destruct (Z_le_gt_dec (7074237752028440 * 2 ^ 1023) (2 * rho))
    as [Hhigh | Hlow].
  - (* r >= pi/2: the subtraction is exact *)
    assert (Hk1 : 1074 - 52 <= e + 1074).
    { apply (canon_exponent_lo (Zpos m)); try lia; fold rho; lia. }
    assert (Hm52 : 2 ^ 52 <= Zpos m) by lia.
    assert (Hk2 : e + 1074 <= 1077 - 53).
    { apply (canon_exponent_hi (Zpos m)); try lia; fold rho; lia. }
    assert (Hfits : exists m' k',
               Z.abs v = m' * 2 ^ k' /\ 0 < m' < 2 ^ 53 /\ 0 <= k').
    { destruct Hsub as [Hv0 _].
      assert (Hcases : e = -52 \/ e = -51 \/ e = -50) by lia.
      clear - Hcases Hv0 Hhigh Hlt Hm Hm52.
      destruct Hcases as [-> | [-> | ->]]; unfold v, rho in *.
      - change (-52 + 1074) with 1022 in *.
        exists (2 * 7074237752028440 - Zpos m), 1022. lia.
      - change (-51 + 1074) with 1023 in *.
        exists (Z.abs (Zpos m - 7074237752028440)), 1023. lia.
      - change (-50 + 1074) with 1024 in *.
        exists (2 * Zpos m - 7074237752028440), 1023. lia. }
    destruct Hfits as (m' & k' & Habs & Hm' & Hk').
    pose proof (rounds_exact v _ m' k' Hsub Habs Hm' Hk') as Hy1.
    destruct (fits_finite (v <? 0) (Z.abs v) m' k' Habs Hm' Hk')
      as (m1 & e1 & Hof & Hb1 & Hu1).
    { unfold v. lia. }
    rewrite Hof in Hy1.
    set (y := S754_finite (v <? 0) m1 e1) in *.
    assert (Hy : sub y1 zero = y) by (rewrite Hy1; reflexivity).
    rewrite Hy.
    split; [exact Hb1 |].
    (* the sum y + pi is r again *)
    assert (Hadd : add y pi = r).
    { pose proof (add_finite (v <? 0) false m1 7074237752028440 e1 (-51)
                             Hb1 eq_refl) as Hadd.
      cbv zeta in Hadd. rewrite !units_finite, Hu1, signed_abs in Hadd.
      cbn [signed] in Hadd. change (-51 + 1074) with 1023 in Hadd.
      destruct Hadd as [[H0 _] | Hadd].
      - unfold v in H0. lia.
      - apply (rounds_double _ _ false m e Hadd Hb).
        cbn [signed]. fold rho. unfold v. lia. }
    rewrite Hadd.
    change (add r zero) with r.
    unfold two_pi, r. rewrite (np_mod_below_two_pi m e Hb Hlt).
    exact Hy.
  - (* r < pi/2: the difference rounds to a double in [-pi, -pi/2] *)
    assert (Hv : v < 0) by (unfold v; lia).
    destruct (rounds_between v _ 7074237752028440 1022
                             7074237752028440 1023 Hsub)
      as (m1 & e1 & Hy1 & Hb1 & Hlo & Hhi); try lia.
    apply Z.ltb_lt in Hv. rewrite Hv in Hy1.
    set (y := S754_finite true m1 e1) in *.
    assert (Hy : sub y1 zero = y) by (rewrite Hy1; reflexivity).
    rewrite Hy.
    split; [exact Hb1 |].
    pose proof (proj1 (bounded_canon _ _) Hb1) as (He1 & Hm1 & Hc1).
    set (mag := Zpos m1 * 2 ^ (e1 + 1074)) in *.
    assert (Hk1 : 1074 - 52 <= e1 + 1074).
    { apply (canon_exponent_lo (Zpos m1)); try lia; fold mag; lia. }
    assert (Hm52 : 2 ^ 52 <= Zpos m1) by lia.
    assert (Hk2 : e1 + 1074 <= 1076 - 53).
    { apply (canon_exponent_hi (Zpos m1)); try lia; fold mag; lia. }
    pose proof (add_finite true false m1 7074237752028440 e1 (-51)
                           Hb1 eq_refl) as Hadd.
    cbv zeta in Hadd. rewrite !units_finite in Hadd.
    cbn [signed] in Hadd. change (-51 + 1074) with 1023 in Hadd.
    fold mag in Hadd. fold y in Hadd.
    change (add y (S754_finite false 7074237752028440 (-51)))
      with (add y pi) in Hadd.
    destruct Hadd as [[H0 Hz] | Hadd].
    + (* y = -pi *)
      assert (Hyp : y = S754_finite true 7074237752028440 (-51)).
      { apply units_inj; [exact Hb1 | reflexivity |].
        fold mag. change (-51 + 1074) with 1023. lia. }
      rewrite Hyp. exact Hminus_pi.
    + set (t := add y pi) in *.
      assert (Hfits : exists m' k',
                 Z.abs (- mag + 7074237752028440 * 2 ^ 1023) = m' * 2 ^ k'
                 /\ 0 < m' < 2 ^ 53 /\ 0 <= k').
      { destruct Hadd as [Hv0 _].
        assert (Hcases : e1 = -52 \/ e1 = -51) by lia.
        clear - Hcases Hv0 Hlo Hhi Hm1 Hm52.
        destruct Hcases as [-> | ->]; unfold mag in *.
        - change (-52 + 1074) with 1022 in *.
          exists (2 * 7074237752028440 - Zpos m1), 1022. lia.
        - change (-51 + 1074) with 1023 in *.
          exists (7074237752028440 - Zpos m1), 1023. lia. }
      destruct Hfits as (m' & k' & Habs & Hm' & Hk').
      pose proof (rounds_exact _ _ m' k' Hadd Habs Hm' Hk') as Ht.
      assert (Hpos : (- mag + 7074237752028440 * 2 ^ 1023 <? 0) = false)
        by (apply Z.ltb_ge; lia).
      rewrite Hpos in Ht.
      destruct (fits_finite false _ m' k' Habs Hm' Hk')
        as (m3 & e3 & Hof & Hb3 & Hu3); [lia |].
      rewrite Hof in Ht. rewrite Ht.
      change (add (S754_finite false m3 e3) zero)
        with (S754_finite false m3 e3).
      unfold two_pi. rewrite (np_mod_below_two_pi m3 e3 Hb3) by lia.
      pose proof (sub_finite false false m3 7074237752028440 e3 (-51)
                             Hb3 eq_refl) as Hsub'.
      cbv zeta in Hsub'. rewrite !units_finite, Hu3 in Hsub'.
      cbn [signed] in Hsub'. change (-51 + 1074) with 1023 in Hsub'.
      change (sub (S754_finite false m3 e3)
                  (S754_finite false 7074237752028440 (-51)))
        with (sub (S754_finite false m3 e3) pi) in Hsub'.
      destruct Hsub' as [[H0 _] | Hsub'].
      * lia.
      * rewrite (rounds_double _ _ true m1 e1 Hsub' Hb1);
          [reflexivity |].
        cbn [signed]. fold mag. lia.
Qed.

Lemma eqb_refl_finite (x : spec_float) : finite x = true -> eqb x x = true.
Proof.
  destruct x as [s | s | | s m e]; try discriminate; intros _.
  - reflexivity.
  - unfold eqb, SFeqb, SFcompare.
    destruct s; rewrite Z.compare_refl, Pos.compare_cont_refl; reflexivity.
Qed.

(** C8, amended to the doubles the program computes with: for every
    finite double [x], [wrap(x)] is a finite double, and
    [wrap(wrap(x)) == wrap(x)] holds exactly when [wrap(x)] is not
    [np.pi].  When [wrap(x)] is [np.pi], the second application returns
    [-np.pi].  Equality is both the identity of the two doubles and
    IEEE [==]. *)
Theorem wrap_idempotent (x : spec_float) :
  finite x = true ->
  finite (wrap0 x) = true
  /\ (wrap0 x <> pi ->
      wrap0 (wrap0 x) = wrap0 x /\ eqb (wrap0 (wrap0 x)) (wrap0 x) = true)
  /\ (wrap0 x = pi ->
      wrap0 (wrap0 x) = SFopp pi /\ eqb (wrap0 (wrap0 x)) (wrap0 x) = false).
Proof.
  intros Hx.
  assert (Hw : forall z,
             wrap0 z
             = sub (sub (np_mod (add (add z pi) zero)
                                (S754_finite false 7074237752028440 (-50)))
                        pi) zero).
  { intros z. unfold wrap0, wrap. now rewrite two_pi_double. }
  assert (Hpi : wrap0 pi = SFopp pi) by (vm_compute; reflexivity).
  assert (Hzero :
            let y := sub (sub (S754_zero false) pi) zero in
            finite y = true
            /\ sub (sub (np_mod (add (add y pi) zero)
                                (S754_finite false 7074237752028440 (-50)))
                        pi) zero = y)
    by (split; vm_compute; reflexivity).
  assert (Htwo :
            sub (sub (S754_finite false 7074237752028440 (-50)) pi) zero
            = pi)
    by (vm_compute; reflexivity).
  assert (Hmain : finite (wrap0 x) = true
                  /\ (wrap0 x <> pi -> wrap0 (wrap0 x) = wrap0 x)).
  { rewrite (Hw (wrap0 x)), (Hw x).
    pose proof (add_pi_finite x Hx) as Ht.
    destruct (np_mod_two_pi_range _ Ht) as [Hr | (m & e & Hr & Hb & Hle)];
      cbv zeta in Hr; rewrite Hr.
    - destruct Hzero as [Hfin Hidem]. split; [exact Hfin | auto].
    - destruct (Z.eq_dec (Zpos m * 2 ^ (e + 1074))
                         (7074237752028440 * 2 ^ 1024)) as [Heq | Hne].
      + assert (Htp : S754_finite false m e
                      = S754_finite false 7074237752028440 (-50)).
        { apply units_inj; [exact Hb | reflexivity |].
          change (-50 + 1074) with 1024. exact Heq. }
        rewrite Htp, Htwo. split; [reflexivity |].
        intros Hnpi. exfalso. apply Hnpi. reflexivity.
      + destruct (wrap_from_remainder m e Hb ltac:(lia)) as [Hfin Hidem].
        split; [exact Hfin | intros _; exact Hidem]. }
  destruct Hmain as [Hfin Hidem].
  split; [exact Hfin |]. split.
  - intros Hne. rewrite (Hidem Hne).
    split; [reflexivity | now apply eqb_refl_finite].
  - intros Heq. rewrite Heq, Hpi. split; vm_compute; reflexivity.
Qed.

End WrapOnDoubles.

Lemma wrap_idempotent_witness :
  let x := S754_finite false 4503599627370496 (-50) in
  Binary64.finite (Binary64.wrap0 x) = true
  /\ (Binary64.wrap0 x <> Binary64.pi ->
      Binary64.wrap0 (Binary64.wrap0 x) = Binary64.wrap0 x
      /\ Binary64.eqb (Binary64.wrap0 (Binary64.wrap0 x)) (Binary64.wrap0 x)
         = true)
  /\ (Binary64.wrap0 x = Binary64.pi ->
      Binary64.wrap0 (Binary64.wrap0 x) = SFopp Binary64.pi
      /\ Binary64.eqb (Binary64.wrap0 (Binary64.wrap0 x)) (Binary64.wrap0 x)
         = false).
Proof.
  intros x.
  apply (wrap_idempotent x).
  reflexivity.
Defined.
